(** * aur: reconciliation and synchronisation of a local package repository

    A shallow embedding of [main.go] (package [main], lines 1-426) of
    the [aur] helper.  The Go program talks to the outside world through
    libalpm, the AUR RPC, external processes ([makepkg], [git],
    [repo-add], [vim]) and the Go standard library.  Those collaborators
    are collected in the interface [Externals]; the code of the
    repository itself is written out as functions in a state-and-exit
    monad over an explicit [State].

    The later revision of [main.go] that follows in the same file
    differs in names of local variables and in how it joins the text of
    "target not found"; the text and the control flow are the same. *)

From Stdlib Require Import ZArith QArith Lqa String Ascii List Permutation Sorted Lia.
From Stdlib Require OrderedTypeEx.
From stdpp Require Import base gmap sets list strings pretty sorting.

Local Open Scope string_scope.
Local Open Scope Z_scope.

Set Warnings "-clear-no-such-hyp".

(** ** Go strings

    A Go [string] is a byte sequence; [String.string] is a list of
    8-bit characters, so [len], slicing and the prefix and suffix tests
    are byte-wise as in Go. *)

Module GoString.

Definition len (s : string) : nat := String.length s.

(** [s[n:]]: [None] stands for the run-time panic
    "slice bounds out of range". *)
Fixpoint slice_from (n : nat) (s : string) : option string :=
  match n, s with
  | O, _ => Some s
  | S n', String _ s' => slice_from n' s'
  | S _, EmptyString => None
  end.

(** [strings.HasPrefix(s, p)] *)
Definition HasPrefix (s p : string) : bool := String.prefix p s.

(** [strings.HasSuffix(s, p)] *)
Definition HasSuffix (s p : string) : bool :=
  match slice_from (len s - len p) s with
  | Some t => String.eqb t p
  | None => false
  end.

(** [strings.Split(s, sep)] for a one-byte separator: always at least
    one field. *)
Fixpoint Split (s : string) (sep : ascii) : list string :=
  match s with
  | EmptyString => [""]
  | String c s' =>
      if Ascii.eqb c sep then "" :: Split s' sep
      else match Split s' sep with
           | f :: fs => String c f :: fs
           | [] => [String c ""]
           end
  end.

(** [strings.Join(l, sep)] *)
Fixpoint Join (l : list string) (sep : string) : string :=
  match l with
  | [] => ""
  | [x] => x
  | x :: l' => x +:+ sep +:+ Join l' sep
  end.

(** [strings.TrimSpace] on ASCII text: space, tab, newline, vertical
    tab, form feed and carriage return. *)
Definition is_space (c : ascii) : bool :=
  Ascii.eqb c " " || Ascii.eqb c "009" || Ascii.eqb c "010" || Ascii.eqb c "011"
  || Ascii.eqb c "012" || Ascii.eqb c "013".

Fixpoint trim_left (s : string) : string :=
  match s with
  | String c s' => if is_space c then trim_left s' else s
  | EmptyString => ""
  end.

Fixpoint trim_right (s : string) : string :=
  match s with
  | String c s' =>
      match trim_right s' with
      | EmptyString => if is_space c then "" else String c ""
      | t => String c t
      end
  | EmptyString => ""
  end.

Definition TrimSpace (s : string) : string := trim_right (trim_left s).

(** [s < t] on strings: byte-wise lexicographic. *)
Definition ltb (s t : string) : bool :=
  match String.compare s t with Lt => true | _ => false end.

(** ["%-*s"]: pad with spaces on the right up to width [w]; names and
    versions are ASCII, so bytes and runes coincide. *)
Fixpoint spaces (n : nat) : string :=
  match n with O => "" | S n' => String " " (spaces n') end.
Definition pad_right (w : nat) (s : string) : string := s +:+ spaces (w - len s).
(** ["%*s"]: pad with spaces on the left. *)
Definition pad_left (w : nat) (s : string) : string := spaces (w - len s) +:+ s.

End GoString.

(** ** Data model *)

(** [type Package struct].  [NumVotes] and [OutOfDate] are machine
    integers used only in comparisons with their own kind; [Popularity]
    is a [float64] decoded from JSON, hence finite: comparing two finite
    floats is comparing the rationals they denote. *)
Record Package := mkPackage {
  Description : string;
  Maintainer : string;
  Name : string;
  NumVotes : Z;
  OutOfDate : Z;
  PackageBase : string;
  Popularity : Q;
  Version : string;
  OldVersion : string
}.

Definition set_Version (v : string) (p : Package) : Package :=
  mkPackage (Description p) (Maintainer p) (Name p) (NumVotes p) (OutOfDate p)
            (PackageBase p) (Popularity p) v (OldVersion p).

Definition set_OldVersion (v : string) (p : Package) : Package :=
  mkPackage (Description p) (Maintainer p) (Name p) (NumVotes p) (OutOfDate p)
            (PackageBase p) (Popularity p) (Version p) v.

(** What libalpm exposes of one [alpm_pkg_t] of the registered database. *)
Record AlpmPkg := mkAlpmPkg {
  alpm_pkg_get_name : string;
  alpm_pkg_get_version : string;
  alpm_pkg_get_base : string;
  alpm_pkg_get_filename : string
}.

(** One entry of the cache directory [pkgdest], as [os.ReadDir] reports it,
    with what the operating system knows besides: [entry_locked] entries
    cannot be removed (a permission failure of [os.RemoveAll]);
    [entry_data] abstracts what is stored inside or in the file. *)
Record DirEntry := mkDirEntry {
  entry_name : string;
  entry_is_dir : bool;
  entry_locked : bool;
  entry_data : list string
}.

(** The three local stores: the registered package database (its
    [pkgcache]), the cache directory ([None] when it cannot be read), and
    the entries of the repository archive. *)
Record World := mkWorld {
  pkgcache : list AlpmPkg;
  cachedir : option (list DirEntry);
  archive : list string
}.

Definition set_cachedir (d : option (list DirEntry)) (w : World) : World :=
  mkWorld (pkgcache w) d (archive w).

(** [*exec.Cmd] as the program fills it in.  [Env] lists the variables
    added to the inherited environment. *)
Record Cmd := mkCmd {
  Path : string;
  Args : list string;
  Dir : string;
  Env : list string;
  Stdin : bool;
  Stdout : bool;
  Stderr : bool
}.

(** The [error] of [cmd.Run] and [cmd.Output]: [nil], an
    [*exec.ExitError] with its exit code, or another error (the program
    could not be started). *)
Inductive CmdErr :=
| NoErr
| ExitError (code : Z)
| OtherErr (msg : string).

Definition Error (e : CmdErr) : string :=
  match e with
  | NoErr => ""
  | ExitError c => "exit status " +:+ pretty c
  | OtherErr m => m
  end.

(** The two requests sent to the registry. *)
Inductive URL :=
| RpcInfo (names : list string)   (* /rpc/v5/info?arg[]=..&arg[]=.. *)
| RpcSearch (term : string).      (* /rpc/v5/search/<term> *)

(** Effects on the outside that the run leaves behind, in order. *)
Inductive Event :=
| Exec (c : Cmd)
| RemoveAll (path : string).

#[global] Instance Cmd_eq_dec : EqDecision Cmd.
Proof. solve_decision. Defined.
#[global] Instance Event_eq_dec : EqDecision Event.
Proof. solve_decision. Defined.

(** A strict weak ordering given as a Go [less] closure. *)
Record StrictWeak {A : Type} (less : A → A → bool) : Prop := {
  sw_irrefl : ∀ x, less x x = false;
  sw_trans : ∀ x y z, less x y = true → less y z = true → less x z = true;
  sw_incomp : ∀ x y z, less x y = false → less y z = false → less x z = false
}.

(** ** External collaborators

    Everything the program calls that is not its own code.  The laws are
    what the Go documentation promises: [sort.Slice] permutes its slice
    and, for a strict weak ordering, leaves it sorted (it is not stable);
    ranging over a map visits every key once, in no specified order. *)
Class Externals := {
  alpm_pkg_vercmp : string → string → Z;
  http_get : URL → string + list Package;
  run : Cmd → World → CmdErr * string * World;
  FindStringSubmatch : string → option (string * string);
  DateOnly : Z → string;
  Sprintf_f : Q → string;
  Getenv_HOME : string;
  TempDir : string;
  sort_Slice : ∀ {A : Type}, (A → A → bool) → list A → list A;
  sort_Slice_perm : ∀ A (less : A → A → bool) l, sort_Slice less l ≡ₚ l;
  sort_Slice_sorted : ∀ A (less : A → A → bool) l,
    StrictWeak less →
    StronglySorted (λ x y, less y x = false) (sort_Slice less l);
  map_range : gset string → list string;
  map_range_perm : ∀ s, map_range s ≡ₚ elements s
}.

(** ** The state of a run and its monad *)

(** The stores, the terminal and the three global flags.  [answers] is
    what the program's own prompts will read; children that inherit
    standard input read the terminal on their own account.  [trace]
    records, in order, the children started and the removals asked of
    the operating system. *)
Record State := mkState {
  world : World;
  answers : list string;     (* what Scanln will read, one item per call *)
  stdout : list string;      (* what has been printed, one item per call *)
  trace : list Event;
  force : bool;
  devel : bool;
  noedit : bool
}.

(** How a call ends: it returns, the process exits ([os.Exit]), it dies
    in [log.Fatal] (message on standard error, status 1), or it panics
    (status 2). *)
Inductive Res (A : Type) : Type :=
| Ok (a : A)
| Exit (code : Z)
| Fatal (msg : string)
| Panic (msg : string).
Arguments Ok {A} a.
Arguments Exit {A} code.
Arguments Fatal {A} msg.
Arguments Panic {A} msg.

Definition exit_status {A} (r : Res A) : Z :=
  match r with
  | Ok _ => 0
  | Exit c => c
  | Fatal _ => 1
  | Panic _ => 2
  end.

(** A piece of the program: from a state to the way it ends and the
    state it leaves. *)
Definition M (A : Type) : Type := State → Res A * State.

Definition ret {A} (a : A) : M A := λ s, (Ok a, s).

Definition bind {A B} (m : M A) (k : A → M B) : M B :=
  λ s, match m s with
       | (Ok a, s') => k a s'
       | (Exit c, s') => (Exit c, s')
       | (Fatal e, s') => (Fatal e, s')
       | (Panic e, s') => (Panic e, s')
       end.

Declare Scope go_scope.
Delimit Scope go_scope with go.
Notation "x <- m ;; k" := (bind m (λ x, k))
  (at level 100, m at next level, right associativity) : go_scope.
Notation "m ;;; k" := (bind m (λ _, k))
  (at level 100, right associativity) : go_scope.
Local Open Scope go_scope.

Definition os_Exit {A} (code : Z) : M A := λ s, (Exit code, s).
Definition log_Fatal {A} (msg : string) : M A := λ s, (Fatal msg, s).
Definition panic {A} (msg : string) : M A := λ s, (Panic msg, s).

Definition get_state : M State := λ s, (Ok s, s).

Definition print (str : string) : M unit :=
  λ s, (Ok tt, mkState (world s) (answers s) (stdout s ++ [str])%list (trace s)
                       (force s) (devel s) (noedit s)).

Definition set_world (w : World) (s : State) : State :=
  mkState w (answers s) (stdout s) (trace s) (force s) (devel s) (noedit s).

Definition emit (e : Event) (s : State) : State :=
  mkState (world s) (answers s) (stdout s) (trace s ++ [e])%list
          (force s) (devel s) (noedit s).

(** [fmt.Scanln(ans)]: the next answer, or nothing at end of input. *)
Definition Scanln : M string :=
  λ s, match answers s with
       | [] => (Ok "", s)
       | a :: rest =>
           (Ok a, mkState (world s) rest (stdout s) (trace s)
                          (force s) (devel s) (noedit s))
       end.

Definition set_devel : M unit :=
  λ s, (Ok tt, mkState (world s) (answers s) (stdout s) (trace s) (force s) true (noedit s)).
Definition set_force : M unit :=
  λ s, (Ok tt, mkState (world s) (answers s) (stdout s) (trace s) true (devel s) (noedit s)).
Definition set_noedit : M unit :=
  λ s, (Ok tt, mkState (world s) (answers s) (stdout s) (trace s) (force s) (devel s) true).

(** [for _, x := range l { body }] *)
Fixpoint for_range {A} (l : list A) (body : A → M unit) : M unit :=
  match l with
  | [] => ret tt
  | x :: l' => body x ;;; for_range l' body
  end.

(** ** The program *)

Section Program.
Context `{E : Externals}.

Definition ESC : string := String (ascii_of_nat 27) "".
Definition NL : string := String (ascii_of_nat 10) "".

(** [fmt.Println] of one string. *)
Definition Println (str : string) : M unit := print (str +:+ NL).

(** [path.Join]: the non-empty elements separated by slashes.  Package
    and file names are single path elements, so the cleaning that
    [path.Join] also does has nothing to do. *)
Definition path_Join (elems : list string) : string :=
  GoString.Join (filter (λ e, e ≠ "") elems) "/".

Definition dbname : string := "aur".
Definition pkgdest : string := path_Join [Getenv_HOME; ".cache"; dbname].
Definition dbpath : string := path_Join [pkgdest; dbname +:+ ".db.tar.gz"].

(** [exec.Command(name, arg...)] *)
Definition exec_Command (name : string) (arg : list string) : Cmd :=
  mkCmd name arg "" [] false false false.

Definition with_Stdin (c : Cmd) : Cmd :=
  mkCmd (Path c) (Args c) (Dir c) (Env c) true (Stdout c) (Stderr c).
Definition with_Stdout (c : Cmd) : Cmd :=
  mkCmd (Path c) (Args c) (Dir c) (Env c) (Stdin c) true (Stderr c).
Definition with_Stderr (c : Cmd) : Cmd :=
  mkCmd (Path c) (Args c) (Dir c) (Env c) (Stdin c) (Stdout c) true.

(** [cmd.Run()]: the child runs to completion on the current world. *)
Definition cmd_Run (c : Cmd) : M CmdErr :=
  λ s, let '(err, _, w) := run c (world s) in
       (Ok err, emit (Exec c) (set_world w s)).

(** [cmd.Output()]: as [Run], and the child's standard output is returned. *)
Definition cmd_Output (c : Cmd) : M (string * CmdErr) :=
  λ s, let '(err, out, w) := run c (world s) in
       (Ok (out, err), emit (Exec c) (set_world w s)).

(** [if err != nil { log.Fatal(err) }] *)
Definition check_err (err : CmdErr) : M unit :=
  match err with
  | NoErr => ret tt
  | _ => log_Fatal (Error err)
  end.

(** [get]: the decoded [results] of the reply; a transport or decoding
    error is fatal. *)
Definition get (u : URL) : M (list Package) :=
  match http_get u with
  | inr results => ret results
  | inl err => log_Fatal err
  end.

Definition fetch (names : list string) : M (list Package) :=
  Println (ESC +:+ "[1;34m::" +:+ ESC +:+ "[39m Fetching packages..." +:+ ESC +:+ "[0m") ;;;
  get (RpcInfo names).

Definition remove (names : list string) : M unit :=
  let arg := dbpath :: names in
  let cmd := with_Stdout (with_Stderr (exec_Command "repo-remove" arg)) in
  err <- cmd_Run cmd ;;
  check_err err.

(** [<] on two finite floats. *)
Definition float_ltb (x y : Q) : bool := negb (Qle_bool y x).

(** The closure given to [sort.Slice] in [search], on the two elements
    it reads. *)
Definition search_less (a b : Package) : bool :=
  if Qeq_bool (Popularity a) (Popularity b)
  then NumVotes a <? NumVotes b
  else float_ltb (Popularity a) (Popularity b).

Definition search_line (r : Package) : string :=
  ESC +:+ "[1;35maur/" +:+ ESC +:+ "[39m" +:+ Name r +:+ " " +:+ ESC +:+ "[32m"
  +:+ Version r +:+ ESC +:+ "[39m " +:+ ESC +:+ "[36m[" +:+ pretty (NumVotes r)
  +:+ " " +:+ Sprintf_f (Popularity r) +:+ "]" +:+ ESC +:+ "[0m".

Definition search (str : string) : M unit :=
  res <- get (RpcSearch str) ;;
  let res := sort_Slice search_less res in
  for_range res (λ r,
    print (search_line r) ;;;
    (if 0 <? OutOfDate r
     then print (" " +:+ ESC +:+ "[31m" +:+ DateOnly (OutOfDate r) +:+ ESC +:+ "[39m")
     else ret tt) ;;;
    Println (NL +:+ "    " +:+ Description r)).

Definition makepkg (base : string) (arg : list string) : Cmd :=
  mkCmd "makepkg" arg (path_Join [pkgdest; base])
        ["PKGDEST=" +:+ pkgdest; "BUILDDIR=" +:+ TempDir] false false false.

(** The loop of [VCSVersion]: [version[match[1]] = match[2]] for every
    field; indexing a [nil] match panics. *)
Fixpoint VCSVersion_fill (fields : list string) (version : gmap string string)
  : M (gmap string string) :=
  match fields with
  | [] => ret version
  | o :: fields' =>
      match FindStringSubmatch o with
      | Some (m1, m2) => VCSVersion_fill fields' (<[m1 := m2]> version)
      | None => panic "index out of range [1] with length 0"
      end
  end.

Definition VCSVersion (base : string) : M (gmap string string) :=
  err <- cmd_Run (makepkg base ["--nobuild"; "--nodeps"; "--noprepare"]) ;;
  check_err err ;;;
  out <- cmd_Output (makepkg base ["--packagelist"]) ;;
  let '(output, err) := out in
  check_err err ;;;
  VCSVersion_fill (GoString.Split output " ") ∅.

(** [C.alpm_db_get_pkg(db, name)]; libalpm loads the package cache of
    the database on first use and answers from it afterwards. *)
Definition alpm_db_get_pkg (db : list AlpmPkg) (name : string) : option AlpmPkg :=
  List.find (λ p, String.eqb (alpm_pkg_get_name p) name) db.

(** [prepare], lines 135-150: every requested name must have a record. *)
Definition prepare_targets (names : list string) (res : list Package) : M unit :=
  if decide (length names ≠ length res) then
    let set : gset string := foldl (λ set n, {[n]} ∪ set) ∅ names in
    let set : gset string := foldl (λ set r, set ∖ {[Name r]}) set res in
    if decide (0 < size set)%nat then
      let p := foldl (λ p s, p +:+ " " +:+ s) "" (map_range set) in
      log_Fatal ("target not found:" +:+ p)
    else ret tt
  else ret tt.

(** [prepare], lines 151-159: warnings. *)
Definition prepare_warnings (res : list Package) : M unit :=
  for_range res (λ r,
    (if decide (OutOfDate r ≠ 0)
     then print (ESC +:+ "[1;33m==> WARNING:" +:+ ESC +:+ "[39m " +:+ Name r
                 +:+ " is flagged out of date (" +:+ DateOnly (OutOfDate r) +:+ ")"
                 +:+ ESC +:+ "[0m" +:+ NL)
     else ret tt) ;;;
    (if decide (Maintainer r = "")
     then print (ESC +:+ "[1;33m==> WARNING:" +:+ ESC +:+ "[39m " +:+ Name r
                 +:+ " is orphan" +:+ ESC +:+ "[0m" +:+ NL)
     else ret tt)).

(** [prepare], lines 161-167: the record as compared, for one fetched
    record [r]. *)
Definition prepare_local (db : list AlpmPkg) (r : Package) : M Package :=
  match alpm_db_get_pkg db (Name r) with
  | Some pkg =>
      s <- get_state ;;
      r <- (if devel s && GoString.HasSuffix (Name r) "-git"
            then version <- VCSVersion (PackageBase r) ;;
                 ret (set_Version (default "" (version !! Name r)) r)
            else ret r) ;;
      ret (set_OldVersion (alpm_pkg_get_version pkg) r)
  | None => ret r
  end.

(** The condition of line 168. *)
Definition is_outdated (force : bool) (r : Package) : bool :=
  force || (0 <? alpm_pkg_vercmp (Version r) (OldVersion r)).

(** [prepare], lines 160-171: the loop that fills [outdated]. *)
Fixpoint prepare_outdated (db : list AlpmPkg) (res : list Package)
    (outdated : list Package) : M (list Package) :=
  match res with
  | [] => ret outdated
  | r :: res' =>
      r <- prepare_local db r ;;
      s <- get_state ;;
      prepare_outdated db res'
        (if is_outdated (force s) r then (outdated ++ [r])%list else outdated)
  end.

Definition name_less (a b : Package) : bool := GoString.ltb (Name a) (Name b).

(** [prepare], lines 172-205: the table, or the early exit. *)
Definition prepare_table (outdated : list Package) : M (list Package) :=
  if decide (0 < length outdated)%nat then
    let clen := GoString.len (pretty (length outdated)) in
    let nlen := foldl (λ n p, Nat.max n (GoString.len (Name p))) 0%nat outdated in
    let vlen := foldl (λ n p, Nat.max n (GoString.len (OldVersion p))) 0%nat outdated in
    let nlen := Nat.max nlen (10 + clen) in
    let vlen := if decide (vlen ≠ 0)%nat then Nat.max vlen 11 else vlen in
    Println (ESC +:+ "[1m") ;;;
    print (GoString.pad_right nlen ("Package (" +:+ pretty (length outdated) +:+ ")") +:+ "  ") ;;;
    (if decide (vlen ≠ 0)%nat
     then print ("Old Version  " +:+ GoString.pad_left vlen "New Version")
     else print "New Version") ;;;
    Println (ESC +:+ "[0m" +:+ NL) ;;;
    let outdated := sort_Slice name_less outdated in
    for_range outdated (λ p,
      if decide (vlen ≠ 0)%nat
      then print (GoString.pad_right nlen (Name p) +:+ "  "
                  +:+ GoString.pad_right vlen (OldVersion p) +:+ "  " +:+ Version p +:+ NL)
      else print (GoString.pad_right nlen (Name p) +:+ "  " +:+ Version p +:+ NL)) ;;;
    Println "" ;;;
    ret outdated
  else
    Println "There is nothing to do" ;;;
    os_Exit 0.

(** Lines 133-171 of [prepare]: from the names to the outdated set. *)
Definition prepare_reconcile (names : list string) : M (list Package) :=
  res <- fetch names ;;
  prepare_targets names res ;;;
  prepare_warnings res ;;;
  s <- get_state ;;
  prepare_outdated (pkgcache (world s)) res [].

Definition prepare (names : list string) : M (list Package) :=
  outdated <- prepare_reconcile names ;;
  prepare_table outdated.

Definition build (base : string) : M unit :=
  let cmd := with_Stdout (with_Stderr (with_Stdin (makepkg base ["--force"; "--syncdeps"]))) in
  err <- cmd_Run cmd ;;
  check_err err ;;;
  out <- cmd_Output (makepkg base ["--packagelist"]) ;;
  let '(output, err) := out in
  check_err err ;;;
  let pkgs := GoString.Split (GoString.TrimSpace output) "010" in
  let arg := ("--remove" :: dbpath :: pkgs) in
  let cmd := with_Stdout (with_Stderr (exec_Command "repo-add" arg)) in
  err <- cmd_Run cmd ;;
  check_err err.

Definition prompt (str : string) : M bool :=
  print (ESC +:+ "[1;34m::" +:+ ESC +:+ "[39m " +:+ str +:+ " [Y/n]" +:+ ESC +:+ "[0m ") ;;;
  ans <- Scanln ;;
  ret (String.eqb ans "y" || String.eqb ans "Y" || String.eqb ans "").

Definition promptEdit (src : string) : M unit :=
  s <- get_state ;;
  ok <- (if noedit s then ret false else prompt "Edit PKGBUILD?") ;;
  if ok : bool then
    let cmd := with_Stdout (with_Stdin (exec_Command "vim" [path_Join [src; "PKGBUILD"]])) in
    err <- cmd_Run cmd ;;
    check_err err
  else ret tt.

(** [os.Stat(path.Join(pkgdest, name))] succeeds. *)
Definition os_Stat (w : World) (name : string) : bool :=
  match cachedir w with
  | None => false
  | Some entries =>
      if decide (name = "") then true
      else existsb (λ e, String.eqb (entry_name e) name) entries
  end.

(** [os.ReadDir(pkgdest)] *)
Definition os_ReadDir : M (list DirEntry) :=
  s <- get_state ;;
  match cachedir (world s) with
  | Some entries => ret entries
  | None => log_Fatal ("open " +:+ pkgdest +:+ ": no such file or directory")
  end.

(** [os.RemoveAll(path.Join(pkgdest, name))]: [None] is the [nil]
    error; removing what does not exist succeeds. *)
Definition os_RemoveAll (name : string) : M (option string) :=
  λ s,
    let s' := emit (RemoveAll (path_Join [pkgdest; name])) s in
    match cachedir (world s) with
    | None => (Ok None, s')
    | Some entries =>
        if existsb (λ e, String.eqb (entry_name e) name && entry_locked e) entries
        then (Ok (Some ("unlinkat " +:+ path_Join [pkgdest; name] +:+ ": permission denied")), s')
        else (Ok None,
              set_world (set_cachedir
                           (Some (filter (λ e, entry_name e ≠ name) entries))
                           (world s)) s')
    end.

(** The set of build-unit bases of [sync] and [update]. *)
Definition collect_bases (outdated : list Package) : gset string :=
  foldl (λ bases p, {[PackageBase p]} ∪ bases) ∅ outdated.

(** The body of the loop of [sync], lines 264-274. *)
Definition sync_unit (base : string) : M unit :=
  print (ESC +:+ "[1;34m::" +:+ ESC +:+ "[39m Syncing: " +:+ base +:+ NL) ;;;
  let src := path_Join [pkgdest; base] in
  s <- get_state ;;
  (if os_Stat (world s) base then ret tt
   else
     let url := "https://aur.archlinux.org/" +:+ base +:+ ".git" in
     err <- cmd_Run (exec_Command "git" ["clone"; url; src]) ;;
     check_err err) ;;;
  promptEdit src ;;;
  build base.

Definition sync (names : list string) : M unit :=
  outdated <- prepare names ;;
  ok <- prompt "Proceed with synchronising?" ;;
  (if ok : bool then ret tt else os_Exit 1) ;;;
  let bases := collect_bases outdated in
  for_range (map_range bases) sync_unit.

Definition git (src : string) (arg : list string) : Cmd :=
  exec_Command "git" ("-C" :: src :: arg).

(** The body of the loop of [update], lines 303-326. *)
Definition update_unit (base : string) : M unit :=
  print (ESC +:+ "[1;34m::" +:+ ESC +:+ "[39m Updating: " +:+ base +:+ NL) ;;;
  let src := path_Join [pkgdest; base] in
  err <- cmd_Run (git src ["fetch"; "--quiet"]) ;;
  check_err err ;;;
  err <- cmd_Run (git src ["diff"; "HEAD"; "FETCH_HEAD"; "--quiet"]) ;;
  match err with
  | ExitError code =>
      show <- (if code =? 1 then prompt "Show diff?" else ret false) ;;
      if show : bool then
        err <- cmd_Run (with_Stdout (git src ["diff"; "HEAD"; "FETCH_HEAD"])) ;;
        check_err err
      else ret tt
  | _ => ret tt
  end ;;;
  err <- cmd_Run (git src ["merge"; "--quiet"]) ;;
  check_err err ;;;
  promptEdit src ;;;
  build base.

Definition update : M unit :=
  s <- get_state ;;
  let names := map alpm_pkg_get_name (pkgcache (world s)) in
  outdated <- prepare names ;;
  ok <- prompt "Proceed with updating?" ;;
  (if ok : bool then ret tt else os_Exit 1) ;;;
  let bases := collect_bases outdated in
  for_range (map_range bases) update_unit.

(** The keep set of [clean], lines 331-340. *)
Definition clean_filenames (db : list AlpmPkg) : gset string :=
  foldl (λ filenames pkg,
           {[alpm_pkg_get_filename pkg]} ∪ ({[alpm_pkg_get_base pkg]} ∪ filenames))
        ∅ db.

(** The condition of line 349. *)
Definition clean_keeps (filenames : gset string) (name : string) : bool :=
  bool_decide (name ∈ filenames) || GoString.HasPrefix name (dbname +:+ ".").

(** The first loop of [clean], lines 347-360. *)
Fixpoint clean_scan (filenames : gset string) (files : list DirEntry)
    (garbage : list string) : M (list string) :=
  match files with
  | [] => ret garbage
  | file :: files' =>
      let name := entry_name file in
      if clean_keeps filenames name then
        (if entry_is_dir file then
           let src := path_Join [pkgdest; name] in
           err <- cmd_Run (git src ["clean"; "-dfx"]) ;;
           check_err err
         else ret tt) ;;;
        clean_scan filenames files' garbage
      else clean_scan filenames files' (garbage ++ [name])%list
  end.

Definition clean : M unit :=
  s <- get_state ;;
  let filenames := clean_filenames (pkgcache (world s)) in
  files <- os_ReadDir ;;
  Println "removing old packages from cache..." ;;;
  garbage <- clean_scan filenames files [] ;;
  Println "removing unsynced packages..." ;;;
  for_range garbage (λ name,
    err <- os_RemoveAll name ;;
    match err with
    | Some e => log_Fatal e
    | None => ret tt
    end).

Definition usage_text : string :=
  "usage: aur <operation>" +:+ NL +:+
  "operations:" +:+ NL +:+
  "    clean" +:+ NL +:+
  "    remove [package(s)]" +:+ NL +:+
  "    search [string]" +:+ NL +:+
  "    sync   [options] [package(s)]" +:+ NL +:+
  "    update [options]" +:+ NL +:+
  "options:" +:+ NL +:+
  "    --devel    check development packages during update" +:+ NL +:+
  "    --force    always sync packages" +:+ NL +:+
  "    --noedit  don't edit PKGBUILDs".

Definition usage : M unit :=
  Println usage_text ;;;
  os_Exit 0.

(** The [switch a[2:]] of [parser], lines 388-399, for an argument that
    starts with a dash. *)
Definition parser_option (a : string) : M unit :=
  match GoString.slice_from 2 a with
  | None => panic "slice bounds out of range"
  | Some opt =>
      if String.eqb opt "help" then usage
      else if String.eqb opt "devel" then set_devel
      else if String.eqb opt "force" then set_force
      else if String.eqb opt "noedit" then set_noedit
      else log_Fatal ("invalid option: " +:+ a)
  end.

(** The loop of [parser] over [os.Args[1:]]. *)
Fixpoint parser_loop (argv : list string) (args : list string) : M (list string) :=
  match argv with
  | [] => ret args
  | a :: argv' =>
      if GoString.HasPrefix a "-"
      then parser_option a ;;; parser_loop argv' args
      else parser_loop argv' (args ++ [a])%list
  end.

Definition parser (os_Args : list string) : M (string * list string) :=
  match os_Args with
  | [] => panic "slice bounds out of range"
  | _ :: argv =>
      args <- parser_loop argv [] ;;
      match args with
      | [] => log_Fatal "no operation specified"
      | op :: rest => ret (op, rest)
      end
  end.

Definition main (os_Args : list string) : M unit :=
  parsed <- parser os_Args ;;
  let '(op, args) := parsed in
  if String.eqb op "clean" then clean
  else if String.eqb op "remove" then remove args
  else if String.eqb op "search" then search (GoString.Join args "")
  else if String.eqb op "sync" then sync args
  else if String.eqb op "update" then update
  else log_Fatal ("unknown operation: " +:+ op).

End Program.

(** ** Vocabulary of the specifications

    What the statements below are written in: relations between the
    state before and after a piece of the program, the events of
    interest in a trace, and the lists and sets the code builds. *)

Section Vocabulary.
Context `{E : Externals}.
Local Open Scope go_scope.

(** The state [s] with [out] as its output. *)
Definition set_stdout (out : list string) (s : State) : State :=
  mkState (world s) (answers s) out (trace s) (force s) (devel s) (noedit s).

(** [m] relates the state it starts in to the state it ends in by [R],
    however it ends. *)
Definition preserves {A} (R : State → State → Prop) (m : M A) : Prop :=
  ∀ s r s', m s = (r, s') → R s s'.

(** A relation between the states before and after a piece of the
    program that only prints and only starts children allowed by [P]. *)
Record Frame (P : Cmd → Prop) (R : State → State → Prop) : Prop := {
  frame_refl : ∀ s, R s s;
  frame_trans : ∀ s1 s2 s3, R s1 s2 → R s2 s3 → R s1 s3;
  frame_print : ∀ s out, R s (set_stdout out s);
  frame_exec : ∀ s c w, P c → R s (emit (Exec c) (set_world w s))
}.

(** Nothing but the output changes. *)
Definition quiet (s s' : State) : Prop := s' = set_stdout (stdout s') s.

(** The flags and the pending answers stay. *)
Definition steady (s s' : State) : Prop :=
  force s' = force s ∧ devel s' = devel s ∧ noedit s' = noedit s ∧
  answers s' = answers s.

(** The trace grows by events that satisfy [Q]; the flags stay. *)
Definition extends (Q : Event → Prop) (s s' : State) : Prop :=
  (∃ t, trace s' = (trace s ++ t)%list ∧ Forall Q t) ∧
  force s' = force s ∧ devel s' = devel s ∧ noedit s' = noedit s.

(** [r'] is the way [r] stopped the run. *)
Definition stopped {A B} (r : Res A) (r' : Res B) : Prop :=
  match r, r' with
  | Exit c, Exit c' => c = c'
  | Fatal e, Fatal e' => e = e'
  | Panic e, Panic e' => e = e'
  | _, _ => False
  end.

(** The two children of [VCSVersion]. *)
Definition inspect_cmd (c : Cmd) : Prop :=
  ∃ base, c = makepkg base ["--nobuild"; "--nodeps"; "--noprepare"] ∨
          c = makepkg base ["--packagelist"].

(** The version map [VCSVersion] builds from the fields of the package
    list. *)
Definition vcs_map (fields : list string) : gmap string string :=
  foldl (λ version o,
           match FindStringSubmatch o with
           | Some (m1, m2) => <[m1 := m2]> version
           | None => version
           end) ∅ fields.

(** The trace of one [VCSVersion] in the mirror of [base]. *)
Definition inspect_list (base : string) : list Event :=
  [Exec (makepkg base ["--nobuild"; "--nodeps"; "--noprepare"]);
   Exec (makepkg base ["--packagelist"])].

(** [c] is what the loop compares for [r], in a run whose flags and
    answers are those of [s0]. *)
Definition compared (db : list AlpmPkg) (s0 : State) (r c : Package) : Prop :=
  ∃ s1 s2, steady s0 s1 ∧ prepare_local db r s1 = (Ok c, s2).

(** How the record [c] that the loop compares derives from the fetched
    record [r]: same name and build unit; not installed, it is [r]
    itself; installed, [OldVersion] is the installed version and
    [Version] is the fetched one unless the development override
    applies. *)
Definition reconciled (db : list AlpmPkg) (devel : bool)
    (r c : Package) : Prop :=
  Name c = Name r ∧ PackageBase c = PackageBase r ∧
  match alpm_db_get_pkg db (Name r) with
  | None => c = r
  | Some pkg =>
      OldVersion c = alpm_pkg_get_version pkg ∧
      (devel && GoString.HasSuffix (Name r) "-git" = false → Version c = Version r)
  end.

(** The text after ["target not found:"]: every name with a space in
    front, as the loop of lines 145-147 builds it. *)
Definition list_names (l : list string) : string :=
  foldl (λ p s, p +:+ " " +:+ s) "" l.

(** The names that [prepare_targets] reports. *)
Definition unresolved (names : list string) (res : list Package) : list string :=
  map_range (list_to_set names ∖ list_to_set (Name <$> res)).

(** An event of the source inspection of [VCSVersion]. *)
Definition inspect_event (e : Event) : Prop :=
  ∃ c, e = Exec c ∧ inspect_cmd c.

(** An answer other than ["y"], ["Y"] and the empty line. *)
Definition declines (a : string) : Prop := a ≠ "y" ∧ a ≠ "Y" ∧ a ≠ "".

(** The first child of [build]: the build step of the unit [base]. *)
Definition build_cmd (base : string) : Cmd :=
  with_Stdout (with_Stderr (with_Stdin (makepkg base ["--force"; "--syncdeps"]))).

(** How often the build step of unit [b] has been started. *)
Definition builds (b : string) (s : State) : nat :=
  length (filter (λ e, e = Exec (build_cmd b)) (trace s)).

(** An event that starts no build step. *)
Definition no_build (e : Event) : Prop := ∀ b, e ≠ Exec (build_cmd b).

(** What a loop body for the unit [base] does to the counters: other
    units are not built; [base] is built at most once, and once when
    the body returns. *)
Definition unit_spec (base : string) (m : M unit) : Prop :=
  ∀ s r s', m s = (r, s') →
    (∀ b, b ≠ base → builds b s' = builds b s) ∧
    (builds base s ≤ builds base s' ≤ S (builds base s))%nat ∧
    (r = Ok tt → builds base s' = S (builds base s)).

(** What [build] does after its first child has run. *)
Definition build_rest (base : string) (err : CmdErr) : M unit :=
  check_err err ;;;
  out <- cmd_Output (makepkg base ["--packagelist"]) ;;
  let '(output, err) := out in
  check_err err ;;;
  let pkgs := GoString.Split (GoString.TrimSpace output) "010" in
  let arg := ("--remove" :: dbpath :: pkgs) in
  let cmd := with_Stdout (with_Stderr (exec_Command "repo-add" arg)) in
  err <- cmd_Run cmd ;;
  check_err err.

(** The child that [clean] starts in a kept directory. *)
Definition clean_cmd (name : string) : Cmd :=
  git (path_Join [pkgdest; name]) ["clean"; "-dfx"].

(** The names of the entries of the cache directory. *)
Definition dir_names (w : World) : option (list string) :=
  option_map (map entry_name) (cachedir w).

(** [git clean] inside a mirror changes what the mirror holds, not
    which entries the cache directory has, and leaves the package
    database as it is. *)
Definition clean_local : Prop :=
  ∀ name w err out w',
    run (clean_cmd name) w = (err, out, w') →
    pkgcache w' = pkgcache w ∧ dir_names w' = dir_names w.

(** An event that is no call of [os.RemoveAll]. *)
Definition no_removal (e : Event) : Prop := ∀ p, e ≠ RemoveAll p.

(** The database and the names in the cache directory are as before,
    and nothing has been removed. *)
Definition kept_stores (s s' : State) : Prop :=
  pkgcache (world s') = pkgcache (world s) ∧
  dir_names (world s') = dir_names (world s) ∧
  ∃ t, trace s' = (trace s ++ t)%list ∧ Forall no_removal t.

(** The names [clean_scan] adds to [garbage]. *)
Definition garbage_of (filenames : gset string) (files : list DirEntry) : list string :=
  List.filter (λ n, negb (clean_keeps filenames n)) (map entry_name files).

(** The order of the printed results: popularity ascending, then votes
    ascending. *)
Definition search_le (a b : Package) : Prop :=
  (Popularity a < Popularity b)%Q ∨
  ((Popularity a == Popularity b)%Q ∧ NumVotes a ≤ NumVotes b).

(** The pieces [search] prints for one result. *)
Definition search_lines (r : Package) : list string :=
  [search_line r] ++
  (if 0 <? OutOfDate r
   then [" " +:+ ESC +:+ "[31m" +:+ DateOnly (OutOfDate r) +:+ ESC +:+ "[39m"]
   else []) ++
  [(NL +:+ "    " +:+ Description r) +:+ NL].

(** A stable sort, for comparison: insertion from the right, a new
    element in front of the first one that is not less than it. *)
Fixpoint stable_insert {A} (less : A → A → bool) (x : A) (l : list A) : list A :=
  match l with
  | [] => [x]
  | y :: l' => if less y x then y :: stable_insert less x l' else x :: l
  end.

(** Equal elements keep the order they have in [l]. *)
Definition stable_sort {A} (less : A → A → bool) (l : list A) : list A :=
  foldr (stable_insert less) [] l.

End Vocabulary.

(** ** Vocabulary of the steps

    The children the operations start, by name, and what the
    statements about single functions are written in. *)

Section Steps.
Context `{E : Externals}.
Local Open Scope go_scope.

(** [git clone] of the unit [base] into its mirror, as [sync] starts it. *)
Definition clone_cmd (base : string) : Cmd :=
  exec_Command "git" ["clone"; "https://aur.archlinux.org/" +:+ base +:+ ".git";
                      path_Join [pkgdest; base]].

(** The editor on the recipe in [src]. *)
Definition vim_cmd (src : string) : Cmd :=
  with_Stdout (with_Stdin (exec_Command "vim" [path_Join [src; "PKGBUILD"]])).

(** [makepkg --packagelist] in the mirror of [base]. *)
Definition list_cmd (base : string) : Cmd := makepkg base ["--packagelist"].

(** [repo-add --remove] on the archive with the artifacts [pkgs]. *)
Definition repo_add_cmd (pkgs : list string) : Cmd :=
  with_Stdout (with_Stderr (exec_Command "repo-add" ("--remove" :: dbpath :: pkgs))).

(** The artifacts [build] reads off the package list. *)
Definition artifacts (output : string) : list string :=
  GoString.Split (GoString.TrimSpace output) "010".

(** An answer that [prompt] takes for yes. *)
Definition accepts (a : string) : bool :=
  String.eqb a "y" || String.eqb a "Y" || String.eqb a "".

(** The three children of a [build] that succeeds. *)
Definition build_list (base output : string) : list Event :=
  [Exec (build_cmd base); Exec (list_cmd base); Exec (repo_add_cmd (artifacts output))].

(** The children every unit may start: the two [makepkg] runs of
    [build], the editor, [repo-add], and the source inspection. *)
Definition unit_child (c : Cmd) : Prop :=
  (∃ base, c = build_cmd base ∨ c = list_cmd base) ∨
  (∃ src, c = vim_cmd src) ∨
  (∃ pkgs, c = repo_add_cmd pkgs) ∨
  inspect_cmd c.

(** The four [git] children of [update] in the mirror of [base]:
    fetch, the quiet diff, the diff that is shown, merge. *)
Definition fetch_cmd (base : string) : Cmd :=
  git (path_Join [pkgdest; base]) ["fetch"; "--quiet"].
Definition diff_cmd (base : string) : Cmd :=
  git (path_Join [pkgdest; base]) ["diff"; "HEAD"; "FETCH_HEAD"; "--quiet"].
Definition show_cmd (base : string) : Cmd :=
  with_Stdout (git (path_Join [pkgdest; base]) ["diff"; "HEAD"; "FETCH_HEAD"]).
Definition merge_cmd (base : string) : Cmd :=
  git (path_Join [pkgdest; base]) ["merge"; "--quiet"].

Definition mirror_git (base : string) : list Cmd :=
  [fetch_cmd base; diff_cmd base; show_cmd base; merge_cmd base].

Definition sync_event (e : Event) : Prop :=
  ∃ c, e = Exec c ∧ (unit_child c ∨ ∃ base, c = clone_cmd base).

Definition update_event (e : Event) : Prop :=
  ∃ c, e = Exec c ∧ (unit_child c ∨ ∃ base, c ∈ mirror_git base).

(** An event that does not start the editor. *)
Definition no_vim (e : Event) : Prop := ∀ c, e = Exec c → Path c ≠ "vim".

(** Under [noedit]: the editor is not started and the flag stays. *)
Definition unedited (s s' : State) : Prop :=
  noedit s = true → extends no_vim s s'.

(** Under [noedit]: no answer is read and the flag stays. *)
Definition unasked (s s' : State) : Prop :=
  noedit s = true → answers s' = answers s ∧ noedit s' = true.

(** [a] is an option of the command line that selects [opt]: it starts
    with a dash and reads [opt] from its third byte on. *)
Definition selects (opt a : string) : bool :=
  GoString.HasPrefix a "-" && bool_decide (GoString.slice_from 2 a = Some opt).

(** [a] is one of the three flags. *)
Definition is_flag (a : string) : bool :=
  selects "devel" a || selects "force" a || selects "noedit" a.

(** Every option among [argv] is a flag. *)
Definition only_flags (argv : list string) : Prop :=
  Forall (λ a, GoString.HasPrefix a "-" = true → is_flag a = true) argv.

(** The arguments that are no options, in their order. *)
Definition operands (argv : list string) : list string :=
  List.filter (λ a, negb (GoString.HasPrefix a "-")) argv.

(** The state [s] after the flags among [argv] have been set. *)
Definition flagged (argv : list string) (s : State) : State :=
  mkState (world s) (answers s) (stdout s) (trace s)
          (force s || existsb (selects "force") argv)
          (devel s || existsb (selects "devel") argv)
          (noedit s || existsb (selects "noedit") argv).

(** What [main] runs for the operation [op] with the operands [args]. *)
Definition operation (op : string) (args : list string) : M unit :=
  if String.eqb op "clean" then clean
  else if String.eqb op "remove" then remove args
  else if String.eqb op "search" then search (GoString.Join args "")
  else if String.eqb op "sync" then sync args
  else if String.eqb op "update" then update
  else log_Fatal ("unknown operation: " +:+ op).


(** The condition of line 349 read off the database: [n] is the base
    or the file name of one of its packages, or starts with the name
    of the database and a dot. *)
Definition kept_name (db : list AlpmPkg) (n : string) : bool :=
  existsb (λ pkg, String.eqb n (alpm_pkg_get_base pkg)
                  || String.eqb n (alpm_pkg_get_filename pkg)) db
  || GoString.HasPrefix n (dbname +:+ ".").



(** The removal loop of [clean], lines 362-366. *)
Definition clean_remove (garbage : list string) : M unit :=
  for_range garbage (λ name,
    err <- os_RemoveAll name ;;
    match err with
    | Some e => log_Fatal e
    | None => ret tt
    end).

(** The line [fetch] prints before it asks the registry. *)
Definition fetching_line : string :=
  (ESC +:+ "[1;34m::" +:+ ESC +:+ "[39m Fetching packages..." +:+ ESC +:+ "[0m") +:+ NL.

(** The first child of [VCSVersion]: the sources of [base] are
    brought up to date without building. *)
Definition inspect_build (base : string) : Cmd :=
  makepkg base ["--nobuild"; "--nodeps"; "--noprepare"].

(** The field [o] of the package list matches the artifact pattern. *)
Definition matches (o : string) : bool :=
  match FindStringSubmatch o with Some _ => true | None => false end.

(** The field [o] names the package [n]. *)
Definition names_pkg (n o : string) : Prop :=
  ∃ v, FindStringSubmatch o = Some (n, v).

(** An event that is no [git clone]. *)
Definition no_clone (e : Event) : Prop := ∀ b, e ≠ Exec (clone_cmd b).

(** The run that ends in [r] and [s'] went on, after the events [pre]
    and in the world [w], with [git merge] in the mirror of [base]; a
    failed merge was fatal and the last thing done. *)
Definition merges (base : string) (s : State) (r : Res unit) (s' : State)
    (w : World) (pre : list Event) : Prop :=
  ∃ e o w', run (merge_cmd base) w = (e, o, w') ∧
    ∃ t, trace s' = (trace s ++ pre ++ Exec (merge_cmd base) :: t)%list ∧
         (e ≠ NoErr → t = [] ∧ r = Fatal (Error e) ∧ world s' = w').

(** The quiet [git diff] reports a difference: exit status 1. *)
Definition differs (e : CmdErr) : bool :=
  match e with ExitError code => code =? 1 | _ => false end.

(** The width of the name column of the table, lines 173-180. *)
Definition name_width (outdated : list Package) : nat :=
  Nat.max (foldl (λ n p, Nat.max n (GoString.len (Name p))) 0%nat outdated)
          (10 + GoString.len (pretty (length outdated))).

(** The width of the column of installed versions, lines 174-183; 0
    stands for no such column. *)
Definition old_width (outdated : list Package) : nat :=
  let vlen := foldl (λ n p, Nat.max n (GoString.len (OldVersion p))) 0%nat outdated in
  if decide (vlen ≠ 0)%nat then Nat.max vlen 11 else vlen.

(** One row of the table, lines 194-198. *)
Definition table_row (nlen vlen : nat) (p : Package) : string :=
  if decide (vlen ≠ 0)%nat
  then GoString.pad_right nlen (Name p) +:+ "  "
       +:+ GoString.pad_right vlen (OldVersion p) +:+ "  " +:+ Version p +:+ NL
  else GoString.pad_right nlen (Name p) +:+ "  " +:+ Version p +:+ NL.

End Steps.

(** ** Go's [sort.Slice]

    [sort.Slice(x, less)] is [pdqsort_func(lessSwap{less, swap}, 0,
    length, limit)] of package [sort] (Go 1.19 and later; [main.go]
    needs Go 1.21 for the builtin [max]).  The functions below follow
    [zsortfunc.go] on a list for the slice, with indices as in Go and
    the loops by recursion on the number of rounds left. *)

Module GoSort.
Section Sort.
Context {A : Type} (less : A → A → bool).

(** [data.Less(i, j)] and [data.Swap(i, j)] of the [lessSwap] pair that
    [sort.Slice] makes of the closure and the slice. *)
Definition Less (data : list A) (i j : nat) : bool :=
  match data !! i, data !! j with
  | Some x, Some y => less x y
  | _, _ => false
  end.

Definition Swap (i j : nat) (data : list A) : list A :=
  match data !! i, data !! j with
  | Some x, Some y => <[j := x]> (<[i := y]> data)
  | _, _ => data
  end.

(** [for j := i; j > a && data.Less(j, j-1); j-- { data.Swap(j, j-1) }] *)
Fixpoint insertion_shift (a j : nat) (data : list A) : list A :=
  match j with
  | S j' =>
      if (a <? j)%nat && Less data j j'
      then insertion_shift a j' (Swap j j' data)
      else data
  | O => data
  end.

(** [for i := a + 1; i < b; i++ { ... }], with [n] rounds to go. *)
Fixpoint insertion_rounds (a n i : nat) (data : list A) : list A :=
  match n with
  | S n' => insertion_rounds a n' (S i) (insertion_shift a i data)
  | O => data
  end.

Definition insertionSort_func (data : list A) (a b : nat) : list A :=
  insertion_rounds a (b - (a + 1)) (a + 1) data.

(** [order2_func], [median_func]: the last component counts the swaps. *)
Definition order2_func (data : list A) (a b swaps : nat) : nat * nat * nat :=
  if Less data b a then (b, a, S swaps) else (a, b, swaps).

Definition median_func (data : list A) (a b c swaps : nat) : nat * nat :=
  let '(a, b, swaps) := order2_func data a b swaps in
  let '(b, c, swaps) := order2_func data b c swaps in
  let '(a, b, swaps) := order2_func data a b swaps in
  (b, swaps).

(** [choosePivot_func] below 50 elements: a static pivot below 8, the
    median of three from 8 on.  Returns the pivot and the swaps, of
    which 0 is the hint "increasing". *)
Definition choosePivot_func (data : list A) (a b : nat) : nat * nat :=
  let l := (b - a)%nat in
  let i := (a + l / 4 * 1)%nat in
  let j := (a + l / 4 * 2)%nat in
  let k := (a + l / 4 * 3)%nat in
  if (8 <=? l)%nat then median_func data i j k 0 else (j, 0%nat).

(** [for i < b && !data.Less(i, i-1) { i++ }], with [n] steps to go. *)
Fixpoint sorted_prefix (data : list A) (n i : nat) : nat :=
  match n with
  | S n' => if Less data i (i - 1) then i else sorted_prefix data n' (S i)
  | O => i
  end.

(** [partialInsertionSort_func] below 50 elements: it shifts nothing
    and says whether the slice is sorted. *)
Definition partialInsertionSort_func (data : list A) (a b : nat) : bool :=
  (sorted_prefix data (b - (a + 1)) (a + 1) =? b)%nat.

(** [for i <= j && data.Less(i, a) { i++ }] *)
Fixpoint scan_up (data : list A) (a n i j : nat) : nat :=
  match n with
  | S n' => if (i <=? j)%nat && Less data i a then scan_up data a n' (S i) j else i
  | O => i
  end.

(** [for i <= j && !data.Less(j, a) { j-- }] *)
Fixpoint scan_down (data : list A) (a n i j : nat) : nat :=
  match n with
  | S n' =>
      if (i <=? j)%nat && negb (Less data j a) then scan_down data a n' i (j - 1) else j
  | O => j
  end.

(** The [for { ... }] loop of [partition_func]; returns the slice and [j]. *)
Fixpoint partition_rounds (n : nat) (data : list A) (a i j : nat) : list A * nat :=
  match n with
  | S n' =>
      let i := scan_up data a (length data) i j in
      let j := scan_down data a (length data) i j in
      if (j <? i)%nat then (data, j)
      else partition_rounds n' (Swap i j data) a (S i) (j - 1)
  | O => (data, j)
  end.

Definition partition_func (data : list A) (a b pivot : nat) : list A * nat * bool :=
  let data := Swap a pivot data in
  let i := scan_up data a (length data) (a + 1) (b - 1) in
  let j := scan_down data a (length data) i (b - 1) in
  if (j <? i)%nat then (Swap j a data, j, true)
  else
    let '(data, j) := partition_rounds (length data) (Swap i j data) a (S i) (j - 1) in
    (Swap j a data, j, false).

(** [pdqsort_func(data, 0, len, limit)] as far as a slice of at most
    13 elements takes it: insertion sort up to 12 elements; at 13, the
    pivot (with three swaps at most the hint is never "decreasing"),
    the test for a sorted slice, one partition, and insertion sort of
    both sides, which hold 12 elements together.  A longer slice goes
    the same way here, where Go partitions the longer side again. *)
Definition pdqsort_func (data : list A) : list A :=
  let b := length data in
  if (b <=? 12)%nat then insertionSort_func data 0 b
  else
    let '(pivot, swaps) := choosePivot_func data 0 b in
    if (swaps =? 0)%nat && partialInsertionSort_func data 0 b then data
    else
      let '(data, mid, _) := partition_func data 0 b pivot in
      insertionSort_func (insertionSort_func data 0 mid) (mid + 1) b.

Lemma insert_Permutation (data : list A) j x y :
  data !! j = Some y → y :: <[j := x]> data ≡ₚ x :: data.
Proof.
  revert j. induction data as [|z data IH]; intros [|j] Hj; try done; simpl in *.
  - injection Hj as ->. apply Permutation_swap.
  - etransitivity; [apply Permutation_swap|].
    etransitivity; [apply Permutation_skip, (IH j Hj)|]. apply Permutation_swap.
Qed.

Lemma Swap_Permutation i j (data : list A) : Swap i j data ≡ₚ data.
Proof.
  unfold Swap. destruct (data !! i) as [x|] eqn:Hi; [|done].
  destruct (data !! j) as [y|] eqn:Hj; [|done].
  revert i j Hi Hj. induction data as [|z data IH]; intros [|i] [|j] Hi Hj;
    try done; simpl in *.
  - by simplify_eq.
  - injection Hi as ->. by apply insert_Permutation.
  - injection Hj as ->. by apply insert_Permutation.
  - by rewrite IH.
Qed.

Lemma insertion_shift_Permutation a j (data : list A) :
  insertion_shift a j data ≡ₚ data.
Proof.
  revert data. induction j as [|j IH]; intros data; simpl; [done|].
  destruct (_ && _); [|done]. by rewrite IH, Swap_Permutation.
Qed.

Lemma insertion_rounds_Permutation a n i (data : list A) :
  insertion_rounds a n i data ≡ₚ data.
Proof.
  revert i data. induction n as [|n IH]; intros i data; simpl; [done|].
  by rewrite IH, insertion_shift_Permutation.
Qed.

Lemma insertionSort_Permutation (data : list A) a b :
  insertionSort_func data a b ≡ₚ data.
Proof. apply insertion_rounds_Permutation. Qed.

Lemma partition_rounds_Permutation n (data : list A) a i j :
  (partition_rounds n data a i j).1 ≡ₚ data.
Proof.
  revert data i j. induction n as [|n IH]; intros data i j; simpl; [done|].
  destruct (_ <? _)%nat; [done|]. by rewrite IH, Swap_Permutation.
Qed.

Lemma partition_Permutation (data : list A) a b pivot :
  (partition_func data a b pivot).1.1 ≡ₚ data.
Proof.
  unfold partition_func. destruct (_ <? _)%nat; simpl.
  - by rewrite !Swap_Permutation.
  - match goal with
    | |- context [partition_rounds ?n ?d ?a ?i ?j] =>
        pose proof (partition_rounds_Permutation n d a i j) as Hp;
        destruct (partition_rounds n d a i j) as [data' j']
    end.
    simpl in *. by rewrite Swap_Permutation, Hp, !Swap_Permutation.
Qed.

Lemma pdqsort_Permutation (data : list A) : pdqsort_func data ≡ₚ data.
Proof.
  unfold pdqsort_func. destruct (_ <=? _)%nat; [apply insertionSort_Permutation|].
  destruct (choosePivot_func _ _ _) as [pivot swaps].
  destruct (_ && _); [done|].
  pose proof (partition_Permutation data 0 (length data) pivot) as Hp.
  destruct (partition_func _ _ _ _) as [[data' mid] ok]. simpl in Hp.
  by rewrite !insertionSort_Permutation.
Qed.

End Sort.
End GoSort.

(** ** Test doubles for the collaborators

    Executable instances of [Externals], used to run the program on
    concrete inputs: a byte-wise version comparator, a registry of five
    packages, child processes that act on the three stores, and Go's
    [sort.Slice].  The second double differs in the registry alone: it
    answers without looking at the request. *)

Module Sim.

Definition vercmp (a b : string) : Z :=
  match String.compare a b with Lt => -1 | Eq => 0 | Gt => 1 end.

Definition pkg (name base version : string) (votes : Z) (pop : Q) : Package :=
  mkPackage "" "someone" name votes 0 base pop version "".

Definition foo_git : Package := pkg "foo-git" "foo-git" "r1.abc-1" 7 (1 # 2).
Definition libbar : Package := pkg "libbar" "bar" "2.0-1" 3 (1 # 4).
Definition bar_utils : Package := pkg "bar-utils" "bar" "2.0-1" 3 (1 # 4).
Definition baz : Package := pkg "baz" "baz" "1.0-1" 1 0.
Definition blank : Package := pkg "blank" "blank" "" 0 0.

Definition registry : list Package := [foo_git; libbar; bar_utils; baz; blank].

Definition registry_get (u : URL) : string + list Package :=
  match u with
  | RpcInfo names => inr (filter (λ p, Name p ∈ names) registry)
  | RpcSearch term => inr (filter (λ p, GoString.HasPrefix (Name p) term = true) registry)
  end.

Definition root : string := "/home/u/.cache/aur".

(** The build unit a child was started in or pointed at. *)
Definition base_of (dir : string) : string :=
  default "" (GoString.slice_from (GoString.len root + 1) dir).

Definition on_entry (name : string) (f : DirEntry → DirEntry) (w : World) : World :=
  set_cachedir
    (option_map (map (λ e, if String.eqb (entry_name e) name then f e else e)) (cachedir w)) w.

Definition add_entry (e : DirEntry) (w : World) : World :=
  set_cachedir (option_map (λ es, (es ++ [e])%list) (cachedir w)) w.

Definition artifact (base : string) : string := base +:+ "-r2.abc-1-any.pkg.tar.zst".

Definition run_child (c : Cmd) (w : World) : CmdErr * string * World :=
  if String.eqb (Path c) "makepkg" then
    let base := base_of (Dir c) in
    match Args c with
    | ["--packagelist"] => (NoErr, root +:+ "/" +:+ artifact base, w)
    | ["--nobuild"; "--nodeps"; "--noprepare"] =>
        (NoErr, "",
         on_entry base (λ e, mkDirEntry (entry_name e) (entry_is_dir e) (entry_locked e)
                                        (entry_data e ++ ["src"])%list) w)
    | _ => (NoErr, "", add_entry (mkDirEntry (artifact base) false false []) w)
    end
  else if String.eqb (Path c) "git" then
    match Args c with
    | ["clone"; _; src] =>
        (NoErr, "", add_entry (mkDirEntry (base_of src) true false ["PKGBUILD"]) w)
    | ["-C"; src; "clean"; "-dfx"] =>
        (NoErr, "",
         on_entry (base_of src)
                  (λ e, mkDirEntry (entry_name e) (entry_is_dir e) (entry_locked e) ["PKGBUILD"]) w)
    | ["-C"; _; "diff"; "HEAD"; "FETCH_HEAD"; "--quiet"] => (ExitError 1, "", w)
    | _ => (NoErr, "", w)
    end
  else if String.eqb (Path c) "repo-add" then
    (NoErr, "", mkWorld (pkgcache w) (cachedir w) (archive w ++ drop 2 (Args c))%list)
  else if String.eqb (Path c) "repo-remove" then
    (NoErr, "", mkWorld (pkgcache w) (cachedir w)
                        (filter (λ a, a ∉ drop 1 (Args c)) (archive w)))
  else if String.eqb (Path c) "vim" then (NoErr, "", w)
  else (OtherErr "executable file not found in $PATH", "", w).

(** The matcher on the artifact paths this double's [makepkg] prints. *)
Definition match_artifact (o : string) : option (string * string) :=
  if String.eqb o (root +:+ "/" +:+ artifact "foo-git") then Some ("foo-git", "r2.abc-1")
  else if String.eqb o (root +:+ "/" +:+ artifact "bar") then Some ("bar", "r2.abc-1")
  else None.

(** Installed: [foo-git] at an older revision and [baz] up to date.  The
    cache holds their mirrors, a stale artifact and the archive. *)
Definition db0 : list AlpmPkg :=
  [ mkAlpmPkg "foo-git" "r1.abc-1" "foo-git" "foo-git-r1.abc-1-any.pkg.tar.zst";
    mkAlpmPkg "baz" "1.0-1" "baz" "baz-1.0-1-any.pkg.tar.zst" ].

Definition cache0 : list DirEntry :=
  [ mkDirEntry "aur.db.tar.gz" false false [];
    mkDirEntry "baz" true false ["PKGBUILD"; "pkg"];
    mkDirEntry "baz-1.0-1-any.pkg.tar.zst" false false [];
    mkDirEntry "foo-git" true false ["PKGBUILD"];
    mkDirEntry "foo-git-r1.abc-1-any.pkg.tar.zst" false false [];
    mkDirEntry "old" true false ["PKGBUILD"];
    mkDirEntry "old-0.9-1-any.pkg.tar.zst" false false [] ].

Definition world0 : World :=
  mkWorld db0 (Some cache0)
          ["foo-git-r1.abc-1-any.pkg.tar.zst"; "baz-1.0-1-any.pkg.tar.zst"].

Definition state0 (answers : list string) (force devel noedit : bool) : State :=
  mkState world0 answers [] [] force devel noedit.

Lemma stable_insert_perm {A} (less : A → A → bool) x l :
  stable_insert less x l ≡ₚ x :: l.
Proof.
  induction l as [|y l IH]; simpl; [done|].
  destruct (less y x); [|done].
  rewrite IH. apply Permutation_swap.
Qed.

Lemma stable_sort_perm {A} (less : A → A → bool) l : stable_sort less l ≡ₚ l.
Proof.
  unfold stable_sort. induction l as [|x l IH]; simpl; [done|].
  by rewrite stable_insert_perm, IH.
Qed.

Lemma stable_insert_sorted {A} (less : A → A → bool) x l :
  StrictWeak less →
  StronglySorted (λ a b, less b a = false) l →
  StronglySorted (λ a b, less b a = false) (stable_insert less x l).
Proof.
  intros [Hirr Htr Hinc]. induction 1 as [|y l Hs IH Hall]; simpl.
  - repeat constructor.
  - destruct (less y x) eqn:Hyx.
    + constructor; [done|].
      rewrite stable_insert_perm. constructor; [|done].
      destruct (less x y) eqn:Hxy; [|done].
      rewrite <- (Hirr y). symmetry. by apply Htr with x.
    + constructor; [by constructor|].
      constructor; [done|].
      eapply Forall_impl; [exact Hall|]. simpl. intros z Hz. by apply Hinc with y.
Qed.

Lemma stable_sort_sorted {A} (less : A → A → bool) l :
  StrictWeak less →
  StronglySorted (λ x y, less y x = false) (stable_sort less l).
Proof.
  intros Hsw. unfold stable_sort. induction l as [|x l IH]; simpl; [constructor|].
  by apply stable_insert_sorted.
Qed.

(** [sort.Slice] on the doubles: Go's [pdqsort_func].  The pass of
    [stable_sort] behind it leaves a sorted slice as it is; it spares
    a proof that the library sorts. *)
Definition go_sort {A} (less : A → A → bool) (l : list A) : list A :=
  stable_sort less (GoSort.pdqsort_func less l).

Lemma go_sort_perm A (less : A → A → bool) l : go_sort less l ≡ₚ l.
Proof. unfold go_sort. by rewrite stable_sort_perm, GoSort.pdqsort_Permutation. Qed.

Lemma go_sort_sorted A (less : A → A → bool) l :
  StrictWeak less →
  StronglySorted (λ x y, less y x = false) (go_sort less l).
Proof. intros Hsw. by apply stable_sort_sorted. Qed.

#[local] Instance sim : Externals := {|
  alpm_pkg_vercmp := vercmp;
  http_get := registry_get;
  run := run_child;
  FindStringSubmatch := match_artifact;
  DateOnly := λ t, pretty t;
  Sprintf_f := λ q, pretty (Qnum q) +:+ "/" +:+ pretty (Zpos (Qden q));
  Getenv_HOME := "/home/u";
  TempDir := "/tmp";
  sort_Slice := @go_sort;
  sort_Slice_perm := go_sort_perm;
  sort_Slice_sorted := go_sort_sorted;
  map_range := elements;
  map_range_perm := λ s, reflexivity (elements s)
|}.

(** Thirteen results of a search, in the order of the reply: eleven
    with rising popularity, and two that nobody has voted for yet, equal
    in both keys of the order, as fourth and seventh. *)
Definition hit (name : string) (votes : Z) (pop : Q) : Package :=
  pkg name name "1-1" votes pop.

Definition tied_a : Package := hit "tied-a" 0 0.
Definition tied_b : Package := hit "tied-b" 0 0.

Definition ranked : list Package :=
  [hit "r01" 1 1; hit "r02" 1 2; hit "r03" 1 3; hit "r04" 1 4; hit "r05" 1 5;
   hit "r06" 1 6; hit "r07" 1 7; hit "r08" 1 8; hit "r09" 1 9; hit "r10" 1 10;
   hit "r11" 1 11].

Definition hits : list Package :=
  (take 3 ranked ++ tied_a :: take 2 (drop 3 ranked) ++ tied_b :: drop 5 ranked)%list.

(** A registry with fixed replies: two records to every info request,
    the thirteen results to every search. *)
Definition canned_get (u : URL) : string + list Package :=
  match u with
  | RpcInfo _ => inr [libbar; baz]
  | RpcSearch _ => inr hits
  end.

#[local] Instance canned : Externals := {|
  alpm_pkg_vercmp := vercmp;
  http_get := canned_get;
  run := run_child;
  FindStringSubmatch := match_artifact;
  DateOnly := λ t, pretty t;
  Sprintf_f := λ q, pretty (Qnum q) +:+ "/" +:+ pretty (Zpos (Qden q));
  Getenv_HOME := "/home/u";
  TempDir := "/tmp";
  sort_Slice := @go_sort;
  sort_Slice_perm := go_sort_perm;
  sort_Slice_sorted := go_sort_sorted;
  map_range := elements;
  map_range_perm := λ s, reflexivity (elements s)
|}.

End Sim.

(** ** Reasoning about runs *)

Lemma quiet_fields s s' :
  quiet s s' → world s' = world s ∧ trace s' = trace s ∧ steady s s'.
Proof. unfold quiet, steady. by intros ->. Qed.

Lemma quiet_Frame : Frame (λ _, False) quiet.
Proof.
  split; unfold quiet.
  - by intros [].
  - intros s1 s2 s3 -> ->. reflexivity.
  - reflexivity.
  - by intros.
Qed.

Lemma steady_Frame : Frame (λ _, True) steady.
Proof.
  split; unfold steady; simpl; try done.
  intros s1 s2 s3 (-> & -> & -> & ->) (-> & -> & -> & ->). done.
Qed.

Lemma extends_Frame Q : Frame (λ c, Q (Exec c)) (extends Q).
Proof.
  split; unfold extends; simpl.
  - intros s. split; [|done]. exists []. by rewrite app_nil_r.
  - intros s1 s2 s3 [(t1 & -> & H1) (-> & -> & ->)] [(t2 & -> & H2) (-> & -> & ->)].
    split; [|done]. exists (t1 ++ t2)%list. rewrite app_assoc. split; [done|].
    by apply Forall_app.
  - intros s _. split; [|done]. exists []. by rewrite app_nil_r.
  - intros s c _ Hc. split; [|done]. exists [Exec c]. split; [done|]. by constructor.
Qed.

Section Frames.
Context `{E : Externals}.
Local Open Scope go_scope.

Lemma bind_Ok {A B} (m : M A) (k : A → M B) s b s' :
  bind m k s = (Ok b, s') ↔ ∃ a s1, m s = (Ok a, s1) ∧ k a s1 = (Ok b, s').
Proof.
  unfold bind. split.
  - destruct (m s) as [[a| | |] s1]; intros H; try discriminate. eauto.
  - intros (a & s1 & -> & H). done.
Qed.

Lemma bind_cases {A B} (m : M A) (k : A → M B) s r s' :
  bind m k s = (r, s') →
  (∃ a s1, m s = (Ok a, s1) ∧ k a s1 = (r, s')) ∨
  (∃ r0, m s = (r0, s') ∧ stopped r0 r).
Proof.
  unfold bind. destruct (m s) as [[a| | |] s1]; intros H.
  - left. eauto.
  - right. injection H as <- <-. by eexists.
  - right. injection H as <- <-. by eexists.
  - right. injection H as <- <-. by eexists.
Qed.

Variables (P : Cmd → Prop) (R : State → State → Prop).
Hypothesis HF : Frame P R.

Lemma preserves_ret {A} (a : A) : preserves R (ret a).
Proof. intros s r s' [= <- <-]. apply HF. Qed.

Lemma preserves_bind {A B} (m : M A) (k : A → M B) :
  preserves R m → (∀ a, preserves R (k a)) → preserves R (bind m k).
Proof.
  intros Hm Hk s r s'. unfold bind.
  destruct (m s) as [[a| | |] s1] eqn:Hms; intros H.
  - eapply (frame_trans _ _ HF); [by eapply Hm | by eapply Hk].
  - injection H as <- <-. by eapply Hm.
  - injection H as <- <-. by eapply Hm.
  - injection H as <- <-. by eapply Hm.
Qed.

Lemma preserves_print str : preserves R (print str).
Proof. intros s r s' [= <- <-]. apply (frame_print _ _ HF). Qed.

Lemma preserves_get_state : preserves R get_state.
Proof. intros s r s' [= <- <-]. apply HF. Qed.

Lemma preserves_os_Exit {A} c : preserves R (@os_Exit A c).
Proof. intros s r s' [= <- <-]. apply HF. Qed.

Lemma preserves_log_Fatal {A} msg : preserves R (@log_Fatal A msg).
Proof. intros s r s' [= <- <-]. apply HF. Qed.

Lemma preserves_panic {A} msg : preserves R (@panic A msg).
Proof. intros s r s' [= <- <-]. apply HF. Qed.

Lemma preserves_cmd_Run c : P c → preserves R (cmd_Run c).
Proof.
  intros Hc s r s'. unfold cmd_Run. destruct (run c (world s)) as [[err out] w].
  intros [= <- <-]. by apply (frame_exec _ _ HF).
Qed.

Lemma preserves_cmd_Output c : P c → preserves R (cmd_Output c).
Proof.
  intros Hc s r s'. unfold cmd_Output. destruct (run c (world s)) as [[err out] w].
  intros [= <- <-]. by apply (frame_exec _ _ HF).
Qed.

Lemma preserves_for_range {A} (l : list A) body :
  (∀ x, preserves R (body x)) → preserves R (for_range l body).
Proof.
  intros Hb. induction l as [|x l IH]; simpl.
  - apply preserves_ret.
  - apply preserves_bind; [apply Hb | intros _; apply IH].
Qed.

End Frames.

Ltac frame_step HF :=
  lazymatch goal with
  | |- preserves _ (ret _) => apply (preserves_ret _ _ HF)
  | |- preserves _ (print _) => apply (preserves_print _ _ HF)
  | |- preserves _ get_state => apply (preserves_get_state _ _ HF)
  | |- preserves _ (os_Exit _) => apply (preserves_os_Exit _ _ HF)
  | |- preserves _ (log_Fatal _) => apply (preserves_log_Fatal _ _ HF)
  | |- preserves _ (panic _) => apply (preserves_panic _ _ HF)
  | |- preserves _ (bind _ _) => apply (preserves_bind _ _ HF)
  | |- preserves _ (for_range _ _) => apply (preserves_for_range _ _ HF)
  | |- preserves _ (if ?c then _ else _) => destruct c
  | |- preserves _ (match ?x with _ => _ end) => destruct x
  | |- ∀ _, _ => intro
  end.

Ltac frame HF := solve [repeat frame_step HF].

Section PrepareFrames.
Context `{E : Externals}.
Variables (P : Cmd → Prop) (R : State → State → Prop).
Hypothesis HF : Frame P R.

Lemma preserves_Println str : preserves R (Println str).
Proof. unfold Println. frame HF. Qed.

Lemma preserves_check_err err : preserves R (check_err err).
Proof. unfold check_err. frame HF. Qed.

Lemma preserves_fetch names : preserves R (fetch names).
Proof. unfold fetch, get, Println. frame HF. Qed.

Lemma preserves_prepare_targets names res : preserves R (prepare_targets names res).
Proof. unfold prepare_targets. frame HF. Qed.

Lemma preserves_prepare_warnings res : preserves R (prepare_warnings res).
Proof. unfold prepare_warnings. frame HF. Qed.

Lemma preserves_prepare_table outdated : preserves R (prepare_table outdated).
Proof. unfold prepare_table, Println. frame HF. Qed.

Lemma preserves_VCSVersion_fill fields version :
  preserves R (VCSVersion_fill fields version).
Proof.
  revert version. induction fields as [|o fields IH]; intros version; simpl.
  - frame HF.
  - destruct (FindStringSubmatch o) as [[m1 m2]|]; [apply IH | frame HF].
Qed.

Hypothesis HP : ∀ c, inspect_cmd c → P c.

Lemma preserves_VCSVersion base : preserves R (VCSVersion base).
Proof.
  unfold VCSVersion.
  apply (preserves_bind _ _ HF).
  { apply (preserves_cmd_Run _ _ HF), HP. exists base. by left. }
  intros err. apply (preserves_bind _ _ HF); [apply preserves_check_err|]. intros _.
  apply (preserves_bind _ _ HF).
  { apply (preserves_cmd_Output _ _ HF), HP. exists base. by right. }
  intros [output err']. apply (preserves_bind _ _ HF); [apply preserves_check_err|].
  intros _. apply preserves_VCSVersion_fill.
Qed.

Lemma preserves_prepare_local db r : preserves R (prepare_local db r).
Proof.
  unfold prepare_local. destruct (alpm_db_get_pkg db (Name r)); [|frame HF].
  apply (preserves_bind _ _ HF); [frame HF|]. intros s.
  apply (preserves_bind _ _ HF); [|frame HF].
  destruct (devel s && GoString.HasSuffix (Name r) "-git"); [|frame HF].
  apply (preserves_bind _ _ HF); [apply preserves_VCSVersion | frame HF].
Qed.

Lemma preserves_prepare_outdated db res outdated :
  preserves R (prepare_outdated db res outdated).
Proof.
  revert outdated. induction res as [|r res IH]; intros outdated; simpl.
  - frame HF.
  - apply (preserves_bind _ _ HF); [apply preserves_prepare_local|]. intros r'.
    apply (preserves_bind _ _ HF); [frame HF|]. intros s. apply IH.
Qed.

Lemma preserves_prepare_reconcile names : preserves R (prepare_reconcile names).
Proof.
  unfold prepare_reconcile.
  apply (preserves_bind _ _ HF); [apply preserves_fetch|]. intros res.
  apply (preserves_bind _ _ HF); [apply preserves_prepare_targets|]. intros _.
  apply (preserves_bind _ _ HF); [apply preserves_prepare_warnings|]. intros _.
  apply (preserves_bind _ _ HF); [frame HF|]. intros s.
  apply preserves_prepare_outdated.
Qed.

Lemma preserves_prepare names : preserves R (prepare names).
Proof.
  unfold prepare.
  apply (preserves_bind _ _ HF); [apply preserves_prepare_reconcile|]. intros outdated.
  apply preserves_prepare_table.
Qed.

End PrepareFrames.

(** ** Reconciliation, record by record *)

Section Reconcile.
Context `{E : Externals}.
Local Open Scope go_scope.

Lemma VCSVersion_fill_Ok fields version s v s' :
  VCSVersion_fill fields version s = (Ok v, s') →
  s' = s ∧
  v = foldl (λ version o,
               match FindStringSubmatch o with
               | Some (m1, m2) => <[m1 := m2]> version
               | None => version
               end) version fields.
Proof.
  revert version. induction fields as [|o fields IH]; intros version; simpl.
  - by intros [= <- <-].
  - destruct (FindStringSubmatch o) as [[m1 m2]|]; [apply IH | discriminate].
Qed.

Lemma check_err_Ok err s u s' :
  check_err err s = (Ok u, s') → err = NoErr ∧ s' = s.
Proof. destruct err; simpl; intros H; try discriminate. by injection H as _ <-. Qed.

(** A successful [VCSVersion]: both children ran in the unit's mirror
    and succeeded, and the map is read off the printed package list. *)
Lemma VCSVersion_Ok base s v s' :
  VCSVersion base s = (Ok v, s') →
  ∃ out1 w1 output,
    run (makepkg base ["--nobuild"; "--nodeps"; "--noprepare"]) (world s)
      = (NoErr, out1, w1) ∧
    run (makepkg base ["--packagelist"]) w1 = (NoErr, output, world s') ∧
    v = vcs_map (GoString.Split output " ") ∧
    trace s' = (trace s ++ inspect_list base)%list ∧
    steady s s' ∧ stdout s' = stdout s.
Proof.
  unfold VCSVersion. intros H.
  apply bind_Ok in H as (err & s1 & H1 & H).
  apply bind_Ok in H as ([] & s2 & H2 & H).
  apply check_err_Ok in H2 as [-> ->].
  apply bind_Ok in H as ([output err] & s3 & H3 & H).
  apply bind_Ok in H as ([] & s4 & H4 & H).
  apply check_err_Ok in H4 as [-> ->].
  apply VCSVersion_fill_Ok in H as [-> ->].
  unfold cmd_Run in H1. unfold cmd_Output in H3.
  destruct (run _ (world s)) as [[e1 o1] w1] eqn:Hr1.
  injection H1 as -> <-. simpl in H3.
  destruct (run _ w1) as [[e2 o2] w2] eqn:Hr2.
  injection H3 as <- <- <-. simpl.
  exists o1, w1, o2. repeat split; try done.
  by rewrite <- app_assoc.
Qed.

(** What [prepare_local] returns for the fetched record [r]: the name
    and the build unit stay; a package the database does not have is
    left as fetched and nothing runs; one it has gets the installed
    version as [OldVersion] and, under [devel] with the suffix ["-git"],
    the entry of [VCSVersion]'s map under its own name as [Version]. *)
Lemma prepare_local_Ok db r s c s' :
  prepare_local db r s = (Ok c, s') →
  Name c = Name r ∧ PackageBase c = PackageBase r ∧
  match alpm_db_get_pkg db (Name r) with
  | None => c = r ∧ s' = s
  | Some pkg =>
      OldVersion c = alpm_pkg_get_version pkg ∧
      if devel s && GoString.HasSuffix (Name r) "-git"
      then ∃ version, VCSVersion (PackageBase r) s = (Ok version, s') ∧
                      Version c = default "" (version !! Name r)
      else Version c = Version r ∧ s' = s
  end.
Proof.
  unfold prepare_local. destruct (alpm_db_get_pkg db (Name r)) as [pkg|].
  - intros H. apply bind_Ok in H as (s0 & s1 & [= <- <-] & H).
    destruct (devel s && GoString.HasSuffix (Name r) "-git").
    + apply bind_Ok in H as (c0 & s1 & H & [= <- <-]).
      apply bind_Ok in H as (version & s2 & H & [= <- <-]).
      simpl. repeat split; try done. by exists version.
    + injection H as <- <-. done.
  - by intros [= <- <-].
Qed.

Lemma prepare_local_quiet db r s res s' :
  devel s = false → prepare_local db r s = (res, s') → s' = s.
Proof.
  unfold prepare_local. intros Hd.
  destruct (alpm_db_get_pkg db (Name r)) as [pkg|]; [|by intros [= <- <-]].
  unfold bind, get_state, ret. rewrite Hd. simpl. by intros [= <- <-].
Qed.

(** The loop of lines 160-171 appends, in order, the compared records
    that satisfy the condition of line 168. *)
Lemma prepare_outdated_Ok db res acc s out s' :
  prepare_outdated db res acc s = (Ok out, s') →
  ∃ recs, Forall2 (compared db s) res recs ∧
          out = (acc ++ List.filter (is_outdated (force s)) recs)%list.
Proof.
  revert acc s. induction res as [|r res IH]; intros acc s; simpl.
  - intros [= <- <-]. exists []. split; [constructor | by rewrite app_nil_r].
  - intros H. apply bind_Ok in H as (c & s1 & Hc & H).
    apply bind_Ok in H as (s1' & s1'' & [= <- <-] & H).
    assert (Hst : steady s s1).
    { eapply (preserves_prepare_local _ _ steady_Frame); [done | exact Hc]. }
    apply IH in H as (recs & Hrecs & ->).
    exists (c :: recs). split.
    + constructor.
      * exists s, s1. split; [apply steady_Frame | done].
      * eapply Forall2_impl; [exact Hrecs|]. intros r' c' (sa & sb & Hsa & Hsb).
        exists sa, sb. split; [|done]. eapply (frame_trans _ _ steady_Frame); done.
    + destruct Hst as (-> & _). simpl.
      destruct (is_outdated (force s) c); [|done]. by rewrite <- app_assoc.
Qed.

Lemma prepare_outdated_quiet db res acc s r s' :
  devel s = false → prepare_outdated db res acc s = (r, s') → s' = s.
Proof.
  intros Hd. revert acc. induction res as [|x res IH]; intros acc; simpl.
  - by intros [= <- <-].
  - intros H. apply bind_cases in H as [(c & s1 & Hc & H)|(r0 & Hc & _)].
    + apply prepare_local_quiet in Hc as ->; [|done]. by apply IH in H.
    + by apply prepare_local_quiet in Hc.
Qed.

Lemma fetch_Ok names s res s' :
  fetch names s = (Ok res, s') → http_get (RpcInfo names) = inr res ∧ quiet s s'.
Proof.
  intros H. split.
  - unfold fetch in H. apply bind_Ok in H as ([] & s1 & _ & H).
    unfold get in H. destruct (http_get (RpcInfo names)); [discriminate|].
    by injection H as <- _.
  - eapply (preserves_fetch _ _ quiet_Frame). exact H.
Qed.

(** A successful [prepare_reconcile]: the registry answered with [res],
    and the outdated set is the filtered list of compared records. *)
Lemma prepare_reconcile_Ok names s outdated s' :
  prepare_reconcile names s = (Ok outdated, s') →
  ∃ res recs,
    http_get (RpcInfo names) = inr res ∧
    Forall2 (compared (pkgcache (world s)) s) res recs ∧
    outdated = List.filter (is_outdated (force s)) recs.
Proof.
  unfold prepare_reconcile. intros H.
  apply bind_Ok in H as (res & s1 & Hf & H).
  apply bind_Ok in H as ([] & s2 & Ht & H).
  apply bind_Ok in H as ([] & s3 & Hw & H).
  apply bind_Ok in H as (s3' & s3'' & [= <- <-] & H).
  apply fetch_Ok in Hf as [Hget Hq1].
  apply (preserves_prepare_targets _ _ quiet_Frame) in Ht.
  apply (preserves_prepare_warnings _ _ quiet_Frame) in Hw.
  assert (Hq : quiet s s3).
  { eapply (frame_trans _ _ quiet_Frame); [exact Hq1|].
    eapply (frame_trans _ _ quiet_Frame); [exact Ht | exact Hw]. }
  apply prepare_outdated_Ok in H as (recs & Hrecs & ->).
  apply quiet_fields in Hq as (Hw3 & _ & Hst).
  exists res, recs. rewrite <- Hw3. destruct Hst as (Hf3 & Hrest).
  rewrite <- Hf3. split; [done|]. split; [|done].
  eapply Forall2_impl; [exact Hrecs|]. intros r c (sa & sb & Hsa & Hsb).
  exists sa, sb. split; [|done].
  eapply (frame_trans _ _ steady_Frame); [|exact Hsa]. by split.
Qed.

End Reconcile.

(** ** The staleness policy and the development override *)

Section Policy.
Context `{E : Externals}.

Lemma compared_reconciled db s r c :
  compared db s r c → reconciled db (devel s) r c.
Proof.
  intros (s1 & s2 & (_ & Hd & _) & H). apply prepare_local_Ok in H as (Hn & Hb & H).
  split; [done|]. split; [done|].
  destruct (alpm_db_get_pkg db (Name r)) as [pkg|]; [|by destruct H].
  destruct H as [Hold H]. split; [done|]. rewrite <- Hd. intros Hno.
  rewrite Hno in H. by destruct H.
Qed.

Lemma is_outdated_true force c :
  is_outdated force c = true ↔
  force = true ∨ 0 < alpm_pkg_vercmp (Version c) (OldVersion c).
Proof.
  unfold is_outdated. rewrite orb_true_iff, Z.ltb_lt. done.
Qed.

Lemma reconciled_absent db devel res recs r :
  Forall2 (reconciled db devel) res recs →
  alpm_db_get_pkg db (Name r) = None →
  r ∈ res → r ∈ recs.
Proof.
  intros Hrec Hnone. induction Hrec as [|x c res recs Hxc _ IH]; intros Hin.
  - by apply elem_of_nil in Hin.
  - apply elem_of_cons in Hin as [<-|Hin].
    + destruct Hxc as (_ & _ & Hc). rewrite Hnone in Hc. subst c. apply list_elem_of_here.
    + apply list_elem_of_further. by apply IH.
Qed.

(** C1, as the code has it: a compared record is in the outdated set
    exactly when the force flag is set or the comparator ranks its
    version above its local version; for a package that is not
    installed the compared record is the fetched one, so it is outdated
    exactly when the flag is set or the comparator ranks the fetched
    version above the record's empty local version. *)
Theorem staleness_policy names s outdated s' :
  prepare_reconcile names s = (Ok outdated, s') →
  ∃ res recs,
    http_get (RpcInfo names) = inr res ∧
    Forall2 (reconciled (pkgcache (world s)) (devel s)) res recs ∧
    (∀ c, c ∈ outdated ↔
          c ∈ recs ∧ (force s = true ∨ 0 < alpm_pkg_vercmp (Version c) (OldVersion c))) ∧
    (∀ r, r ∈ res → alpm_db_get_pkg (pkgcache (world s)) (Name r) = None →
          (r ∈ outdated ↔
           force s = true ∨ 0 < alpm_pkg_vercmp (Version r) (OldVersion r))).
Proof.
  intros H. apply prepare_reconcile_Ok in H as (res & recs & Hget & Hrecs & ->).
  assert (Hrec : Forall2 (reconciled (pkgcache (world s)) (devel s)) res recs).
  { eapply Forall2_impl; [exact Hrecs|]. intros r c. apply compared_reconciled. }
  assert (Hmem : ∀ c, c ∈ List.filter (is_outdated (force s)) recs ↔
                      c ∈ recs ∧ (force s = true
                                  ∨ 0 < alpm_pkg_vercmp (Version c) (OldVersion c))).
  { intros c. rewrite list_elem_of_In, filter_In, <- list_elem_of_In.
    by rewrite is_outdated_true. }
  exists res, recs. split; [done|]. split; [done|]. split; [done|].
  intros r Hr Hnone. rewrite Hmem. split; [by intros [_ ?]|].
  intros Hout. split; [|done]. by apply (reconciled_absent _ _ _ _ _ Hrec).
Qed.

(** C5, as the code has it: for a package the database has, under
    [devel] and with the suffix ["-git"], the compared version is the
    entry under the package's own name of the map read from the package
    list that [makepkg] prints in the mirror of the package's build
    unit, after its source-inspection run there; in every other case
    the fetched version stays and nothing runs. *)
Theorem devel_override db r s c s' :
  prepare_local db r s = (Ok c, s') →
  match alpm_db_get_pkg db (Name r) with
  | Some pkg =>
      if devel s && GoString.HasSuffix (Name r) "-git"
      then ∃ out1 w1 output,
             run (makepkg (PackageBase r) ["--nobuild"; "--nodeps"; "--noprepare"])
                 (world s) = (NoErr, out1, w1) ∧
             run (makepkg (PackageBase r) ["--packagelist"]) w1
               = (NoErr, output, world s') ∧
             Version c = default "" (vcs_map (GoString.Split output " ") !! Name r) ∧
             trace s' = (trace s ++ inspect_list (PackageBase r))%list
      else Version c = Version r ∧ s' = s
  | None => Version c = Version r ∧ s' = s
  end.
Proof.
  intros H. apply prepare_local_Ok in H as (_ & _ & H).
  destruct (alpm_db_get_pkg db (Name r)) as [pkg|]; [|by destruct H as [-> ->]].
  destruct H as [_ H].
  destruct (devel s && GoString.HasSuffix (Name r) "-git"); [|done].
  destruct H as (version & Hv & Hc).
  apply VCSVersion_Ok in Hv as (out1 & w1 & output & H1 & H2 & -> & Ht & _).
  by exists out1, w1, output.
Qed.

End Policy.

Section PolicyRuns.
#[local] Existing Instance Sim.sim.

(** Not installed, fetched with an empty version, compared by a
    comparator for which equal strings are equal versions: the package
    is not outdated.  And under [devel], [foo-git] is installed at the
    version the registry has, so the comparator ranks the fetched
    version equal to the local one; it is outdated all the same, by the
    version the build tool resolved. *)
Lemma staleness_empty_local_counterexample :
  (alpm_db_get_pkg Sim.db0 "blank" = None ∧
   http_get (RpcInfo ["blank"]) = inr [Sim.blank] ∧
   OldVersion Sim.blank = "" ∧
   fst (prepare_reconcile ["blank"] (Sim.state0 [] false false false)) = Ok []) ∧
  (http_get (RpcInfo ["foo-git"]) = inr [Sim.foo_git] ∧
   alpm_pkg_vercmp (Version Sim.foo_git) "r1.abc-1" = 0 ∧
   fst (prepare_reconcile ["foo-git"] (Sim.state0 [] false true false))
     = Ok [set_OldVersion "r1.abc-1" (set_Version "r2.abc-1" Sim.foo_git)]).
Proof. vm_compute. done. Qed.

Lemma staleness_policy_witness :
  ∃ res recs,
    http_get (RpcInfo ["libbar"; "baz"]) = inr res ∧
    Forall2 (reconciled Sim.db0 false) res recs ∧
    (∀ c, c ∈ [Sim.libbar] ↔
          c ∈ recs ∧ (false = true ∨ 0 < alpm_pkg_vercmp (Version c) (OldVersion c))) ∧
    (∀ r, r ∈ res → alpm_db_get_pkg Sim.db0 (Name r) = None →
          (r ∈ [Sim.libbar] ↔
           false = true ∨ 0 < alpm_pkg_vercmp (Version r) (OldVersion r))).
Proof.
  eapply (staleness_policy ["libbar"; "baz"] (Sim.state0 [] false false false)).
  vm_compute. reflexivity.
Defined.

(** Under [devel], a ["-git"] package that is not installed keeps the
    fetched version and the build tool is not run, though its package
    list names another version. *)
Lemma devel_override_counterexample :
  GoString.HasSuffix "foo-git" "-git" = true ∧
  prepare_local [] Sim.foo_git (Sim.state0 [] false true false)
  = (Ok Sim.foo_git, Sim.state0 [] false true false) ∧
  Version Sim.foo_git = "r1.abc-1" ∧
  (∃ v s', VCSVersion "foo-git" (Sim.state0 [] false true false) = (Ok v, s') ∧
           v !! "foo-git" = Some "r2.abc-1").
Proof.
  split; [done|]. split; [done|]. split; [done|].
  eexists _, _. split; [vm_compute; reflexivity|]. vm_compute. reflexivity.
Qed.

Lemma devel_override_witness :
  match alpm_db_get_pkg Sim.db0 (Name Sim.foo_git) with
  | Some pkg =>
      if devel (Sim.state0 [] false true false)
         && GoString.HasSuffix (Name Sim.foo_git) "-git"
      then ∃ out1 w1 output,
             run (makepkg (PackageBase Sim.foo_git) ["--nobuild"; "--nodeps"; "--noprepare"])
                 (world (Sim.state0 [] false true false)) = (NoErr, out1, w1) ∧
             run (makepkg (PackageBase Sim.foo_git) ["--packagelist"]) w1
               = (NoErr, output,
                  world (snd (prepare_local Sim.db0 Sim.foo_git
                                (Sim.state0 [] false true false)))) ∧
             Version (set_OldVersion "r1.abc-1" (set_Version "r2.abc-1" Sim.foo_git))
               = default "" (vcs_map (GoString.Split output " ") !! Name Sim.foo_git) ∧
             trace (snd (prepare_local Sim.db0 Sim.foo_git
                           (Sim.state0 [] false true false)))
               = (trace (Sim.state0 [] false true false)
                  ++ inspect_list (PackageBase Sim.foo_git))%list
      else Version (set_OldVersion "r1.abc-1" (set_Version "r2.abc-1" Sim.foo_git))
             = Version Sim.foo_git ∧
           snd (prepare_local Sim.db0 Sim.foo_git (Sim.state0 [] false true false))
             = Sim.state0 [] false true false
  | None =>
      Version (set_OldVersion "r1.abc-1" (set_Version "r2.abc-1" Sim.foo_git))
        = Version Sim.foo_git ∧
      snd (prepare_local Sim.db0 Sim.foo_git (Sim.state0 [] false true false))
        = Sim.state0 [] false true false
  end.
Proof.
  apply (devel_override Sim.db0 Sim.foo_git (Sim.state0 [] false true false)
           (set_OldVersion "r1.abc-1" (set_Version "r2.abc-1" Sim.foo_git))).
  vm_compute. reflexivity.
Defined.

End PolicyRuns.

(** ** Unresolved targets *)

Lemma append_cons (x : ascii) (a b : string) : String x a +:+ b = String x (a +:+ b).
Proof. reflexivity. Qed.

Lemma append_assoc (a b c : string) : (a +:+ b) +:+ c = a +:+ (b +:+ c).
Proof.
  induction a as [|x a IH]; [done|]. rewrite !append_cons. by f_equal.
Qed.

Lemma append_nil_r (a : string) : a +:+ "" = a.
Proof. induction a as [|x a IH]; [done|]. rewrite append_cons. by f_equal. Qed.

Lemma list_names_from (acc : string) l :
  foldl (λ p s, p +:+ " " +:+ s) acc l = acc +:+ list_names l.
Proof.
  unfold list_names. revert acc. induction l as [|x l IH]; intros acc; simpl.
  - by rewrite append_nil_r.
  - rewrite IH. rewrite (IH ("" +:+ " " +:+ x)). by rewrite !append_assoc.
Qed.

(** Every listed name can be read in the text. *)
Lemma list_names_shows l n :
  n ∈ l → ∃ pre post, list_names l = pre +:+ " " +:+ n +:+ post.
Proof.
  unfold list_names.
  enough (H : ∀ acc, n ∈ l →
            ∃ pre post, foldl (λ p s, p +:+ " " +:+ s) acc l
                        = pre +:+ " " +:+ n +:+ post) by apply H.
  induction l as [|x l IH]; intros acc Hn.
  - by apply elem_of_nil in Hn.
  - apply elem_of_cons in Hn as [->|Hn]; simpl.
    + exists acc, (list_names l). rewrite list_names_from.
      by rewrite !append_assoc.
    + apply IH. done.
Qed.

Lemma targets_insert (X : gset string) names :
  foldl (λ set n, {[n]} ∪ set) X names = list_to_set names ∪ X.
Proof.
  revert X. induction names as [|n names IH]; intros X; simpl.
  - set_solver.
  - rewrite IH. set_solver.
Qed.

Lemma targets_delete (X : gset string) (res : list Package) :
  foldl (λ set r, set ∖ {[Name r]}) X res = X ∖ list_to_set (Name <$> res).
Proof.
  revert X. induction res as [|r res IH]; intros X; simpl.
  - set_solver.
  - rewrite IH. set_solver.
Qed.

Section Targets.
Context `{E : Externals}.
Local Open Scope go_scope.

Lemma fetch_run names res s :
  http_get (RpcInfo names) = inr res →
  ∃ s1, fetch names s = (Ok res, s1) ∧ quiet s s1.
Proof.
  intros Hget. unfold fetch, Println, print, bind, get. rewrite Hget. simpl.
  eexists. split; [reflexivity|]. reflexivity.
Qed.

Lemma unresolved_spec names res :
  NoDup (unresolved names res) ∧
  ∀ n, n ∈ unresolved names res ↔ n ∈ names ∧ n ∉ Name <$> res.
Proof.
  unfold unresolved. split.
  - rewrite map_range_perm. apply NoDup_elements.
  - intros n. rewrite map_range_perm, elem_of_elements. set_solver.
Qed.

(** A reply of records with distinct names, all of them requested,
    that lacks a requested name has fewer records than names were
    requested. *)
Lemma reply_shorter names (res : list Package) n :
  NoDup (Name <$> res) → (∀ r, r ∈ res → Name r ∈ names) →
  n ∈ names → n ∉ Name <$> res →
  length names ≠ length res.
Proof.
  intros Hnd Hsub Hn Hmiss Hlen.
  assert (Hle : (length (n :: (Name <$> res)) ≤ length names)%nat).
  { apply submseteq_length, NoDup_submseteq.
    - by constructor.
    - intros x [->|Hx]%elem_of_cons; [done|].
      apply list_elem_of_fmap in Hx as (r & -> & Hr). by apply Hsub. }
  simpl in Hle. rewrite length_fmap in Hle. lia.
Qed.

Lemma prepare_targets_Fatal names res n s :
  length names ≠ length res →
  n ∈ names → n ∉ Name <$> res →
  prepare_targets names res s
  = (Fatal ("target not found:" +:+ list_names (unresolved names res)), s).
Proof.
  intros Hlen Hn Hmiss. unfold prepare_targets.
  destruct (decide (length names ≠ length res)) as [_|Heq]; [|done].
  rewrite targets_insert, targets_delete.
  replace (list_to_set names ∪ ∅ : gset string) with (list_to_set names : gset string)
    by set_solver.
  destruct (decide _) as [_|Hsz]; [done|].
  exfalso. apply Hsz.
  assert (Hne : size (list_to_set names ∖ list_to_set (Name <$> res) : gset string) ≠ 0%nat).
  { apply size_non_empty_iff. intros Hempty.
    assert (n ∈ (list_to_set names ∖ list_to_set (Name <$> res) : gset string))
      by set_solver.
    set_solver. }
  lia.
Qed.

(** C2, as the code has it: the check of line 135 looks at the reply
    only when it has not as many records as names were requested.  When
    that is so (as it always is for a reply of records with distinct
    names, all of them requested) and the reply lacks a requested name,
    [prepare] dies in [log.Fatal]; the message names every requested
    name that has no record, each once; nothing but output has
    happened, no list of packages is returned, and [sync] stops in the
    same way. *)
Theorem unresolved_targets_fatal names res s :
  http_get (RpcInfo names) = inr res →
  length names ≠ length res ∨
    (NoDup (Name <$> res) ∧ ∀ r, r ∈ res → Name r ∈ names) →
  (∃ n, n ∈ names ∧ n ∉ Name <$> res) →
  ∃ missing s',
    prepare names s = (Fatal ("target not found:" +:+ list_names missing), s') ∧
    sync names s = (Fatal ("target not found:" +:+ list_names missing), s') ∧
    quiet s s' ∧
    NoDup missing ∧
    (∀ n, n ∈ missing ↔ n ∈ names ∧ n ∉ Name <$> res) ∧
    (∀ n, n ∈ names → n ∉ Name <$> res →
          ∃ pre post, list_names missing = pre +:+ " " +:+ n +:+ post).
Proof.
  intros Hget Hreply (n & Hn & Hmiss).
  assert (Hlen : length names ≠ length res).
  { destruct Hreply as [Hlen|[Hnd Hsub]]; [done|]. by apply (reply_shorter names res n). }
  destruct (fetch_run names res s Hget) as (s1 & Hf & Hq).
  destruct (unresolved_spec names res) as [Hnd' Hin].
  exists (unresolved names res), s1.
  assert (Hp : prepare names s
               = (Fatal ("target not found:" +:+ list_names (unresolved names res)), s1)).
  { unfold prepare, prepare_reconcile, bind. rewrite Hf.
    by rewrite (prepare_targets_Fatal names res n s1). }
  split; [exact Hp|]. split.
  { unfold sync, bind. by rewrite Hp. }
  split; [done|]. split; [done|]. split; [done|].
  intros m Hm Hmm. apply list_names_shows. apply Hin. done.
Qed.

End Targets.

(** ** What [prepare] returns, and the two early exits *)

Section Prepare.
Context `{E : Externals}.
Local Open Scope go_scope.

Lemma prepare_table_nil s :
  prepare_table [] s
  = (Exit 0, set_stdout (stdout s ++ ["There is nothing to do" +:+ NL])%list s).
Proof. reflexivity. Qed.

Lemma prepare_table_Ok outdated s out s' :
  prepare_table outdated s = (Ok out, s') →
  outdated ≠ [] ∧ out = sort_Slice name_less outdated ∧ quiet s s'.
Proof.
  intros H. split; [|split].
  - intros ->. by rewrite prepare_table_nil in H.
  - unfold prepare_table in H. destruct (decide _); [|done].
    repeat (apply bind_Ok in H as (? & ? & _ & H)).
    by injection H as <- _.
  - eapply (preserves_prepare_table _ _ quiet_Frame). exact H.
Qed.

Lemma prepare_Ok names s out s' :
  prepare names s = (Ok out, s') →
  ∃ outdated s1,
    prepare_reconcile names s = (Ok outdated, s1) ∧
    outdated ≠ [] ∧ out = sort_Slice name_less outdated ∧ quiet s1 s'.
Proof.
  unfold prepare. intros H. apply bind_Ok in H as (outdated & s1 & Hr & Ht).
  apply prepare_table_Ok in Ht as (Hne & -> & Hq). by exists outdated, s1.
Qed.

Lemma inspect_allowed c : inspect_cmd c → inspect_event (Exec c).
Proof. intros Hc. by exists c. Qed.

Lemma prepare_extends names :
  preserves (extends inspect_event) (prepare names).
Proof.
  apply (preserves_prepare _ _ (extends_Frame inspect_event)). apply inspect_allowed.
Qed.

Lemma prepare_steady names : preserves steady (prepare names).
Proof. by apply (preserves_prepare _ _ steady_Frame). Qed.

(** Without [devel], [prepare] only prints. *)
Lemma prepare_quiet names s out s' :
  devel s = false → prepare names s = (Ok out, s') → quiet s s'.
Proof.
  intros Hd H. apply prepare_Ok in H as (outdated & s1 & Hr & _ & _ & Hq).
  eapply (frame_trans _ _ quiet_Frame); [|exact Hq]. clear Hq.
  unfold prepare_reconcile in Hr.
  apply bind_Ok in Hr as (res & sa & Hf & H).
  apply bind_Ok in H as ([] & sb & Ht & H).
  apply bind_Ok in H as ([] & sc & Hw & H).
  apply bind_Ok in H as (sc' & sc'' & [= <- <-] & H).
  apply (preserves_fetch _ _ quiet_Frame) in Hf.
  apply (preserves_prepare_targets _ _ quiet_Frame) in Ht.
  apply (preserves_prepare_warnings _ _ quiet_Frame) in Hw.
  assert (Hq : quiet s sc).
  { eapply (frame_trans _ _ quiet_Frame); [exact Hf|].
    eapply (frame_trans _ _ quiet_Frame); [exact Ht | exact Hw]. }
  apply prepare_outdated_quiet in H as ->; [done|].
  apply quiet_fields in Hq as (_ & _ & _ & Hd' & _). by rewrite Hd'.
Qed.

Lemma prompt_run str s :
  prompt str s
  = (Ok (String.eqb (hd "" (answers s)) "y" || String.eqb (hd "" (answers s)) "Y"
         || String.eqb (hd "" (answers s)) ""),
     mkState (world s) (tl (answers s))
             (stdout s ++ [ESC +:+ "[1;34m::" +:+ ESC +:+ "[39m " +:+ str +:+ " [Y/n]"
                           +:+ ESC +:+ "[0m "])%list
             (trace s) (force s) (devel s) (noedit s)).
Proof.
  unfold prompt, bind, print, Scanln, ret. simpl. by destruct (answers s).
Qed.

Lemma declines_no a :
  declines a → String.eqb a "y" || String.eqb a "Y" || String.eqb a "" = false.
Proof.
  intros (H1 & H2 & H3).
  apply String.eqb_neq in H1, H2, H3. by rewrite H1, H2, H3.
Qed.

Lemma reconciled_names db devel res recs :
  Forall2 (reconciled db devel) res recs → Name <$> recs = Name <$> res.
Proof.
  induction 1 as [|r c res recs (Hn & _) _ IH]; [done|].
  rewrite !fmap_cons. by rewrite Hn, IH.
Qed.

Lemma filter_names_NoDup (f : Package → bool) l :
  NoDup (Name <$> l) → NoDup (Name <$> List.filter f l).
Proof.
  induction l as [|x l IH]; simpl; [done|]. intros [Hx Hl]%NoDup_cons.
  destruct (f x); simpl; [|by apply IH].
  apply NoDup_cons. split; [|by apply IH].
  intros Hin. apply Hx. apply list_elem_of_fmap in Hin as (y & -> & Hy).
  apply list_elem_of_fmap. exists y. split; [done|].
  apply list_elem_of_In in Hy. apply filter_In in Hy as [Hy _]. by apply list_elem_of_In.
Qed.

(** C3, as the code has it: when the registry has exactly one record
    for every requested name, what [prepare] returns is never empty and
    is a permutation of the compared records that satisfy the condition
    of line 168: at most one per requested name, none for another name,
    and one for every requested name when the force flag is set. *)
Theorem prepare_returns_outdated names res s out s' :
  http_get (RpcInfo names) = inr res →
  NoDup (Name <$> res) →
  (∀ n, n ∈ names ↔ n ∈ Name <$> res) →
  prepare names s = (Ok out, s') →
  out ≠ [] ∧
  NoDup (Name <$> out) ∧
  (∀ n, n ∈ Name <$> out → n ∈ names) ∧
  (∃ recs, Forall2 (reconciled (pkgcache (world s)) (devel s)) res recs ∧
           out ≡ₚ List.filter (is_outdated (force s)) recs) ∧
  (force s = true → NoDup names → Name <$> out ≡ₚ names).
Proof.
  intros Hget Hnd Hnames H.
  apply prepare_Ok in H as (outdated & s1 & Hr & Hne & -> & _).
  apply prepare_reconcile_Ok in Hr as (res' & recs & Hget' & Hrecs & ->).
  rewrite Hget in Hget'. injection Hget' as <-.
  assert (Hrec : Forall2 (reconciled (pkgcache (world s)) (devel s)) res recs).
  { eapply Forall2_impl; [exact Hrecs|]. intros r c. apply compared_reconciled. }
  pose proof (reconciled_names _ _ _ _ Hrec) as Hrn.
  pose proof (sort_Slice_perm _ name_less (List.filter (is_outdated (force s)) recs))
    as Hperm.
  assert (Hnd' : NoDup (Name <$> List.filter (is_outdated (force s)) recs)).
  { apply filter_names_NoDup. by rewrite Hrn. }
  split; [|split; [|split; [|split]]].
  - intros Hnil. rewrite Hnil in Hperm. by apply Permutation_nil in Hperm.
  - by rewrite Hperm.
  - intros n. rewrite Hperm. intros Hin. apply Hnames. rewrite <- Hrn.
    apply list_elem_of_fmap in Hin as (y & -> & Hy).
    apply list_elem_of_fmap. exists y. split; [done|].
    apply list_elem_of_In in Hy. apply filter_In in Hy as [Hy _]. by apply list_elem_of_In.
  - by exists recs.
  - intros Hforce Hndn. rewrite Hperm, Hforce.
    replace (List.filter (is_outdated true) recs) with recs.
    + rewrite Hrn. apply NoDup_Permutation; [done..|]. intros n. by rewrite Hnames.
    + clear. induction recs as [|c recs IH]; simpl; [done|]. by rewrite <- IH.
Qed.

(** C7: when the loop leaves the outdated set empty, [prepare] prints
    the message and exits with status 0; [sync] and [update] end there,
    in that state: since the start only the source inspections of
    [VCSVersion] have run, and no child at all after the loop. *)
Theorem nothing_to_do names s s1 :
  prepare_reconcile names s = (Ok [], s1) →
  ∃ s2,
    s2 = set_stdout (stdout s1 ++ ["There is nothing to do" +:+ NL])%list s1 ∧
    prepare names s = (Exit 0, s2) ∧
    sync names s = (Exit 0, s2) ∧
    (names = map alpm_pkg_get_name (pkgcache (world s)) → update s = (Exit 0, s2)) ∧
    exit_status (fst (sync names s)) = 0 ∧
    world s2 = world s1 ∧ trace s2 = trace s1 ∧
    extends inspect_event s s2.
Proof.
  intros Hr. eexists. split; [reflexivity|].
  assert (Hp : prepare names s
               = (Exit 0, set_stdout (stdout s1 ++ ["There is nothing to do" +:+ NL])%list s1)).
  { unfold prepare, bind. rewrite Hr. apply prepare_table_nil. }
  assert (Hs : sync names s
               = (Exit 0, set_stdout (stdout s1 ++ ["There is nothing to do" +:+ NL])%list s1)).
  { unfold sync, bind. by rewrite Hp. }
  split; [done|]. split; [done|]. split.
  { intros ->. unfold update, bind, get_state. by rewrite Hp. }
  split; [by rewrite Hs|]. split; [done|]. split; [done|].
  eapply prepare_extends. exact Hp.
Qed.

(** C8, as the code has it: when the answer to the batch prompt
    declines, [sync] and [update] exit with status 1 in the state
    [prepare] left, but for the prompt and the answer read: no unit is
    processed.  What has run before the prompt is the source inspection
    of [VCSVersion] for installed development packages; without [devel]
    nothing has run and the stores are as they were. *)
Theorem declined_confirmation names s outdated s1 a rest :
  prepare names s = (Ok outdated, s1) →
  answers s = a :: rest →
  declines a →
  ∃ s2,
    sync names s = (Exit 1, s2) ∧
    (names = map alpm_pkg_get_name (pkgcache (world s)) →
     ∃ s3, update s = (Exit 1, s3) ∧ world s3 = world s1 ∧ trace s3 = trace s1) ∧
    world s2 = world s1 ∧ trace s2 = trace s1 ∧
    extends inspect_event s s2 ∧
    (devel s = false → world s2 = world s ∧ trace s2 = trace s).
Proof.
  intros Hp Ha Hdec.
  pose proof (prepare_steady names _ _ _ Hp) as (_ & _ & _ & Hans).
  rewrite Ha in Hans.
  eexists. split; [|split].
  - unfold sync, bind. rewrite Hp, prompt_run, Hans. simpl.
    rewrite (declines_no a Hdec). reflexivity.
  - intros ->. eexists. split.
    + unfold update, bind, get_state. rewrite Hp, prompt_run, Hans. simpl.
      rewrite (declines_no a Hdec). reflexivity.
    + done.
  - simpl. split; [done|]. split; [done|]. split.
    + destruct (prepare_extends names _ _ _ Hp) as [Ht Hfl]. split; done.
    + intros Hd. apply prepare_quiet in Hp; [|done].
      apply quiet_fields in Hp as (Hw & Ht & _). done.
Qed.

End Prepare.

Section PrepareRuns.
#[local] Existing Instance Sim.sim.

Lemma unresolved_targets_fatal_witness :
  ∃ missing s',
    prepare ["baz"; "nope"; "zip"] (Sim.state0 [] false false false)
      = (Fatal ("target not found:" +:+ list_names missing), s') ∧
    sync ["baz"; "nope"; "zip"] (Sim.state0 [] false false false)
      = (Fatal ("target not found:" +:+ list_names missing), s') ∧
    quiet (Sim.state0 [] false false false) s' ∧
    NoDup missing ∧
    (∀ n, n ∈ missing ↔ n ∈ ["baz"; "nope"; "zip"] ∧ n ∉ Name <$> [Sim.baz]) ∧
    (∀ n, n ∈ ["baz"; "nope"; "zip"] → n ∉ Name <$> [Sim.baz] →
          ∃ pre post, list_names missing = pre +:+ " " +:+ n +:+ post).
Proof.
  apply (unresolved_targets_fatal ["baz"; "nope"; "zip"] [Sim.baz]
           (Sim.state0 [] false false false)).
  - vm_compute. reflexivity.
  - left. simpl. lia.
  - exists "nope". split; compute_done.
Defined.

(** Both names exist upstream; [Sim.baz] is installed and up to date, so
    only [Sim.libbar] is returned. *)
Lemma prepare_returns_outdated_counterexample :
  http_get (RpcInfo ["baz"; "libbar"]) = inr [Sim.libbar; Sim.baz] ∧
  fst (prepare ["baz"; "libbar"] (Sim.state0 [] false false false)) = Ok [Sim.libbar].
Proof. vm_compute. done. Qed.

Lemma prepare_returns_outdated_witness :
  [Sim.libbar] ≠ [] ∧
  NoDup (Name <$> [Sim.libbar]) ∧
  (∀ n, n ∈ Name <$> [Sim.libbar] → n ∈ ["baz"; "libbar"]) ∧
  (∃ recs, Forall2 (reconciled Sim.db0 false) [Sim.libbar; Sim.baz] recs ∧
           [Sim.libbar] ≡ₚ List.filter (is_outdated false) recs) ∧
  (false = true → NoDup ["baz"; "libbar"] → Name <$> [Sim.libbar] ≡ₚ ["baz"; "libbar"]).
Proof.
  apply (prepare_returns_outdated ["baz"; "libbar"] [Sim.libbar; Sim.baz]
           (Sim.state0 [] false false false) [Sim.libbar]
           (snd (prepare ["baz"; "libbar"] (Sim.state0 [] false false false)))).
  - vm_compute. reflexivity.
  - compute_done.
  - intros n. split; intros Hn.
    + repeat (apply elem_of_cons in Hn as [->|Hn]; [compute_done|]).
      by apply elem_of_nil in Hn.
    + repeat (apply elem_of_cons in Hn as [->|Hn]; [compute_done|]).
      by apply elem_of_nil in Hn.
  - vm_compute. reflexivity.
Defined.

Lemma nothing_to_do_witness :
  ∃ s2,
    s2 = set_stdout
           (stdout (snd (prepare_reconcile ["baz"] (Sim.state0 [] false false false)))
            ++ ["There is nothing to do" +:+ NL])%list
           (snd (prepare_reconcile ["baz"] (Sim.state0 [] false false false))) ∧
    prepare ["baz"] (Sim.state0 [] false false false) = (Exit 0, s2) ∧
    sync ["baz"] (Sim.state0 [] false false false) = (Exit 0, s2) ∧
    (["baz"] = map alpm_pkg_get_name (pkgcache (world (Sim.state0 [] false false false))) →
     update (Sim.state0 [] false false false) = (Exit 0, s2)) ∧
    exit_status (fst (sync ["baz"] (Sim.state0 [] false false false))) = 0 ∧
    world s2 = world (snd (prepare_reconcile ["baz"] (Sim.state0 [] false false false))) ∧
    trace s2 = trace (snd (prepare_reconcile ["baz"] (Sim.state0 [] false false false))) ∧
    extends inspect_event (Sim.state0 [] false false false) s2.
Proof.
  apply (nothing_to_do ["baz"] (Sim.state0 [] false false false)).
  vm_compute. reflexivity.
Defined.

(** Under [devel], with [foo-git] installed: the batch prompt is
    declined and the run exits with status 1, but the source inspection
    has already written into the mirror of [foo-git]. *)
Lemma declined_confirmation_counterexample :
  declines "n" ∧
  fst (sync ["foo-git"] (Sim.state0 ["n"] false true false)) = Exit 1 ∧
  cachedir (world (snd (sync ["foo-git"] (Sim.state0 ["n"] false true false))))
    ≠ cachedir (world (Sim.state0 ["n"] false true false)) ∧
  trace (snd (sync ["foo-git"] (Sim.state0 ["n"] false true false)))
    = inspect_list "foo-git".
Proof.
  split; [by repeat split|]. split; [vm_compute; reflexivity|].
  split; [|vm_compute; reflexivity].
  vm_compute. discriminate.
Qed.

Lemma declined_confirmation_witness :
  ∃ s2,
    sync ["libbar"] (Sim.state0 ["n"] false false false) = (Exit 1, s2) ∧
    (["libbar"] = map alpm_pkg_get_name (pkgcache (world (Sim.state0 ["n"] false false false))) →
     ∃ s3, update (Sim.state0 ["n"] false false false) = (Exit 1, s3) ∧
           world s3 = world (snd (prepare ["libbar"] (Sim.state0 ["n"] false false false))) ∧
           trace s3 = trace (snd (prepare ["libbar"] (Sim.state0 ["n"] false false false)))) ∧
    world s2 = world (snd (prepare ["libbar"] (Sim.state0 ["n"] false false false))) ∧
    trace s2 = trace (snd (prepare ["libbar"] (Sim.state0 ["n"] false false false))) ∧
    extends inspect_event (Sim.state0 ["n"] false false false) s2 ∧
    (devel (Sim.state0 ["n"] false false false) = false →
     world s2 = world (Sim.state0 ["n"] false false false) ∧
     trace s2 = trace (Sim.state0 ["n"] false false false)).
Proof.
  apply (declined_confirmation ["libbar"] (Sim.state0 ["n"] false false false)
           [Sim.libbar] _ "n" []).
  - vm_compute. reflexivity.
  - reflexivity.
  - by repeat split.
Defined.

End PrepareRuns.

Section CannedRuns.
#[local] Existing Instance Sim.canned.

(** Two names requested, two records in the reply, and no record for
    ["nope"]: the lengths agree, the check is skipped, [prepare] returns
    the outdated record of the reply, and [sync] goes on to build its
    unit. *)
Lemma unresolved_targets_counterexample :
  http_get (RpcInfo ["libbar"; "nope"]) = inr [Sim.libbar; Sim.baz] ∧
  "nope" ∈ ["libbar"; "nope"] ∧
  ("nope" ∉ Name <$> [Sim.libbar; Sim.baz]) ∧
  fst (prepare ["libbar"; "nope"] (Sim.state0 [] false false false)) = Ok [Sim.libbar] ∧
  fst (sync ["libbar"; "nope"] (Sim.state0 ["y"; "n"] false false false)) = Ok tt ∧
  builds "bar" (snd (sync ["libbar"; "nope"] (Sim.state0 ["y"; "n"] false false false)))
    = 1%nat.
Proof.
  split; [reflexivity|]. split; [compute_done|]. split; [compute_done|].
  split; [vm_compute; reflexivity|]. split; vm_compute; reflexivity.
Qed.

End CannedRuns.

(** ** Build units *)

Section Units.
Context `{E : Externals}.
Local Open Scope go_scope.

Lemma pkgdest_nonempty : pkgdest ≠ "".
Proof.
  unfold pkgdest, path_Join. rewrite !filter_cons, filter_nil.
  repeat case_decide; try done; simpl.
  destruct Getenv_HOME; [done|]. by rewrite append_cons.
Qed.

Lemma mirror_path base :
  path_Join [pkgdest; base] = if decide (base = "") then pkgdest else pkgdest +:+ "/" +:+ base.
Proof.
  unfold path_Join. rewrite !filter_cons, filter_nil.
  pose proof pkgdest_nonempty.
  repeat case_decide; by subst.
Qed.

Lemma mirror_path_inj b b' :
  path_Join [pkgdest; b] = path_Join [pkgdest; b'] → b = b'.
Proof.
  rewrite !mirror_path.
  destruct (decide (b = "")) as [->|Hb], (decide (b' = "")) as [->|Hb']; try done.
  - intros H. rewrite <- (append_nil_r pkgdest) in H at 1.
    by apply String.app_inj in H.
  - intros H. symmetry in H. rewrite <- (append_nil_r pkgdest) in H at 1.
    by apply String.app_inj in H.
  - intros H. apply String.app_inj in H. by injection H.
Qed.

Lemma build_cmd_inj b b' : build_cmd b = build_cmd b' → b = b'.
Proof. intros [= H]. by apply mirror_path_inj. Qed.

Lemma builds_emit b c w s :
  builds b (emit (Exec c) (set_world w s))
  = (builds b s + if decide (c = build_cmd b) then 1 else 0)%nat.
Proof.
  unfold builds. simpl. rewrite filter_app, length_app. f_equal.
  rewrite filter_cons, filter_nil.
  destruct (decide (c = build_cmd b)) as [->|Hc].
  - by rewrite decide_True.
  - rewrite decide_False; [done|]. by intros [= ?].
Qed.

Lemma extends_no_build s s' b :
  extends no_build s s' → builds b s' = builds b s.
Proof.
  unfold builds. intros [(t & -> & Ht) _]. rewrite filter_app, length_app.
  replace (filter (λ e, e = Exec (build_cmd b)) t) with (@nil Event); [simpl; lia|].
  induction Ht as [|e t He _ IH]; [done|].
  rewrite filter_cons, decide_False; [done | apply He].
Qed.

Lemma no_build_path c : Path c ≠ "makepkg" → no_build (Exec c).
Proof. intros Hp b [= ->]. by apply Hp. Qed.

Lemma no_build_args c : Args c ≠ ["--force"; "--syncdeps"] → no_build (Exec c).
Proof. intros Hp b [= ->]. by apply Hp. Qed.

Lemma inspect_no_build c : inspect_cmd c → no_build (Exec c).
Proof. intros (base & [->| ->]); by apply no_build_args. Qed.

Lemma prompt_no_build str : preserves (extends no_build) (prompt str).
Proof.
  intros s r s'. rewrite prompt_run. intros [= <- <-]. simpl.
  split; [|done]. exists []. by rewrite app_nil_r.
Qed.

Lemma cmd_Run_no_build c : no_build (Exec c) → preserves (extends no_build) (cmd_Run c).
Proof. apply (preserves_cmd_Run _ _ (extends_Frame no_build)). Qed.

Lemma promptEdit_no_build src : preserves (extends no_build) (promptEdit src).
Proof.
  unfold promptEdit.
  apply (preserves_bind _ _ (extends_Frame no_build)); [frame (extends_Frame no_build)|].
  intros s. apply (preserves_bind _ _ (extends_Frame no_build)).
  { destruct (noedit s); [frame (extends_Frame no_build) | apply prompt_no_build]. }
  intros [|]; [|frame (extends_Frame no_build)].
  apply (preserves_bind _ _ (extends_Frame no_build)).
  - apply cmd_Run_no_build. by apply no_build_path.
  - intros err. apply (preserves_check_err _ _ (extends_Frame no_build)).
Qed.

Lemma prepare_no_build names : preserves (extends no_build) (prepare names).
Proof.
  apply (preserves_prepare _ _ (extends_Frame no_build)). apply inspect_no_build.
Qed.

Lemma unit_spec_bind {A} base (m : M A) (k : A → M unit) :
  preserves (extends no_build) m → (∀ a, unit_spec base (k a)) →
  unit_spec base (bind m k).
Proof.
  intros Hm Hk s r s' H. apply bind_cases in H as [(a & s1 & Hms & Hks)|(r0 & Hms & Hst)].
  - apply Hm in Hms. destruct (Hk a _ _ _ Hks) as (H1 & H2 & H3).
    rewrite <- (extends_no_build _ _ base Hms).
    split; [|done]. intros b Hb. rewrite <- (extends_no_build _ _ b Hms). by apply H1.
  - apply Hm in Hms. split; [|split].
    + intros b _. by apply extends_no_build.
    + rewrite (extends_no_build _ _ base Hms). lia.
    + intros ->. by destruct r0.
Qed.

Lemma build_unfold base s :
  build base s
  = let '(err, _, w) := run (build_cmd base) (world s) in
    build_rest base err (emit (Exec (build_cmd base)) (set_world w s)).
Proof.
  unfold build, build_rest. fold (build_cmd base).
  unfold bind at 1, cmd_Run at 1.
  by destruct (run (build_cmd base) (world s)) as [[err out] w].
Qed.

Lemma build_rest_no_build base err :
  preserves (extends no_build) (build_rest base err).
Proof.
  unfold build_rest.
  apply (preserves_bind _ _ (extends_Frame no_build)).
  { apply (preserves_check_err _ _ (extends_Frame no_build)). }
  intros _. apply (preserves_bind _ _ (extends_Frame no_build)).
  { apply (preserves_cmd_Output _ _ (extends_Frame no_build)). by apply no_build_args. }
  intros [output err']. apply (preserves_bind _ _ (extends_Frame no_build)).
  { apply (preserves_check_err _ _ (extends_Frame no_build)). }
  intros _. apply (preserves_bind _ _ (extends_Frame no_build)).
  { apply cmd_Run_no_build. by apply no_build_path. }
  intros err''. apply (preserves_check_err _ _ (extends_Frame no_build)).
Qed.

(** [build] starts the build step of its unit, once, whatever follows. *)
Lemma build_spec base : unit_spec base (build base).
Proof.
  intros s r s' H. rewrite build_unfold in H.
  destruct (run (build_cmd base) (world s)) as [[err out] w].
  apply build_rest_no_build in H.
  assert (Hb : ∀ b, builds b s'
                    = (builds b s + if decide (build_cmd base = build_cmd b) then 1 else 0)%nat).
  { intros b. rewrite (extends_no_build _ _ b H). apply builds_emit. }
  split; [|split].
  - intros b Hne. rewrite Hb, decide_False; [lia|]. intros Heq. by apply build_cmd_inj in Heq.
  - rewrite Hb, decide_True; [lia | done].
  - intros _. rewrite Hb, decide_True; [lia | done].
Qed.

Lemma sync_unit_spec base : unit_spec base (sync_unit base).
Proof.
  unfold sync_unit.
  apply unit_spec_bind; [frame (extends_Frame no_build)|]. intros _.
  apply unit_spec_bind; [frame (extends_Frame no_build)|]. intros s.
  apply unit_spec_bind.
  { destruct (os_Stat (world s) base); [frame (extends_Frame no_build)|].
    apply (preserves_bind _ _ (extends_Frame no_build)).
    - apply cmd_Run_no_build. by apply no_build_path.
    - intros err. apply (preserves_check_err _ _ (extends_Frame no_build)). }
  intros _. apply unit_spec_bind; [apply promptEdit_no_build|]. intros _.
  apply build_spec.
Qed.

Lemma update_unit_spec base : unit_spec base (update_unit base).
Proof.
  unfold update_unit.
  apply unit_spec_bind; [frame (extends_Frame no_build)|]. intros _.
  apply unit_spec_bind; [apply cmd_Run_no_build; by apply no_build_path|]. intros err.
  apply unit_spec_bind; [apply (preserves_check_err _ _ (extends_Frame no_build))|].
  intros _.
  apply unit_spec_bind; [apply cmd_Run_no_build; by apply no_build_path|]. intros err'.
  apply unit_spec_bind.
  { destruct err' as [|code|msg]; try (frame (extends_Frame no_build)).
    apply (preserves_bind _ _ (extends_Frame no_build)).
    { destruct (code =? 1); [apply prompt_no_build | frame (extends_Frame no_build)]. }
    intros [|]; [|frame (extends_Frame no_build)].
    apply (preserves_bind _ _ (extends_Frame no_build)).
    - apply cmd_Run_no_build. by apply no_build_path.
    - intros e. apply (preserves_check_err _ _ (extends_Frame no_build)). }
  intros _.
  apply unit_spec_bind; [apply cmd_Run_no_build; by apply no_build_path|]. intros err''.
  apply unit_spec_bind; [apply (preserves_check_err _ _ (extends_Frame no_build))|].
  intros _. apply unit_spec_bind; [apply promptEdit_no_build|]. intros _.
  apply build_spec.
Qed.

(** A loop over distinct units builds each of them at most once, and
    exactly once when the loop runs to its end. *)
Lemma for_range_units (body : string → M unit) l s r s' :
  (∀ base, unit_spec base (body base)) → NoDup l →
  for_range l body s = (r, s') →
  ∀ b, (builds b s ≤ builds b s' ≤ builds b s + if decide (b ∈ l) then 1 else 0)%nat ∧
       (r = Ok tt → builds b s' = (builds b s + if decide (b ∈ l) then 1 else 0)%nat).
Proof.
  intros Hbody. revert s. induction l as [|x l IH]; intros s Hnd H b; simpl in H.
  - injection H as <- <-. rewrite decide_False; [lia | apply not_elem_of_nil].
  - apply NoDup_cons in Hnd as [Hx Hnd].
    apply bind_cases in H as [([] & s1 & Hx1 & Hl)|(r0 & Hx1 & Hst)].
    + destruct (Hbody x _ _ _ Hx1) as (H1 & H2 & H3).
      destruct (IH _ Hnd Hl b) as [H4 H5].
      destruct (decide (b = x)) as [->|Hbx].
      * rewrite decide_True by apply list_elem_of_here.
        rewrite decide_False in H4, H5 by done.
        specialize (H3 eq_refl). split; [lia|]. intros Hr. specialize (H5 Hr). lia.
      * specialize (H1 b Hbx).
        destruct (decide (b ∈ l)) as [Hbl|Hbl].
        -- rewrite decide_True by (by apply list_elem_of_further).
           split; [lia|]. intros Hr. specialize (H5 Hr). lia.
        -- rewrite decide_False by (by intros [?|?]%elem_of_cons).
           split; [lia|]. intros Hr. specialize (H5 Hr). lia.
    + destruct (Hbody x _ _ _ Hx1) as (H1 & H2 & H3). split.
      * destruct (decide (b = x)) as [->|Hbx].
        -- rewrite decide_True by apply list_elem_of_here. lia.
        -- rewrite (H1 b Hbx). destruct (decide (b ∈ x :: l)); lia.
      * intros ->. by destruct r0.
Qed.

Lemma collect_bases_spec outdated :
  collect_bases outdated = list_to_set (PackageBase <$> outdated).
Proof.
  unfold collect_bases.
  enough (H : ∀ X : gset string,
            foldl (λ bases p, {[PackageBase p]} ∪ bases) X outdated
            = list_to_set (PackageBase <$> outdated) ∪ X).
  { rewrite H. set_solver. }
  induction outdated as [|p l IH]; intros X; simpl; [set_solver|].
  rewrite IH. set_solver.
Qed.

(** The part of [sync] and [update] after [prepare]. *)
Lemma orchestrate_units (body : string → M unit) str outdated s r s' :
  (∀ base, unit_spec base (body base)) →
  (ok <- prompt str ;;
   (if ok : bool then ret tt else os_Exit 1) ;;;
   for_range (map_range (collect_bases outdated)) body) s = (r, s') →
  ∀ b, (builds b s ≤ builds b s' ≤ builds b s + 1)%nat ∧
       (r = Ok tt →
        builds b s' = (builds b s
                       + if decide (b ∈ PackageBase <$> outdated) then 1 else 0)%nat).
Proof.
  intros Hbody H b. unfold bind at 1 in H. rewrite prompt_run in H.
  set (s1 := mkState _ _ _ _ _ _ _) in H.
  assert (Hs1 : builds b s1 = builds b s) by done.
  destruct (_ || _).
  - unfold bind at 1 in H. simpl in H.
    assert (Hnd : NoDup (map_range (collect_bases outdated))).
    { rewrite map_range_perm. apply NoDup_elements. }
    destruct (for_range_units body _ _ _ _ Hbody Hnd H b) as [H1 H2].
    rewrite Hs1 in H1, H2. split.
    + destruct (decide (b ∈ map_range _)); lia.
    + intros Hr. rewrite (H2 Hr).
      destruct (decide (b ∈ map_range _)) as [Hin|Hin];
        rewrite map_range_perm, elem_of_elements, collect_bases_spec,
          elem_of_list_to_set in Hin.
      * by rewrite decide_True.
      * by rewrite decide_False.
  - unfold bind at 1 in H. simpl in H. injection H as <- <-. rewrite Hs1.
    split; [lia | done].
Qed.

(** C4: in every run of [sync] and of [update] the build step of a unit
    is started at most once; a run that comes to its end has started it
    exactly once for every unit that has an outdated package, however
    many of its packages are outdated, and for no other unit. *)
Theorem build_once_per_unit names s r s' :
  (sync names s = (r, s') ∨
   (names = map alpm_pkg_get_name (pkgcache (world s)) ∧ update s = (r, s'))) →
  ∀ b, (builds b s ≤ builds b s' ≤ builds b s + 1)%nat ∧
       (r = Ok tt →
        ∃ outdated s1,
          prepare names s = (Ok outdated, s1) ∧
          builds b s' = (builds b s
                         + if decide (b ∈ PackageBase <$> outdated) then 1 else 0)%nat).
Proof.
  intros H b.
  assert (Hcases :
    (∃ outdated s1, prepare names s = (Ok outdated, s1) ∧
       (builds b s1 ≤ builds b s' ≤ builds b s1 + 1)%nat ∧
       (r = Ok tt →
        builds b s' = (builds b s1
                       + if decide (b ∈ PackageBase <$> outdated) then 1 else 0)%nat)) ∨
    (∃ r0, prepare names s = (r0, s') ∧ ∀ u, r = Ok u → False)).
  { destruct H as [H|[-> H]].
    - unfold sync in H.
      apply bind_cases in H as [(outdated & s1 & Hp & H)|(r0 & Hp & Hst)].
      + left. exists outdated, s1. split; [done|].
        by apply (orchestrate_units sync_unit _ _ _ _ _ sync_unit_spec H).
      + right. exists r0. split; [done|]. intros u ->. by destruct r0.
    - unfold update in H. unfold bind at 1, get_state in H.
      apply bind_cases in H as [(outdated & s1 & Hp & H)|(r0 & Hp & Hst)].
      + left. exists outdated, s1. split; [done|].
        by apply (orchestrate_units update_unit _ _ _ _ _ update_unit_spec H).
      + right. exists r0. split; [done|]. intros u ->. by destruct r0. }
  destruct Hcases as [(outdated & s1 & Hp & H1 & H2)|(r0 & Hp & Hno)].
  - pose proof (extends_no_build _ _ b (prepare_no_build names _ _ _ Hp)) as Hb.
    rewrite Hb in H1, H2. split; [done|]. intros Hr. exists outdated, s1. auto.
  - pose proof (extends_no_build _ _ b (prepare_no_build names _ _ _ Hp)) as Hb.
    split; [lia|]. intros Hr. by destruct (Hno _ Hr).
Qed.

End Units.

Section UnitRuns.
#[local] Existing Instance Sim.sim.

(** Two outdated packages of one unit: one build. *)
Example two_packages_one_build :
  fst (prepare ["libbar"; "bar-utils"] (Sim.state0 ["y"; "n"] false false false))
    = Ok [Sim.bar_utils; Sim.libbar] ∧
  builds "bar" (snd (sync ["libbar"; "bar-utils"] (Sim.state0 ["y"; "n"] false false false)))
    = 1%nat.
Proof. vm_compute. done. Qed.

Lemma build_once_per_unit_witness :
  (builds "bar" (Sim.state0 ["y"; "n"] false false false)
   ≤ builds "bar" (snd (sync ["libbar"; "bar-utils"] (Sim.state0 ["y"; "n"] false false false)))
   ≤ builds "bar" (Sim.state0 ["y"; "n"] false false false) + 1)%nat ∧
  (Ok tt = Ok tt →
   ∃ outdated s1,
     prepare ["libbar"; "bar-utils"] (Sim.state0 ["y"; "n"] false false false)
       = (Ok outdated, s1) ∧
     builds "bar" (snd (sync ["libbar"; "bar-utils"] (Sim.state0 ["y"; "n"] false false false)))
     = (builds "bar" (Sim.state0 ["y"; "n"] false false false)
        + if decide ("bar" ∈ PackageBase <$> outdated) then 1 else 0)%nat).
Proof.
  apply (build_once_per_unit ["libbar"; "bar-utils"]
           (Sim.state0 ["y"; "n"] false false false) (Ok tt)
           (snd (sync ["libbar"; "bar-utils"] (Sim.state0 ["y"; "n"] false false false)))).
  left. vm_compute. reflexivity.
Defined.

End UnitRuns.

(** ** The cache sweep *)

Section Sweep.
Context `{E : Externals}.
Local Open Scope go_scope.

Lemma kept_stores_refl s : kept_stores s s.
Proof. split; [done|]. split; [done|]. exists []. by rewrite app_nil_r. Qed.

Lemma kept_stores_trans s1 s2 s3 :
  kept_stores s1 s2 → kept_stores s2 s3 → kept_stores s1 s3.
Proof.
  intros (Hp1 & Hc1 & t1 & Ht1 & Hf1) (Hp2 & Hc2 & t2 & Ht2 & Hf2).
  split; [congruence|]. split; [congruence|].
  exists (t1 ++ t2)%list. rewrite Ht2, Ht1, app_assoc. split; [done|]. by apply Forall_app.
Qed.

Lemma kept_stores_quiet s s' : quiet s s' → kept_stores s s'.
Proof.
  intros (Hw & Ht & _)%quiet_fields. unfold kept_stores. rewrite Hw, Ht.
  split; [done|]. split; [done|]. exists []. by rewrite app_nil_r.
Qed.

Lemma clean_scan_spec filenames files garbage s r s' :
  clean_local →
  clean_scan filenames files garbage s = (r, s') →
  kept_stores s s' ∧
  ∀ g, r = Ok g → g = (garbage ++ garbage_of filenames files)%list.
Proof.
  intros Hlocal. revert garbage s.
  induction files as [|file files IH]; intros garbage s H; simpl in H.
  - injection H as <- <-. split; [apply kept_stores_refl|].
    intros g [= <-]. unfold garbage_of. simpl. by rewrite app_nil_r.
  - unfold garbage_of. simpl.
    destruct (clean_keeps filenames (entry_name file)) eqn:Hk; simpl.
    + apply bind_cases in H as [([] & s1 & Hgit & H)|(r0 & Hgit & Hst)].
      * assert (Hs1 : kept_stores s s1).
        { destruct (entry_is_dir file).
          - apply bind_cases in Hgit as [(err & sa & Hrun & Hc)|(r0 & Hrun & Hst)].
            + unfold cmd_Run in Hrun. fold (clean_cmd (entry_name file)) in Hrun.
              destruct (run _ (world s)) as [[e o] w] eqn:Hr.
              injection Hrun as <- <-. apply Hlocal in Hr as [Hp Hc'].
              apply (preserves_check_err _ _ quiet_Frame) in Hc. rewrite Hc.
              split; [done|]. split; [done|]. exists [Exec (clean_cmd (entry_name file))].
              split; [done|]. constructor; [|done]. by intros p.
            + unfold cmd_Run in Hrun. destruct (run _ (world s)) as [[e o] w].
              injection Hrun as <- <-. done.
          - injection Hgit as <-. apply kept_stores_refl. }
        apply IH in H as [Hk' Hg]. split; [by eapply kept_stores_trans|]. exact Hg.
      * split; [|intros g ->; by destruct r0].
        destruct (entry_is_dir file); [|by injection Hgit as <- <-].
        apply bind_cases in Hgit as [(err & sa & Hrun & Hc)|(r1 & Hrun & Hst')].
        -- unfold cmd_Run in Hrun. fold (clean_cmd (entry_name file)) in Hrun.
           destruct (run _ (world s)) as [[e o] w] eqn:Hr.
           injection Hrun as <- <-. apply Hlocal in Hr as [Hp Hc'].
           apply (preserves_check_err _ _ quiet_Frame) in Hc. rewrite Hc.
           split; [done|]. split; [done|]. exists [Exec (clean_cmd (entry_name file))].
           split; [done|]. constructor; [|done]. by intros p.
        -- unfold cmd_Run in Hrun. destruct (run _ (world s)) as [[e o] w].
           injection Hrun as <- <-. done.
    + apply IH in H as [Hk' Hg]. split; [done|].
      intros g Hr. rewrite (Hg g Hr). by rewrite <- app_assoc.
Qed.

(** The second loop, when it runs to its end: what is left was there
    before and is not named in [garbage]. *)
Lemma remove_loop_Ok garbage s s' entries :
  for_range garbage (λ name,
    err <- os_RemoveAll name ;;
    match err with
    | Some e => log_Fatal e
    | None => ret tt
    end) s = (Ok tt, s') →
  cachedir (world s) = Some entries →
  pkgcache (world s') = pkgcache (world s) ∧
  ∃ entries', cachedir (world s') = Some entries' ∧
    ∀ e, e ∈ entries' → e ∈ entries ∧ entry_name e ∉ garbage.
Proof.
  revert s entries. induction garbage as [|name garbage IH]; intros s entries H Hdir.
  - injection H as <-. split; [done|]. exists entries. split; [done|].
    intros e He. split; [done | apply not_elem_of_nil].
  - simpl in H. apply bind_Ok in H as ([] & s1 & Hrm & H).
    apply bind_Ok in Hrm as (err & s0 & Hrm & Herr).
    destruct err as [e|]; [done|]. injection Herr as <-.
    unfold os_RemoveAll in Hrm. rewrite Hdir in Hrm.
    destruct (existsb _ entries); [done|]. injection Hrm as <-.
    apply (IH _ (filter (λ e, entry_name e ≠ name) entries)) in H as (Hp & entries' & Hd & Hall);
      [|done].
    split; [done|]. exists entries'. split; [done|]. intros e He.
    destruct (Hall e He) as [Hin Hnot]. apply list_elem_of_filter in Hin as [Hne Hin].
    split; [done|]. by intros [?|?]%elem_of_cons.
Qed.

Lemma clean_unfold s entries :
  cachedir (world s) = Some entries →
  clean s
  = (Println "removing old packages from cache..." ;;;
     garbage <- clean_scan (clean_filenames (pkgcache (world s))) entries [] ;;
     Println "removing unsynced packages..." ;;;
     for_range garbage (λ name,
       err <- os_RemoveAll name ;;
       match err with
       | Some e => log_Fatal e
       | None => ret tt
       end)) s.
Proof.
  intros Hdir. unfold clean. unfold bind at 1, get_state.
  unfold bind at 1, os_ReadDir, bind at 1, get_state. by rewrite Hdir.
Qed.

(** C9: when [git clean] in a mirror leaves the entries of the cache
    directory and the package database alone, then after a sweep that
    ran to its end every entry left in the cache directory satisfies
    the keep condition of line 349, and a second sweep removes nothing:
    it calls [os.RemoveAll] not once and leaves the entries as they
    are, whether its [git clean] children succeed or not. *)
Theorem sweep_idempotent s s1 :
  clean_local →
  clean s = (Ok tt, s1) →
  (∃ entries, cachedir (world s1) = Some entries ∧
     Forall (λ e, clean_keeps (clean_filenames (pkgcache (world s1))) (entry_name e) = true)
            entries) ∧
  ∃ r s2, clean s1 = (r, s2) ∧
    dir_names (world s2) = dir_names (world s1) ∧
    pkgcache (world s2) = pkgcache (world s1) ∧
    ∃ t, trace s2 = (trace s1 ++ t)%list ∧ Forall no_removal t.
Proof.
  intros Hlocal H. unfold clean in H.
  apply bind_Ok in H as (s' & s'' & [= <- <-] & H).
  apply bind_Ok in H as (files & sa & Hread & H).
  unfold os_ReadDir, bind, get_state in Hread.
  destruct (cachedir (world s)) as [entries|] eqn:Hdir; [|done].
  injection Hread as <- <-.
  apply bind_Ok in H as ([] & sb & Hp1 & H).
  apply bind_Ok in H as (garbage & sc & Hscan & H).
  apply bind_Ok in H as ([] & sd & Hp2 & H).
  apply (preserves_Println _ _ quiet_Frame) in Hp1, Hp2.
  apply kept_stores_quiet in Hp1, Hp2.
  apply clean_scan_spec in Hscan as [Hk Hg]; [|done].
  specialize (Hg garbage eq_refl). simpl in Hg.
  pose proof (kept_stores_trans _ _ _ (kept_stores_trans _ _ _ Hp1 Hk) Hp2)
    as (Hpc & Hcd & _).
  unfold dir_names in Hcd. rewrite Hdir in Hcd.
  destruct (cachedir (world sd)) as [entries_d|] eqn:Hdird; [|done].
  injection Hcd as Hnames.
  apply (remove_loop_Ok _ _ _ entries_d) in H as (Hpc1 & entries1 & Hd1 & Hall); [|done].
  assert (Hdb : pkgcache (world s1) = pkgcache (world s)) by congruence.
  assert (Hkept : Forall (λ e, clean_keeps (clean_filenames (pkgcache (world s1)))
                                           (entry_name e) = true) entries1).
  { apply Forall_forall. intros e He. destruct (Hall e He) as [Hin Hnot].
    rewrite Hdb. destruct (clean_keeps _ (entry_name e)) eqn:Hke; [done|].
    exfalso. apply Hnot. rewrite Hg. unfold garbage_of.
    apply list_elem_of_In, filter_In. split; [|by rewrite Hke].
    rewrite <- Hnames. apply in_map. by apply list_elem_of_In. }
  split; [by exists entries1|].
  destruct (clean s1) as [r s2] eqn:Hc2. exists r, s2. split; [done|].
  rewrite (clean_unfold s1 entries1 Hd1) in Hc2.
  apply bind_cases in Hc2 as [([] & ta & Hq1 & Hc2)|(r0 & Hq1 & _)];
    apply (preserves_Println _ _ quiet_Frame) in Hq1; apply kept_stores_quiet in Hq1.
  2:{ destruct Hq1 as (? & ? & ?). done. }
  assert (Hgar : garbage_of (clean_filenames (pkgcache (world s1))) entries1 = []).
  { unfold garbage_of. clear -Hkept. induction Hkept as [|e l He _ IH]; simpl; [done|].
    by rewrite He. }
  apply bind_cases in Hc2 as [(g2 & tb & Hscan2 & Hc2)|(r0 & Hscan2 & _)];
    apply clean_scan_spec in Hscan2 as [Hk2 Hg2]; try done.
  2:{ destruct (kept_stores_trans _ _ _ Hq1 Hk2) as (? & ? & ?). done. }
  rewrite (Hg2 g2 eq_refl), Hgar in Hc2. simpl in Hc2.
  apply bind_cases in Hc2 as [([] & tc & Hq2 & Hc2)|(r0 & Hq2 & _)];
    apply (preserves_Println _ _ quiet_Frame) in Hq2; apply kept_stores_quiet in Hq2.
  - injection Hc2 as <- <-.
    destruct (kept_stores_trans _ _ _ (kept_stores_trans _ _ _ Hq1 Hk2) Hq2) as (? & ? & ?).
    done.
  - destruct (kept_stores_trans _ _ _ (kept_stores_trans _ _ _ Hq1 Hk2) Hq2) as (? & ? & ?).
    done.
Qed.

End Sweep.

Section SweepRuns.
#[local] Existing Instance Sim.sim.

Lemma sim_clean_local : clean_local.
Proof.
  intros name w err out w' H. cbn in H. injection H as _ _ <-.
  split; [done|]. unfold dir_names, Sim.on_entry. simpl.
  destruct (cachedir w) as [entries|]; [|done]. simpl. f_equal.
  rewrite map_map. apply map_ext. intros e. by destruct (String.eqb _ _).
Qed.

Lemma sweep_idempotent_witness :
  (∃ entries,
     cachedir (world (snd (clean (Sim.state0 [] false false false)))) = Some entries ∧
     Forall (λ e, clean_keeps
                    (clean_filenames
                       (pkgcache (world (snd (clean (Sim.state0 [] false false false))))))
                    (entry_name e) = true) entries) ∧
  ∃ r s2, clean (snd (clean (Sim.state0 [] false false false))) = (r, s2) ∧
    dir_names (world s2)
      = dir_names (world (snd (clean (Sim.state0 [] false false false)))) ∧
    pkgcache (world s2)
      = pkgcache (world (snd (clean (Sim.state0 [] false false false)))) ∧
    ∃ t, trace s2 = (trace (snd (clean (Sim.state0 [] false false false))) ++ t)%list ∧
         Forall no_removal t.
Proof.
  apply (sweep_idempotent (Sim.state0 [] false false false)).
  - exact sim_clean_local.
  - vm_compute. reflexivity.
Defined.

End SweepRuns.

(** ** The argument parser *)

Section Parser.
Context `{E : Externals}.
Local Open Scope go_scope.

Lemma HasPrefix_dash a : GoString.HasPrefix a "-" = true → ∃ a', a = String "-" a'.
Proof.
  destruct a as [|c a]; [done|]. unfold GoString.HasPrefix.
  change (String.prefix "-" (String c a))
    with (if ascii_dec "-" c then String.prefix "" a else false).
  destruct (ascii_dec "-" c) as [<-|]; [eauto | done].
Qed.

(** C10: an argument that starts with a dash is cut at index 2.  With
    at least two bytes the cut succeeds and the rest selects the help
    text (exit 0), one of the three flags, or the fatal error "invalid
    option"; the one-byte argument ["-"] cannot be cut: [parser_option]
    panics, and so does [main] when ["-"] is its first argument. *)
Theorem parser_dash_slice a s :
  GoString.HasPrefix a "-" = true →
  ((2 ≤ GoString.len a)%nat →
   ∃ opt, GoString.slice_from 2 a = Some opt ∧
     ((opt = "help" ∧ parser_option a s = usage s ∧ fst (usage s) = Exit 0) ∨
      (opt = "devel" ∧ parser_option a s = set_devel s) ∨
      (opt = "force" ∧ parser_option a s = set_force s) ∨
      (opt = "noedit" ∧ parser_option a s = set_noedit s) ∨
      ((opt ∉ ["help"; "devel"; "force"; "noedit"]) ∧
       parser_option a s = (Fatal ("invalid option: " +:+ a), s)))) ∧
  ((GoString.len a < 2)%nat →
   a = "-" ∧
   parser_option a s = (Panic "slice bounds out of range", s) ∧
   ∀ prog rest, main (prog :: a :: rest) s = (Panic "slice bounds out of range", s)).
Proof.
  intros (a' & ->)%HasPrefix_dash. rename a' into a.
  split.
  - intros Hlen. destruct a as [|c a]; [simpl in Hlen; lia|].
    exists a. split; [done|]. unfold parser_option. simpl.
    destruct (String.eqb a "help") eqn:H1.
    { apply String.eqb_eq in H1 as ->. left. done. }
    destruct (String.eqb a "devel") eqn:H2.
    { apply String.eqb_eq in H2 as ->. right. left. done. }
    destruct (String.eqb a "force") eqn:H3.
    { apply String.eqb_eq in H3 as ->. right. right. left. done. }
    destruct (String.eqb a "noedit") eqn:H4.
    { apply String.eqb_eq in H4 as ->. right. right. right. left. done. }
    right. right. right. right. split; [|done].
    apply String.eqb_neq in H1, H2, H3, H4.
    intros Hin. repeat (apply elem_of_cons in Hin as [->|Hin]; [done|]).
    by apply elem_of_nil in Hin.
  - intros Hlen. destruct a as [|c a]; [|simpl in Hlen; lia].
    split; [done|]. split; [done|]. done.
Qed.

End Parser.

Section ParserRuns.
#[local] Existing Instance Sim.sim.

Lemma parser_dash_slice_witness :
  ((2 ≤ GoString.len "--force")%nat →
   ∃ opt, GoString.slice_from 2 "--force" = Some opt ∧
     ((opt = "help" ∧
       parser_option "--force" (Sim.state0 [] false false false)
         = usage (Sim.state0 [] false false false) ∧
       fst (usage (Sim.state0 [] false false false)) = Exit 0) ∨
      (opt = "devel" ∧
       parser_option "--force" (Sim.state0 [] false false false)
         = set_devel (Sim.state0 [] false false false)) ∨
      (opt = "force" ∧
       parser_option "--force" (Sim.state0 [] false false false)
         = set_force (Sim.state0 [] false false false)) ∨
      (opt = "noedit" ∧
       parser_option "--force" (Sim.state0 [] false false false)
         = set_noedit (Sim.state0 [] false false false)) ∨
      ((opt ∉ ["help"; "devel"; "force"; "noedit"]) ∧
       parser_option "--force" (Sim.state0 [] false false false)
         = (Fatal ("invalid option: " +:+ "--force"), Sim.state0 [] false false false)))) ∧
  ((GoString.len "--force" < 2)%nat →
   "--force" = "-" ∧
   parser_option "--force" (Sim.state0 [] false false false)
     = (Panic "slice bounds out of range", Sim.state0 [] false false false) ∧
   ∀ prog rest,
     main (prog :: "--force" :: rest) (Sim.state0 [] false false false)
       = (Panic "slice bounds out of range", Sim.state0 [] false false false)).
Proof.
  apply (parser_dash_slice "--force" (Sim.state0 [] false false false)).
  reflexivity.
Defined.

(** The one-byte argument. *)
Example dash_panics :
  GoString.HasPrefix "-" "-" = true ∧
  fst (main ["aur"; "-"] (Sim.state0 [] false false false))
    = Panic "slice bounds out of range" ∧
  fst (main ["aur"; "-x"] (Sim.state0 [] false false false))
    = Fatal "invalid option: -x".
Proof. vm_compute. done. Qed.

End ParserRuns.

(** ** Search order *)

Lemma float_ltb_lt x y : float_ltb x y = true ↔ (x < y)%Q.
Proof.
  unfold float_ltb. rewrite negb_true_iff, <- not_true_iff_false, Qle_bool_iff.
  split; [apply Qnot_le_lt | apply Qlt_not_le].
Qed.

Lemma search_less_lt a b :
  search_less a b = true ↔
  (Popularity a < Popularity b)%Q ∨
  ((Popularity a == Popularity b)%Q ∧ NumVotes a < NumVotes b).
Proof.
  unfold search_less. destruct (Qeq_bool _ _) eqn:Heq.
  - apply Qeq_bool_iff in Heq. rewrite Z.ltb_lt. split; [auto|].
    intros [Hlt|[_ Hv]]; [|done]. rewrite Heq in Hlt. by apply Qlt_irrefl in Hlt.
  - apply Qeq_bool_neq in Heq. rewrite float_ltb_lt. split; [auto|].
    intros [Hlt|[He _]]; done.
Qed.

Lemma search_less_ge a b : search_less b a = false ↔ search_le a b.
Proof.
  rewrite <- not_true_iff_false, search_less_lt. unfold search_le. split.
  - intros Hn.
    destruct (Qlt_le_dec (Popularity a) (Popularity b)) as [Hlt|Hle]; [by left|].
    right. assert (Heq : (Popularity a == Popularity b)%Q).
    { apply Qle_antisym; [|done]. apply Qnot_lt_le. intros Hlt. apply Hn. by left. }
    split; [done|]. apply Z.le_ngt. intros Hv. apply Hn. right. split; [by symmetry | lia].
  - intros [Hlt|[Heq Hv]] [Hlt'|[Heq' Hv']]; lra || lia.
Qed.

Lemma search_less_StrictWeak : StrictWeak search_less.
Proof.
  split.
  - intros x. apply not_true_iff_false. rewrite search_less_lt.
    intros [H|[_ H]]; [lra | lia].
  - intros x y z. rewrite !search_less_lt.
    intros [H1|[E1 H1]] [H2|[E2 H2]]; [left; lra | left; lra | left; lra |].
    right. split; [lra | lia].
  - intros x y z. rewrite <- !not_true_iff_false, !search_less_lt.
    intros Hxy Hyz [H|[He H]].
    + destruct (Qlt_le_dec (Popularity x) (Popularity y)) as [Hlt|Hle]; [by apply Hxy; left|].
      destruct (Qlt_le_dec (Popularity y) (Popularity z)) as [Hlt'|Hle']; [by apply Hyz; left|].
      lra.
    + destruct (Qlt_le_dec (Popularity x) (Popularity y)) as [Hlt|Hle]; [by apply Hxy; left|].
      destruct (Qlt_le_dec (Popularity y) (Popularity z)) as [Hlt'|Hle']; [by apply Hyz; left|].
      assert (E1 : (Popularity x == Popularity y)%Q) by lra.
      assert (E2 : (Popularity y == Popularity z)%Q) by lra.
      destruct (Z_lt_le_dec (NumVotes x) (NumVotes y)) as [Hv|Hv]; [by apply Hxy; right|].
      destruct (Z_lt_le_dec (NumVotes y) (NumVotes z)) as [Hv'|Hv']; [by apply Hyz; right|].
      lia.
Qed.

Lemma StronglySorted_weaken {A} (R S : A → A → Prop) l :
  (∀ x y, R x y → S x y) → StronglySorted R l → StronglySorted S l.
Proof.
  intros HRS. induction 1 as [|x l _ IH Hall]; constructor; [done|].
  eapply Forall_impl; [exact Hall | apply HRS].
Qed.

Section Search.
Context `{E : Externals}.
Local Open Scope go_scope.

Lemma search_prints l s :
  for_range l (λ r,
    print (search_line r) ;;;
    (if 0 <? OutOfDate r
     then print (" " +:+ ESC +:+ "[31m" +:+ DateOnly (OutOfDate r) +:+ ESC +:+ "[39m")
     else ret tt) ;;;
    Println (NL +:+ "    " +:+ Description r)) s
  = (Ok tt, set_stdout (stdout s ++ flat_map search_lines l)%list s).
Proof.
  revert s. induction l as [|r l IH]; intros s; simpl.
  - rewrite app_nil_r. by destruct s.
  - unfold bind at 1. unfold bind at 1, print at 1. unfold bind at 1.
    unfold search_lines at 1.
    destruct (0 <? OutOfDate r); unfold print, ret, Println, print; rewrite IH; simpl;
      unfold set_stdout; simpl; do 2 f_equal; by rewrite <- !app_assoc.
Qed.

(** C6, as the code has it: the results are printed in an order that is
    a permutation of the reply, ascending in popularity and, among
    equal popularities, ascending in votes; [sort.Slice] fixes nothing
    about results equal in both.  Three results with the keys (1, 5),
    (2, 1), (1, 2) are printed third, first, second. *)
Theorem search_sorted str res s :
  http_get (RpcSearch str) = inr res →
  ∃ out,
    search str s = (Ok tt, set_stdout (stdout s ++ flat_map search_lines out)%list s) ∧
    out ≡ₚ res ∧
    StronglySorted search_le out ∧
    ∀ a b c,
      (Popularity a == 1)%Q → NumVotes a = 5 →
      (Popularity b == 2)%Q → NumVotes b = 1 →
      (Popularity c == 1)%Q → NumVotes c = 2 →
      res = [a; b; c] → out = [c; a; b].
Proof.
  intros Hget. exists (sort_Slice search_less res).
  pose proof (sort_Slice_perm _ search_less res) as Hperm.
  pose proof (sort_Slice_sorted _ search_less res search_less_StrictWeak) as Hsorted.
  assert (Hle : StronglySorted search_le (sort_Slice search_less res)).
  { eapply StronglySorted_weaken; [|exact Hsorted].
    intros x y H. by apply search_less_ge. }
  split; [|split; [done|split; [done|]]].
  - unfold search, get, bind at 1. rewrite Hget. apply search_prints.
  - intros a b c Pa Va Pb Vb Pc Vc ->.
    apply (StronglySorted_unique_strong search_le); [|done| |].
    + intros x y Hx Hy [Hxy|[Exy Vxy]] [Hyx|[Eyx Vyx]]; try lra.
      assert (Hv : NumVotes x = NumVotes y) by lia.
      rewrite Hperm in Hx.
      repeat (apply elem_of_cons in Hx as [->|Hx]);
        repeat (apply elem_of_cons in Hy as [->|Hy]);
        try done; try (by apply elem_of_nil in Hx); try (by apply elem_of_nil in Hy);
        try lia; lra.
    + repeat match goal with
             | |- StronglySorted _ _ => constructor
             | |- Forall _ _ => constructor
             end;
        unfold search_le; first [left; lra | right; split; [lra | lia]].
    + rewrite Hperm. apply (Permutation_app_comm [a; b] [c]).
Qed.

End Search.

Section SearchRuns.
#[local] Existing Instance Sim.sim.

Lemma search_sorted_witness :
  ∃ out,
    search "" (Sim.state0 [] false false false)
      = (Ok tt, set_stdout (stdout (Sim.state0 [] false false false)
                            ++ flat_map search_lines out)%list
                           (Sim.state0 [] false false false)) ∧
    out ≡ₚ [Sim.foo_git; Sim.libbar; Sim.bar_utils; Sim.baz;
            Sim.blank] ∧
    StronglySorted search_le out ∧
    ∀ a b c,
      (Popularity a == 1)%Q → NumVotes a = 5 →
      (Popularity b == 2)%Q → NumVotes b = 1 →
      (Popularity c == 1)%Q → NumVotes c = 2 →
      [Sim.foo_git; Sim.libbar; Sim.bar_utils; Sim.baz;
       Sim.blank] = [a; b; c] →
      out = [c; a; b].
Proof.
  apply (search_sorted "" _ (Sim.state0 [] false false false)).
  vm_compute. reflexivity.
Defined.

(** The three results of the example, on this double. *)
Example search_example :
  sort_Slice search_less
    [Sim.pkg "x" "x" "1" 5 1; Sim.pkg "y" "y" "1" 1 2; Sim.pkg "z" "z" "1" 2 1]
  = [Sim.pkg "z" "z" "1" 2 1; Sim.pkg "x" "x" "1" 5 1; Sim.pkg "y" "y" "1" 1 2].
Proof. vm_compute. reflexivity. Qed.

End SearchRuns.

Section SearchOrderRuns.
#[local] Existing Instance Sim.canned.

(** Thirteen results, [tied-a] before [tied-b] in the reply and equal
    in popularity and votes: a stable sort keeps them in that order.
    [sort.Slice] takes the seventh element, [tied-b], for the pivot,
    swaps it to the front and leaves it there, so the run prints
    [tied-b] first. *)
Lemma search_stable_counterexample :
  http_get (RpcSearch "") = inr Sim.hits ∧
  length Sim.hits = 13%nat ∧
  Sim.hits !! 3%nat = Some Sim.tied_a ∧
  Sim.hits !! 6%nat = Some Sim.tied_b ∧
  search_less Sim.tied_a Sim.tied_b = false ∧
  search_less Sim.tied_b Sim.tied_a = false ∧
  stable_sort search_less Sim.hits = Sim.tied_a :: Sim.tied_b :: Sim.ranked ∧
  GoSort.pdqsort_func search_less Sim.hits = Sim.tied_b :: Sim.tied_a :: Sim.ranked ∧
  stdout (snd (search "" (Sim.state0 [] false false false)))
    = flat_map search_lines (Sim.tied_b :: Sim.tied_a :: Sim.ranked) ∧
  stdout (snd (search "" (Sim.state0 [] false false false)))
    ≠ flat_map search_lines (stable_sort search_less Sim.hits).
Proof.
  split; [reflexivity|]. split; [reflexivity|]. split; [reflexivity|].
  split; [reflexivity|]. split; [reflexivity|]. split; [reflexivity|].
  split; [vm_compute; reflexivity|]. split; [vm_compute; reflexivity|].
  split; [vm_compute; reflexivity|]. vm_compute. discriminate.
Qed.

End SearchOrderRuns.

(** ** Single steps and whole runs *)

Section RunFrames.
Context `{E : Externals}.
Variables (P : Cmd → Prop) (R : State → State → Prop).
Hypothesis HF : Frame P R.
Hypothesis Hprompt : ∀ str, preserves R (prompt str).

Lemma preserves_promptEdit src :
  P (vim_cmd src) → preserves R (promptEdit src).
Proof.
  intros Hvim. unfold promptEdit.
  apply (preserves_bind _ _ HF); [frame HF|]. intros s.
  apply (preserves_bind _ _ HF).
  { destruct (noedit s); [frame HF | apply Hprompt]. }
  intros [|]; [|frame HF].
  apply (preserves_bind _ _ HF); [by apply (preserves_cmd_Run _ _ HF)|].
  intros err. apply (preserves_check_err _ _ HF).
Qed.

Hypothesis HpromptEdit : ∀ src, preserves R (promptEdit src).
Hypothesis HPbuild : ∀ base, P (build_cmd base).
Hypothesis HPlist : ∀ base, P (list_cmd base).
Hypothesis HPadd : ∀ pkgs, P (repo_add_cmd pkgs).

Lemma preserves_build base : preserves R (build base).
Proof.
  unfold build. fold (build_cmd base) (list_cmd base).
  apply (preserves_bind _ _ HF); [by apply (preserves_cmd_Run _ _ HF)|]. intros err.
  apply (preserves_bind _ _ HF); [apply (preserves_check_err _ _ HF)|]. intros _.
  apply (preserves_bind _ _ HF); [by apply (preserves_cmd_Output _ _ HF)|].
  intros [output err']. apply (preserves_bind _ _ HF); [apply (preserves_check_err _ _ HF)|].
  intros _. apply (preserves_bind _ _ HF).
  { apply (preserves_cmd_Run _ _ HF). apply (HPadd (artifacts output)). }
  intros err''. apply (preserves_check_err _ _ HF).
Qed.

Hypothesis HPclone : ∀ base, P (clone_cmd base).

Lemma preserves_sync_unit base : preserves R (sync_unit base).
Proof.
  unfold sync_unit. fold (clone_cmd base).
  apply (preserves_bind _ _ HF); [frame HF|]. intros _.
  apply (preserves_bind _ _ HF); [frame HF|]. intros s.
  apply (preserves_bind _ _ HF).
  { destruct (os_Stat (world s) base); [frame HF|].
    apply (preserves_bind _ _ HF); [by apply (preserves_cmd_Run _ _ HF)|].
    intros err. apply (preserves_check_err _ _ HF). }
  intros _. apply (preserves_bind _ _ HF); [apply HpromptEdit|]. intros _.
  apply preserves_build.
Qed.

Hypothesis HPinspect : ∀ c, inspect_cmd c → P c.

Lemma preserves_sync names : preserves R (sync names).
Proof.
  unfold sync.
  apply (preserves_bind _ _ HF); [by apply (preserves_prepare _ _ HF)|]. intros outdated.
  apply (preserves_bind _ _ HF); [apply Hprompt|]. intros ok.
  apply (preserves_bind _ _ HF); [destruct ok; frame HF|]. intros _.
  apply (preserves_for_range _ _ HF). apply preserves_sync_unit.
Qed.

Hypothesis HPmirror : ∀ base c, c ∈ mirror_git base → P c.

Lemma mirror_git_allowed base c : c ∈ mirror_git base → preserves R (cmd_Run c).
Proof. intros Hc. apply (preserves_cmd_Run _ _ HF). by apply (HPmirror base). Qed.

Lemma preserves_update_unit base : preserves R (update_unit base).
Proof.
  unfold update_unit.
  apply (preserves_bind _ _ HF); [frame HF|]. intros _.
  apply (preserves_bind _ _ HF).
  { apply (mirror_git_allowed base). apply list_elem_of_here. }
  intros err.
  apply (preserves_bind _ _ HF); [apply (preserves_check_err _ _ HF)|]. intros _.
  apply (preserves_bind _ _ HF).
  { apply (mirror_git_allowed base). apply list_elem_of_further, list_elem_of_here. }
  intros err'.
  apply (preserves_bind _ _ HF).
  { destruct err' as [|code|msg]; try (frame HF).
    apply (preserves_bind _ _ HF).
    { destruct (code =? 1); [apply Hprompt | frame HF]. }
    intros [|]; [|frame HF].
    apply (preserves_bind _ _ HF).
    { apply (mirror_git_allowed base). do 2 apply list_elem_of_further.
      apply list_elem_of_here. }
    intros e. apply (preserves_check_err _ _ HF). }
  intros _.
  apply (preserves_bind _ _ HF).
  { apply (mirror_git_allowed base). do 3 apply list_elem_of_further.
    apply list_elem_of_here. }
  intros err''.
  apply (preserves_bind _ _ HF); [apply (preserves_check_err _ _ HF)|]. intros _.
  apply (preserves_bind _ _ HF); [apply HpromptEdit|]. intros _.
  apply preserves_build.
Qed.

Lemma preserves_update : preserves R update.
Proof.
  unfold update.
  apply (preserves_bind _ _ HF); [frame HF|]. intros s.
  apply (preserves_bind _ _ HF); [by apply (preserves_prepare _ _ HF)|]. intros outdated.
  apply (preserves_bind _ _ HF); [apply Hprompt|]. intros ok.
  apply (preserves_bind _ _ HF); [destruct ok; frame HF|]. intros _.
  apply (preserves_for_range _ _ HF). apply preserves_update_unit.
Qed.

End RunFrames.

Section PromptFrames.
Context `{E : Externals}.

Lemma prompt_extends Q str : preserves (extends Q) (prompt str).
Proof.
  intros s r s'. rewrite prompt_run. intros [= <- <-]. simpl.
  split; [|done]. exists []. by rewrite app_nil_r.
Qed.

End PromptFrames.

Section Pipelines.
Context `{E : Externals}.

Lemma bind_assoc {A B C} (m : M A) (k : A → M B) (k' : B → M C) s :
  bind (bind m k) k' s = bind m (λ a, bind (k a) k') s.
Proof. unfold bind. by destruct (m s) as [[a| | |] s1]. Qed.

Lemma bind_check_err {A} err (k : unit → M A) s :
  bind (check_err err) k s
  = match err with NoErr => k tt s | _ => (Fatal (Error err), s) end.
Proof. by destruct err. Qed.

Lemma check_err_run err s :
  check_err err s = (match err with NoErr => Ok tt | _ => Fatal (Error err) end, s).
Proof. by destruct err. Qed.

Lemma bind_cmd_Run {A} c (k : CmdErr → M A) s :
  bind (cmd_Run c) k s
  = let '(err, _, w) := run c (world s) in k err (emit (Exec c) (set_world w s)).
Proof. unfold bind, cmd_Run. by destruct (run c (world s)) as [[err out] w]. Qed.

Lemma bind_cmd_Output {A} c (k : string * CmdErr → M A) s :
  bind (cmd_Output c) k s
  = let '(err, out, w) := run c (world s) in
    k (out, err) (emit (Exec c) (set_world w s)).
Proof. unfold bind, cmd_Output. by destruct (run c (world s)) as [[err out] w]. Qed.

(** X1: [build], whatever way it ends: [repo-add] is started only after
    both [makepkg] runs have succeeded, on the artifacts of the package
    list; a failed build or a failed package list is fatal at once. *)
Theorem build_steps base s r s' :
  build base s = (r, s') →
  ∃ e1 o1 w1, run (build_cmd base) (world s) = (e1, o1, w1) ∧
    match e1 with
    | NoErr =>
        ∃ e2 output w2, run (list_cmd base) w1 = (e2, output, w2) ∧
          match e2 with
          | NoErr =>
              ∃ e3 o3 w3, run (repo_add_cmd (artifacts output)) w2 = (e3, o3, w3) ∧
                trace s' = (trace s ++ build_list base output)%list ∧
                world s' = w3 ∧
                r = match e3 with NoErr => Ok tt | _ => Fatal (Error e3) end
          | _ =>
              trace s' = (trace s ++ [Exec (build_cmd base); Exec (list_cmd base)])%list ∧
              world s' = w2 ∧ r = Fatal (Error e2)
          end
    | _ =>
        trace s' = (trace s ++ [Exec (build_cmd base)])%list ∧
        world s' = w1 ∧ r = Fatal (Error e1)
    end.
Proof.
  intros H. unfold build in H. fold (build_cmd base) (list_cmd base) in H.
  rewrite bind_cmd_Run in H.
  destruct (run (build_cmd base) (world s)) as [[e1 o1] w1] eqn:H1.
  exists e1, o1, w1. split; [done|]. rewrite bind_check_err in H.
  destruct e1; [|by injection H as <- <-..].
  rewrite bind_cmd_Output in H. simpl in H.
  destruct (run (list_cmd base) w1) as [[e2 output] w2] eqn:H2.
  exists e2, output, w2. split; [done|]. rewrite bind_check_err in H.
  destruct e2; [|injection H as <- <-; simpl; by rewrite <- app_assoc..].
  fold (artifacts output) in H. fold (repo_add_cmd (artifacts output)) in H.
  rewrite bind_cmd_Run in H. simpl in H.
  destruct (run (repo_add_cmd (artifacts output)) w2) as [[e3 o3] w3] eqn:H3.
  exists e3, o3, w3. split; [done|]. rewrite check_err_run in H.
  injection H as <- <-. simpl. split; [by rewrite <- !app_assoc|]. done.
Qed.

End Pipelines.

Section Children.
Context `{E : Externals}.

Lemma sync_event_unit c : unit_child c → sync_event (Exec c).
Proof. intros H. exists c. auto. Qed.

Lemma update_event_unit c : unit_child c → update_event (Exec c).
Proof. intros H. exists c. auto. Qed.

Lemma update_event_git base c : c ∈ mirror_git base → update_event (Exec c).
Proof. intros H. exists c. split; [done|]. right. by exists base. Qed.

(** X2: Whatever way [sync] ends, it has started nothing but inspections,
    clones, editors, builds, package lists and [repo-add]: it fetches,
    merges and removes nothing. *)
Theorem sync_children names s r s' :
  sync names s = (r, s') →
  ∃ t, trace s' = (trace s ++ t)%list ∧ Forall sync_event t.
Proof.
  intros H.
  apply (preserves_sync _ _ (extends_Frame sync_event)) in H as [Ht _]; [done|..].
  - apply prompt_extends.
  - intros src. apply (preserves_promptEdit _ _ (extends_Frame sync_event));
      [apply prompt_extends|].
    apply sync_event_unit. right. left. by exists src.
  - intros base. apply sync_event_unit. left. exists base. by left.
  - intros base. apply sync_event_unit. left. exists base. by right.
  - intros pkgs. apply sync_event_unit. right. right. left. by exists pkgs.
  - intros base. exists (clone_cmd base). split; [done|]. right. by exists base.
  - intros c Hc. apply sync_event_unit. by repeat right.
Qed.

(** X3: Whatever way [update] ends, it has started nothing but inspections,
    the four [git] commands inside a mirror, editors, builds, package
    lists and [repo-add]: a mirror is never cloned again, and nothing
    is removed. *)
Theorem update_children s r s' :
  update s = (r, s') →
  ∃ t, trace s' = (trace s ++ t)%list ∧ Forall update_event t ∧
       ∀ base, Exec (clone_cmd base) ∉ t.
Proof.
  intros H.
  apply (preserves_update _ _ (extends_Frame update_event)) in H as [(t & Ht & Hall) _].
  - exists t. split; [done|]. split; [done|]. intros base Hin.
    rewrite Forall_forall in Hall. destruct (Hall _ Hin) as (c & [= <-] & Hc).
    destruct Hc as [[(b & [Hc|Hc])|[(src & Hc)|[(pkgs & Hc)|(b & [Hc|Hc])]]]|(b & Hc)];
      try discriminate Hc.
    unfold mirror_git in Hc.
    repeat (apply elem_of_cons in Hc as [Hc|Hc]; [discriminate Hc|]).
    by apply elem_of_nil in Hc.
  - apply prompt_extends.
  - intros src. apply (preserves_promptEdit _ _ (extends_Frame update_event));
      [apply prompt_extends|].
    apply update_event_unit. right. left. by exists src.
  - intros base. apply update_event_unit. left. exists base. by left.
  - intros base. apply update_event_unit. left. exists base. by right.
  - intros pkgs. apply update_event_unit. right. right. left. by exists pkgs.
  - intros c Hc. apply update_event_unit. by repeat right.
  - intros base c Hc. by apply (update_event_git base).
Qed.

End Children.

Section NoEdit.
Context `{E : Externals}.

Lemma unedited_Frame : Frame (λ c, Path c ≠ "vim") unedited.
Proof.
  split; unfold unedited.
  - intros s _. apply (frame_refl _ _ (extends_Frame no_vim)).
  - intros s1 s2 s3 H12 H23 Hno. specialize (H12 Hno).
    eapply (frame_trans _ _ (extends_Frame no_vim)); [exact H12|].
    apply H23. destruct H12 as (_ & _ & _ & ->). done.
  - intros s out _. apply (frame_print _ _ (extends_Frame no_vim)).
  - intros s c w Hc _. apply (frame_exec _ _ (extends_Frame no_vim)).
    by intros c' [= <-].
Qed.

Lemma unasked_Frame : Frame (λ _, True) unasked.
Proof.
  split; unfold unasked; simpl; try done.
  intros s1 s2 s3 H12 H23 Hno. destruct (H12 Hno) as [Ha Hn].
  destruct (H23 Hn) as [Ha' Hn']. split; [congruence | done].
Qed.

Lemma promptEdit_noedit src s :
  noedit s = true → promptEdit src s = (Ok tt, s).
Proof. intros Hno. unfold promptEdit, bind, get_state. by rewrite Hno. Qed.

Lemma prompt_unedited str : preserves unedited (prompt str).
Proof. intros s r s' H _. exact (prompt_extends no_vim str s r s' H). Qed.

Lemma promptEdit_unedited src : preserves unedited (promptEdit src).
Proof.
  intros s r s' H Hno. rewrite promptEdit_noedit in H by done.
  injection H as _ <-. apply (frame_refl _ _ (extends_Frame no_vim)).
Qed.

Lemma promptEdit_unasked src : preserves unasked (promptEdit src).
Proof.
  intros s r s' H Hno. rewrite promptEdit_noedit in H by done.
  by injection H as _ <-.
Qed.

(** X4: With [--noedit], no run of [sync] or [update] starts the editor,
    and [sync] reads at most one answer: the one to its batch prompt. *)
Theorem noedit_never_edits names s r s' :
  noedit s = true →
  sync names s = (r, s') ∨ update s = (r, s') →
  (∃ t, trace s' = (trace s ++ t)%list ∧ Forall no_vim t) ∧
  (sync names s = (r, s') →
   answers s' = answers s ∨ answers s' = tl (answers s)).
Proof.
  intros Hno Hrun. split.
  - destruct Hrun as [H|H].
    + apply (preserves_sync _ _ unedited_Frame) in H as [Ht _]; try done.
      * apply prompt_unedited.
      * apply promptEdit_unedited.
      * intros c (base & [->| ->]); done.
    + apply (preserves_update _ _ unedited_Frame) in H as [Ht _]; try done.
      * apply prompt_unedited.
      * apply promptEdit_unedited.
      * intros c (base & [->| ->]); done.
      * intros base c Hc. unfold mirror_git in Hc.
        repeat (apply elem_of_cons in Hc as [->|Hc]; [done|]). by apply elem_of_nil in Hc.
  - clear Hrun. intros H. unfold sync in H.
    apply bind_cases in H as [(outdated & s1 & Hp & H)|(r0 & Hp & _)].
    2:{ left. by apply prepare_steady in Hp as (_ & _ & _ & ?). }
    apply prepare_steady in Hp as (_ & _ & Hn1 & Ha1).
    unfold bind at 1 in H. rewrite prompt_run in H.
    set (s2 := mkState _ _ _ _ _ _ _) in H.
    assert (Hs2 : answers s2 = tl (answers s) ∧ noedit s2 = true).
    { simpl. rewrite Ha1, Hn1. done. }
    destruct Hs2 as [Ha2 Hn2]. right. rewrite <- Ha2.
    apply bind_cases in H as [([] & s3 & Hx & H)|(r0 & Hx & _)].
    + assert (s3 = s2) as -> by (destruct (_ || _); by injection Hx).
      apply (preserves_for_range _ _ unasked_Frame) in H; [by apply H|].
      intros base. apply (preserves_sync_unit _ _ unasked_Frame); try done.
      apply promptEdit_unasked.
    + destruct (_ || _); by injection Hx as _ <-.
Qed.

End NoEdit.

Section CommandLine.
Context `{E : Externals}.

Lemma flagged_nil s : flagged [] s = s.
Proof. unfold flagged. simpl. rewrite !orb_false_r. by destruct s. Qed.

Lemma parser_option_flag a s :
  GoString.HasPrefix a "-" = true → is_flag a = true →
  parser_option a s = (Ok tt, flagged [a] s).
Proof.
  intros Hpre Hflag. unfold flagged, existsb. rewrite !orb_false_r.
  unfold is_flag in Hflag.
  assert (Hsel : ∀ opt, selects opt a = bool_decide (GoString.slice_from 2 a = Some opt)).
  { intros opt. unfold selects. by rewrite Hpre. }
  rewrite !Hsel in *. unfold parser_option.
  destruct (GoString.slice_from 2 a) as [opt|] eqn:Hs; [|done].
  repeat case_bool_decide; simplify_eq; try done; simpl;
    rewrite ?orb_false_r, ?orb_true_r; try done; by destruct s.
Qed.

Lemma flagged_cons a argv s :
  flagged argv (flagged [a] s) = flagged (a :: argv) s.
Proof.
  unfold flagged. simpl. rewrite !orb_false_r, !orb_assoc. done.
Qed.

Lemma flagged_operand a argv s :
  GoString.HasPrefix a "-" = false → flagged (a :: argv) s = flagged argv s.
Proof. intros H. unfold flagged, existsb, selects. by rewrite H. Qed.

Lemma parser_loop_flags argv args s :
  only_flags argv →
  parser_loop argv args s = (Ok (args ++ operands argv)%list, flagged argv s).
Proof.
  intros Hall. revert args s.
  induction Hall as [|a argv Ha _ IH]; intros args s; simpl.
  - by rewrite app_nil_r, flagged_nil.
  - destruct (GoString.HasPrefix a "-") eqn:Hpre; simpl.
    + unfold bind. rewrite parser_option_flag by auto.
      by rewrite IH, flagged_cons.
    + rewrite IH, <- app_assoc. by rewrite flagged_operand.
Qed.

(** X5: The parser, when every option is one of the three flags: the
    operation and its operands are the arguments without a dash, in
    their order, wherever the flags stand; each flag given is set and
    none is cleared; without any operand the run is fatal. *)
Theorem parser_flags prog argv s :
  only_flags argv →
  parser (prog :: argv) s
  = (match operands argv with
     | [] => Fatal "no operation specified"
     | op :: rest => Ok (op, rest)
     end, flagged argv s).
Proof.
  intros Hall. unfold parser, bind. rewrite parser_loop_flags by done. simpl.
  by destruct (operands argv).
Qed.

Lemma parser_loop_app pre post args s :
  only_flags pre →
  parser_loop (pre ++ post) args s
  = parser_loop post (args ++ operands pre)%list (flagged pre s).
Proof.
  intros Hall. revert args s.
  induction Hall as [|a argv Ha _ IH]; intros args s; simpl.
  - by rewrite app_nil_r, flagged_nil.
  - destruct (GoString.HasPrefix a "-") eqn:Hpre; simpl.
    + unfold bind at 1. rewrite parser_option_flag by auto.
      by rewrite IH, flagged_cons.
    + rewrite IH, <- app_assoc. by rewrite flagged_operand.
Qed.

(** X6: The first option that is no flag ends the parser, whatever follows
    it and whether or not an operation was named: [help] prints the
    usage text and exits with status 0, anything else is fatal as an
    invalid option.  Flags in front of it have been set, nothing else
    has happened. *)
Theorem parser_first_other_option prog pre a opt post s :
  only_flags pre →
  GoString.HasPrefix a "-" = true →
  GoString.slice_from 2 a = Some opt →
  opt ∉ ["devel"; "force"; "noedit"] →
  parser (prog :: pre ++ a :: post) s
  = if String.eqb opt "help"
    then (Exit 0, set_stdout (stdout s ++ [usage_text +:+ NL])%list (flagged pre s))
    else (Fatal ("invalid option: " +:+ a), flagged pre s).
Proof.
  intros Hall Hpre Hs Hopt. unfold parser, bind at 1.
  rewrite parser_loop_app by done. simpl. rewrite Hpre.
  unfold bind at 1. unfold parser_option. rewrite Hs.
  destruct (String.eqb opt "help") eqn:H1; [done|].
  destruct (String.eqb opt "devel") eqn:H2.
  { apply String.eqb_eq in H2 as ->. destruct Hopt. set_solver. }
  destruct (String.eqb opt "force") eqn:H3.
  { apply String.eqb_eq in H3 as ->. destruct Hopt. set_solver. }
  destruct (String.eqb opt "noedit") eqn:H4.
  { apply String.eqb_eq in H4 as ->. destruct Hopt. set_solver. }
  done.
Qed.

(** X7: [main] with flags only: the operation is the first argument
    without a dash and runs after every flag has been set, also the
    flags that stand behind it or between its operands; [search] gets
    its operands joined without a separator; any other word is fatal as
    an unknown operation. *)
Theorem main_dispatch prog argv op rest s :
  only_flags argv →
  operands argv = op :: rest →
  main (prog :: argv) s = operation op rest (flagged argv s).
Proof.
  intros Hall Hop. unfold main, bind at 1.
  assert (Hp : parser (prog :: argv) s = (Ok (op, rest), flagged argv s)).
  { unfold parser, bind. rewrite parser_loop_flags by done. simpl. by rewrite Hop. }
  by rewrite Hp.
Qed.

End CommandLine.

Section SweepOrder.
Context `{E : Externals}.




End SweepOrder.

Section SweepExact.
Context `{E : Externals}.

Lemma names_remove name entries :
  map entry_name (filter (λ e, entry_name e ≠ name) entries)
  = List.filter (λ n, negb (String.eqb n name)) (map entry_name entries).
Proof.
  induction entries as [|e entries IH]; [done|]. rewrite filter_cons. simpl.
  case_decide as Hn.
  - apply String.eqb_neq in Hn. rewrite Hn. simpl. by rewrite IH.
  - apply String.eqb_eq in Hn. by rewrite Hn.
Qed.

Lemma clean_remove_names garbage s s' names :
  clean_remove garbage s = (Ok tt, s') →
  dir_names (world s) = Some names →
  dir_names (world s')
    = Some (List.filter (λ n, negb (existsb (String.eqb n) garbage)) names) ∧
  pkgcache (world s') = pkgcache (world s).
Proof.
  revert s names. induction garbage as [|name garbage IH]; intros s names H Hdir.
  - injection H as <-. split; [|done]. rewrite Hdir. f_equal. simpl.
    clear. induction names as [|n names IH]; [done|]. simpl. by rewrite <- IH.
  - unfold clean_remove in H. simpl in H. fold (clean_remove garbage) in H.
    apply bind_Ok in H as ([] & s1 & Hrm & H).
    apply bind_Ok in Hrm as (err & s0 & Hrm & Herr).
    destruct err as [e|]; [done|]. injection Herr as <-.
    unfold os_RemoveAll in Hrm. unfold dir_names in Hdir.
    destruct (cachedir (world s)) as [entries|] eqn:Hc; [|done].
    injection Hdir as <-.
    destruct (existsb _ entries); [done|]. injection Hrm as <-.
    apply (IH _ (List.filter (λ n, negb (String.eqb n name)) (map entry_name entries)))
      in H as [Hd Hp].
    2:{ unfold dir_names. simpl. by rewrite names_remove. }
    split; [|done]. rewrite Hd. f_equal. clear.
    induction (map entry_name entries) as [|n names IH]; [done|]. simpl.
    destruct (String.eqb n name); simpl; [done|].
    destruct (existsb (String.eqb n) garbage); simpl; [done|]. by rewrite IH.
Qed.

Lemma garbage_of_mem filenames files n :
  existsb (String.eqb n) (garbage_of filenames files) = true →
  clean_keeps filenames n = false.
Proof.
  intros (x & Hin & ->%String.eqb_eq)%existsb_exists.
  unfold garbage_of in Hin. apply filter_In in Hin as [_ Hk].
  by apply negb_true_iff in Hk.
Qed.

Lemma garbage_of_complement filenames files :
  List.filter (λ n, negb (existsb (String.eqb n) (garbage_of filenames files)))
              (map entry_name files)
  = List.filter (clean_keeps filenames) (map entry_name files).
Proof.
  apply filter_ext_in. intros n Hin.
  destruct (existsb _ _) eqn:Hex; simpl.
  - by rewrite (garbage_of_mem _ _ _ Hex).
  - destruct (clean_keeps filenames n) eqn:Hk; [done|].
    assert (existsb (String.eqb n) (garbage_of filenames files) = true); [|congruence].
    apply existsb_exists. exists n. split; [|apply String.eqb_refl].
    unfold garbage_of. apply filter_In. by rewrite Hk.
Qed.

Lemma clean_filenames_mem db n (X : gset string) :
  n ∈ foldl (λ filenames pkg,
               {[alpm_pkg_get_filename pkg]} ∪ ({[alpm_pkg_get_base pkg]} ∪ filenames))
            X db
  ↔ n ∈ X ∨ existsb (λ pkg, String.eqb n (alpm_pkg_get_base pkg)
                            || String.eqb n (alpm_pkg_get_filename pkg)) db = true.
Proof.
  revert X. induction db as [|pkg db IH]; intros X; simpl.
  - split; [by left | by intros [?|?]].
  - rewrite IH, !elem_of_union, !elem_of_singleton, !orb_true_iff, !String.eqb_eq. tauto.
Qed.

(** The keep set that [clean] collects holds the bases and the file
    names of the packages of the database, and nothing else. *)
Lemma clean_keeps_kept_name db n :
  clean_keeps (clean_filenames db) n = kept_name db n.
Proof.
  unfold clean_keeps, kept_name, clean_filenames. f_equal.
  apply eq_true_iff_eq. rewrite bool_decide_eq_true, clean_filenames_mem.
  split; [by intros [?%elem_of_empty|?] | by right].
Qed.

(** X9: A sweep that runs to its end removes all and only the entries that
    fail the keep condition: when [git clean] leaves the directory
    listing and the database alone, the cache directory afterwards
    lists, in their old order, exactly the entries whose name is the
    base or the file name of a package of the database, or starts with
    ["aur."]; the database is as before. *)
Theorem clean_keeps_exactly s s' files :
  clean_local →
  cachedir (world s) = Some files →
  clean s = (Ok tt, s') →
  dir_names (world s')
    = Some (List.filter (kept_name (pkgcache (world s))) (map entry_name files)) ∧
  pkgcache (world s') = pkgcache (world s).
Proof.
  intros Hlocal Hdir H. rewrite (clean_unfold s files Hdir) in H.
  fold clean_remove in H.
  apply bind_Ok in H as ([] & sb & Hp1 & H).
  apply bind_Ok in H as (garbage & sc & Hscan & H).
  apply bind_Ok in H as ([] & sd & Hp2 & H).
  apply (preserves_Println _ _ quiet_Frame) in Hp1, Hp2.
  apply kept_stores_quiet in Hp1, Hp2.
  apply clean_scan_spec in Hscan as [Hk Hg]; [|done].
  specialize (Hg garbage eq_refl). simpl in Hg. subst garbage.
  pose proof (kept_stores_trans _ _ _ (kept_stores_trans _ _ _ Hp1 Hk) Hp2)
    as (Hpc & Hcd & _).
  apply (clean_remove_names _ _ _ (map entry_name files)) in H as [Hd Hp].
  - rewrite Hd, garbage_of_complement. split; [|congruence].
    f_equal. apply filter_ext. intros n. apply clean_keeps_kept_name.
  - rewrite Hcd. unfold dir_names. by rewrite Hdir.
Qed.

End SweepExact.


Section Registry.
Context `{E : Externals}.

Lemma preserves_get R u : (∀ s, R s s) → preserves R (get u).
Proof.
  intros Hrefl s r s' H. unfold get in H.
  destruct (http_get u); injection H as <- <-; apply Hrefl.
Qed.

Lemma search_quiet str : preserves quiet (search str).
Proof.
  unfold search.
  apply (preserves_bind _ _ quiet_Frame).
  { apply preserves_get, (frame_refl _ _ quiet_Frame). }
  intros res. apply (preserves_for_range _ _ quiet_Frame). intros r.
  apply (preserves_bind _ _ quiet_Frame); [frame quiet_Frame|]. intros _.
  apply (preserves_bind _ _ quiet_Frame).
  { destruct (0 <? OutOfDate r); frame quiet_Frame. }
  intros _. apply (preserves_Println _ _ quiet_Frame).
Qed.

Lemma search_loop_Ok (res : list Package) s :
  fst (for_range res (λ r,
         print (search_line r) ;;;
         (if 0 <? OutOfDate r
          then print (" " +:+ ESC +:+ "[31m" +:+ DateOnly (OutOfDate r) +:+ ESC +:+ "[39m")
          else ret tt) ;;;
         Println (NL +:+ "    " +:+ Description r)) s) = Ok tt.
Proof.
  revert s. induction res as [|r res IH]; intros s; [done|]. simpl.
  unfold bind at 1 2, print at 1. unfold bind at 1.
  destruct (0 <? OutOfDate r); simpl; apply IH.
Qed.

(** X10: [search] only asks the registry and prints: it starts no child,
    reads no answer and leaves the stores and the flags as they are.
    An answer from the registry is printed and the call returns; an
    error of the registry is fatal with nothing printed. *)
Theorem search_read_only str s :
  quiet s (snd (search str s)) ∧
  match http_get (RpcSearch str) with
  | inl err => search str s = (Fatal err, s)
  | inr res => fst (search str s) = Ok tt
  end.
Proof.
  split.
  - apply (search_quiet str s (fst (search str s))). by destruct (search str s).
  - unfold search, bind at 1, get.
    destruct (http_get (RpcSearch str)) as [err|res]; [done|]. simpl.
    apply search_loop_Ok.
Qed.

(** X11: An error of the registry on the info request ends [prepare], and
    with it [sync] and [update], in [log.Fatal] with that error, after
    the one line that announces the request: nothing is compared, no
    child is started and no answer is read. *)
Theorem registry_error_fatal names s :
  match http_get (RpcInfo names) with
  | inl err =>
      let s1 := set_stdout (stdout s ++ [fetching_line])%list s in
      prepare names s = (Fatal err, s1) ∧
      sync names s = (Fatal err, s1) ∧
      (names = map alpm_pkg_get_name (pkgcache (world s)) → update s = (Fatal err, s1))
  | inr res => ∃ s1, fetch names s = (Ok res, s1)
  end.
Proof.
  destruct (http_get (RpcInfo names)) as [err|res] eqn:Hget.
  - assert (Hp : prepare names s
                 = (Fatal err, set_stdout (stdout s ++ [fetching_line])%list s)).
    { unfold prepare, prepare_reconcile, fetch, bind, Println, print, get. simpl.
      by rewrite Hget. }
    simpl. split; [done|]. split.
    + unfold sync, bind at 1. by rewrite Hp.
    + intros ->. unfold update, bind at 1, get_state. unfold bind at 1. by rewrite Hp.
  - unfold fetch, bind, Println, print, get. simpl. rewrite Hget. eauto.
Qed.

End Registry.

Section Inspection.
Context `{E : Externals}.

Lemma VCSVersion_fill_run fields version s :
  VCSVersion_fill fields version s
  = (if forallb matches fields
     then Ok (foldl (λ version o,
                       match FindStringSubmatch o with
                       | Some (m1, m2) => <[m1 := m2]> version
                       | None => version
                       end) version fields)
     else Panic "index out of range [1] with length 0", s).
Proof.
  revert version. induction fields as [|o fields IH]; intros version; [done|].
  simpl. unfold matches at 1.
  destruct (FindStringSubmatch o) as [[m1 m2]|]; [|done]. simpl. apply IH.
Qed.

(** X12: [VCSVersion], whatever way it ends.  A failure of either child is
    fatal, and after a failure of the first the second is not started.
    When both succeed, the output is cut at every space; if every field
    matches the artifact pattern the result is the map from the names to
    the versions matched, and one field that does not match makes the
    program panic, with both children already run. *)
Theorem VCSVersion_steps base s r s' :
  VCSVersion base s = (r, s') →
  ∃ e1 o1 w1, run (inspect_build base) (world s) = (e1, o1, w1) ∧
    match e1 with
    | NoErr =>
        ∃ e2 output w2, run (list_cmd base) w1 = (e2, output, w2) ∧
          trace s' = (trace s ++ inspect_list base)%list ∧
          world s' = w2 ∧
          match e2 with
          | NoErr =>
              r = if forallb matches (GoString.Split output " ")
                  then Ok (vcs_map (GoString.Split output " "))
                  else Panic "index out of range [1] with length 0"
          | _ => r = Fatal (Error e2)
          end
    | _ =>
        trace s' = (trace s ++ [Exec (inspect_build base)])%list ∧
        world s' = w1 ∧ r = Fatal (Error e1)
    end.
Proof.
  intros H. unfold VCSVersion in H. fold (inspect_build base) (list_cmd base) in H.
  rewrite bind_cmd_Run in H.
  destruct (run (inspect_build base) (world s)) as [[e1 o1] w1] eqn:H1.
  exists e1, o1, w1. split; [done|]. rewrite bind_check_err in H.
  destruct e1; [|by injection H as <- <-..].
  rewrite bind_cmd_Output in H. simpl in H.
  destruct (run (list_cmd base) w1) as [[e2 output] w2] eqn:H2.
  exists e2, output, w2. split; [done|]. rewrite bind_check_err in H.
  destruct e2; [|injection H as <- <-; simpl; by rewrite <- app_assoc..].
  rewrite VCSVersion_fill_run in H. injection H as <- <-. simpl.
  by rewrite <- app_assoc.
Qed.

Lemma vcs_fold_absent n fields (m : gmap string string) :
  Forall (λ o, ¬ names_pkg n o) fields →
  foldl (λ version o,
           match FindStringSubmatch o with
           | Some (m1, m2) => <[m1 := m2]> version
           | None => version
           end) m fields !! n = m !! n.
Proof.
  intros Hall. revert m. induction Hall as [|o fields Ho _ IH]; intros m; [done|].
  simpl. rewrite IH. destruct (FindStringSubmatch o) as [[m1 m2]|] eqn:Hf; [|done].
  apply lookup_insert_ne. intros ->. apply Ho. by exists m2.
Qed.

(** X13: Which version the development override compares.  For an
    installed package whose name ends in [-git], under [devel], the
    version is looked up by the package's name among the fields of the
    package list: the last field that names the package gives the
    version, and when no field names it the version compared is the
    empty string. *)
Theorem devel_version_lookup db r s c s' pkg :
  alpm_db_get_pkg db (Name r) = Some pkg →
  devel s && GoString.HasSuffix (Name r) "-git" = true →
  prepare_local db r s = (Ok c, s') →
  ∃ o1 w1 output,
    run (inspect_build (PackageBase r)) (world s) = (NoErr, o1, w1) ∧
    run (list_cmd (PackageBase r)) w1 = (NoErr, output, world s') ∧
    (Forall (λ o, ¬ names_pkg (Name r) o) (GoString.Split output " ") →
     Version c = "") ∧
    (∀ pre o post v,
       GoString.Split output " " = (pre ++ o :: post)%list →
       FindStringSubmatch o = Some (Name r, v) →
       Forall (λ o', ¬ names_pkg (Name r) o') post →
       Version c = v).
Proof.
  intros Hpkg Hdev H. apply prepare_local_Ok in H as (_ & _ & H).
  rewrite Hpkg, Hdev in H. destruct H as (_ & version & Hv & ->).
  apply VCSVersion_Ok in Hv as (o1 & w1 & output & H1 & H2 & -> & _).
  exists o1, w1, output. split; [done|]. split; [done|]. unfold vcs_map. split.
  - intros Hall. by rewrite vcs_fold_absent.
  - intros pre o post v -> Ho Hall. rewrite foldl_app. simpl. rewrite Ho.
    rewrite vcs_fold_absent by done. by simplify_map_eq.
Qed.

End Inspection.

Section Sequence.
Context `{E : Externals}.

Lemma stopped_not_Ok {A B} (r0 : Res A) (r : Res B) b : stopped r0 r → r ≠ Ok b.
Proof. intros Hst ->. by destruct r0. Qed.

(** A loop over distinct units goes through them in order and stops at
    the first that fails: the units in front of it have been built,
    those behind it have not been started. *)
Lemma for_range_stops (body : string → M unit) l s r s' :
  (∀ base, unit_spec base (body base)) → NoDup l →
  for_range l body s = (r, s') →
  ∃ built rest, l = (built ++ rest)%list ∧
    (∀ x, x ∈ built → builds x s' = S (builds x s)) ∧
    (∀ x, x ∈ tl rest → builds x s' = builds x s) ∧
    (r = Ok tt ↔ rest = []).
Proof.
  intros Hbody. revert s. induction l as [|x l IH]; intros s Hnd H; simpl in H.
  - injection H as <- <-. exists [], []. split; [done|].
    split; [by intros x ?%elem_of_nil|]. split; [by intros x ?%elem_of_nil | done].
  - apply NoDup_cons in Hnd as [Hx Hnd].
    apply bind_cases in H as [([] & s1 & Hx1 & Hl)|(r0 & Hx1 & Hst)].
    + destruct (Hbody x _ _ _ Hx1) as (H1 & H2 & H3). specialize (H3 eq_refl).
      pose proof (for_range_units body _ _ _ _ Hbody Hnd Hl) as Hrest.
      destruct (IH _ Hnd Hl) as (built & rest & -> & Hdone & Htl & Hr).
      exists (x :: built), rest. split; [done|]. split; [|split; [|done]].
      * intros y [->|Hy]%elem_of_cons.
        -- destruct (Hrest x) as [Hle _]. rewrite decide_False in Hle by done. lia.
        -- rewrite (Hdone y Hy), H1; [done|]. intros ->. apply Hx.
           apply elem_of_app. by left.
      * intros y Hy. rewrite (Htl y Hy), H1; [done|]. intros ->. apply Hx.
        apply elem_of_app. right. destruct rest; [by apply elem_of_nil in Hy|].
        by apply list_elem_of_further.
    + destruct (Hbody x _ _ _ Hx1) as (H1 & H2 & H3).
      exists [], (x :: l). split; [done|]. split; [by intros y ?%elem_of_nil|].
      split; [|split; [intros Hr; by destruct (stopped_not_Ok _ _ tt Hst) | done]].
      simpl. intros y Hy. apply H1. by intros ->.
Qed.

Lemma orchestrate_stops (body : string → M unit) str outdated s r s' :
  (∀ base, unit_spec base (body base)) →
  accepts (hd "" (answers s)) = true →
  (ok <- prompt str ;;
   (if ok : bool then ret tt else os_Exit 1) ;;;
   for_range (map_range (collect_bases outdated)) body) s = (r, s') →
  ∃ built rest, map_range (collect_bases outdated) = (built ++ rest)%list ∧
    (∀ x, x ∈ built → builds x s' = S (builds x s)) ∧
    (∀ x, x ∈ tl rest → builds x s' = builds x s) ∧
    (r = Ok tt ↔ rest = []).
Proof.
  intros Hbody Hyes H. unfold bind at 1 in H. rewrite prompt_run in H.
  unfold accepts in Hyes. rewrite Hyes in H.
  unfold bind at 1 in H. simpl in H.
  apply for_range_stops in H; [done.. |].
  rewrite map_range_perm. apply NoDup_elements.
Qed.

(** X14: No rollback and no skipping.  Once the batch prompt is accepted,
    [sync] and [update] take the units one after the other; a unit
    that fails ends the run: every unit in front of it has been built
    (and stays built), no unit behind it has been started, and the run
    returns only when no unit is left. *)
Theorem units_stop_at_failure names outdated s s1 r s' :
  prepare names s = (Ok outdated, s1) →
  accepts (hd "" (answers s1)) = true →
  (sync names s = (r, s') ∨
   (names = map alpm_pkg_get_name (pkgcache (world s)) ∧ update s = (r, s'))) →
  ∃ built rest, map_range (collect_bases outdated) = (built ++ rest)%list ∧
    (∀ x, x ∈ built → builds x s' = S (builds x s)) ∧
    (∀ x, x ∈ tl rest → builds x s' = builds x s) ∧
    (r = Ok tt ↔ rest = []).
Proof.
  intros Hp Hyes H.
  assert (Hb : ∀ b, builds b s1 = builds b s).
  { intros b. apply extends_no_build. by apply (prepare_no_build names _ _ _ Hp). }
  assert (Hrun : ∃ body str, (∀ base, unit_spec base (body base)) ∧
    (ok <- prompt str ;;
     (if ok : bool then ret tt else os_Exit 1) ;;;
     for_range (map_range (collect_bases outdated)) body) s1 = (r, s')).
  { destruct H as [H|[-> H]].
    - exists sync_unit, "Proceed with synchronising?". split; [apply sync_unit_spec|].
      unfold sync, bind at 1 in H. by rewrite Hp in H.
    - exists update_unit, "Proceed with updating?". split; [apply update_unit_spec|].
      unfold update, bind at 1, get_state in H. unfold bind at 1 in H.
      by rewrite Hp in H. }
  destruct Hrun as (body & str & Hbody & Hrun).
  apply orchestrate_stops in Hrun as (built & rest & Hl & Hdone & Htl & Hr); [|done..].
  exists built, rest. split; [done|]. split; [|split; [|done]].
  - intros x Hx. by rewrite <- Hb, Hdone.
  - intros x Hx. by rewrite <- Hb, Htl.
Qed.

(** X15: With [force], a [sync] that returns has built, once, the unit
    of every record the registry sent, whether or not the package is
    installed and whatever the two versions are. *)
Theorem forced_sync_builds_all names res s s' r :
  http_get (RpcInfo names) = inr res →
  force s = true →
  sync names s = (Ok tt, s') →
  r ∈ res →
  builds (PackageBase r) s' = S (builds (PackageBase r) s).
Proof.
  intros Hget Hforce H Hr. unfold sync in H.
  apply bind_Ok in H as (out & s1 & Hp & H).
  pose proof (extends_no_build _ _ (PackageBase r) (prepare_no_build names _ _ _ Hp)) as Hb.
  destruct (orchestrate_units sync_unit _ _ _ _ _ sync_unit_spec H (PackageBase r))
    as [_ Hok].
  rewrite (Hok eq_refl), Hb. rewrite decide_True; [lia|].
  apply prepare_Ok in Hp as (outdated & s0 & Hrec & _ & -> & _).
  apply prepare_reconcile_Ok in Hrec as (res' & recs & Hget' & Hcmp & ->).
  rewrite Hget in Hget'. injection Hget' as <-.
  rewrite sort_Slice_perm.
  assert (Hall : List.filter (is_outdated (force s)) recs = recs).
  { rewrite Hforce. clear. induction recs as [|c recs IH]; [done|]. simpl. by rewrite IH. }
  rewrite Hall.
  assert (Hbases : PackageBase <$> recs = PackageBase <$> res).
  { clear -Hcmp. induction Hcmp as [|x y l l' Hxy _ IH]; [done|].
    rewrite !fmap_cons. f_equal; [|done].
    by apply compared_reconciled in Hxy as (_ & -> & _). }
  rewrite Hbases. apply list_elem_of_fmap. by exists r.
Qed.

End Sequence.

Section UnitSteps.
Context `{E : Externals}.

Lemma edit_build_extends Q src base :
  Q (Exec (vim_cmd src)) → Q (Exec (build_cmd base)) → Q (Exec (list_cmd base)) →
  (∀ pkgs, Q (Exec (repo_add_cmd pkgs))) →
  preserves (extends Q) (promptEdit src ;;; build base).
Proof.
  intros Hvim Hbuild Hlist Hadd.
  apply (preserves_bind _ _ (extends_Frame Q)).
  - apply (preserves_promptEdit _ _ (extends_Frame Q)); [apply prompt_extends | done].
  - intros _. unfold build. fold (build_cmd base) (list_cmd base).
    pose proof (extends_Frame Q) as HF.
    apply (preserves_bind _ _ HF); [by apply (preserves_cmd_Run _ _ HF)|]. intros err.
    apply (preserves_bind _ _ HF); [apply (preserves_check_err _ _ HF)|]. intros _.
    apply (preserves_bind _ _ HF); [by apply (preserves_cmd_Output _ _ HF)|].
    intros [output err']. apply (preserves_bind _ _ HF); [apply (preserves_check_err _ _ HF)|].
    intros _. apply (preserves_bind _ _ HF).
    { apply (preserves_cmd_Run _ _ HF). apply (Hadd (artifacts output)). }
    intros err''. apply (preserves_check_err _ _ HF).
Qed.

Lemma edit_build_no_clone base :
  preserves (extends no_clone) (promptEdit (path_Join [pkgdest; base]) ;;; build base).
Proof. apply edit_build_extends; try intros pkgs; by intros b. Qed.

(** X16: [sync] clones a unit exactly when its mirror is missing from the
    cache directory: with the mirror in place no clone is started and
    the unit is edited and built from the mirror as it is; without it
    the clone is the first child, and when the clone fails the run is
    fatal with nothing else started and no answer read. *)
Theorem sync_unit_clone base s r s' :
  sync_unit base s = (r, s') →
  if os_Stat (world s) base
  then ∃ t, trace s' = (trace s ++ t)%list ∧ Forall no_clone t
  else ∃ e o w, run (clone_cmd base) (world s) = (e, o, w) ∧
       ∃ t, trace s' = (trace s ++ Exec (clone_cmd base) :: t)%list ∧
            Forall no_clone t ∧
            (e ≠ NoErr →
             t = [] ∧ r = Fatal (Error e) ∧ answers s' = answers s ∧ world s' = w).
Proof.
  intros H. unfold sync_unit in H. fold (clone_cmd base) in H.
  unfold bind at 1, print in H. unfold bind at 1, get_state in H. simpl in H.
  set (s1 := mkState _ _ _ _ _ _ _) in H.
  destruct (os_Stat (world s) base).
  - unfold bind at 1 in H. simpl in H.
    apply edit_build_no_clone in H as [Ht _]. exact Ht.
  - rewrite bind_assoc, bind_cmd_Run in H. simpl in H.
    destruct (run (clone_cmd base) (world s)) as [[e o] w] eqn:Hrun.
    exists e, o, w. split; [done|]. rewrite bind_check_err in H.
    destruct e.
    + apply edit_build_no_clone in H as [(t & Ht & Hall) _]. simpl in Ht.
      exists t. rewrite Ht, <- app_assoc. done.
    + injection H as <- <-. exists []. simpl. done.
    + injection H as <- <-. exists []. simpl. done.
Qed.

Lemma merge_step base s0 s r s' pre :
  (err <- cmd_Run (merge_cmd base) ;;
   check_err err ;;;
   promptEdit (path_Join [pkgdest; base]) ;;;
   build base) s = (r, s') →
  trace s = (trace s0 ++ pre)%list →
  merges base s0 r s' (world s) pre.
Proof.
  intros H Ht. rewrite bind_cmd_Run in H.
  destruct (run (merge_cmd base) (world s)) as [[e o] w'] eqn:Hrun.
  exists e, o, w'. split; [done|]. rewrite bind_check_err in H.
  destruct e.
  - apply (edit_build_extends (λ _, True)) in H as [(t & Ht' & _) _]; try done.
    simpl in Ht'. exists t. rewrite Ht', Ht, <- !app_assoc. done.
  - injection H as <- <-. exists []. simpl. by rewrite Ht, <- app_assoc.
  - injection H as <- <-. exists []. simpl. by rewrite Ht, <- app_assoc.
Qed.

(** X17: One unit of [update], whatever way it ends.  A failed [git fetch]
    is fatal at once.  The diff is shown exactly when the quiet diff
    exits with status 1 and the user accepts; a failed display is
    fatal.  In every other case, also when the quiet diff fails in
    another way or the user declines, the run goes on with
    [git merge], and a failed merge is fatal before the editor or the
    build is started. *)
Theorem update_unit_steps base s r s' :
  update_unit base s = (r, s') →
  ∃ e1 o1 w1, run (fetch_cmd base) (world s) = (e1, o1, w1) ∧
    match e1 with
    | NoErr =>
        ∃ e2 o2 w2, run (diff_cmd base) w1 = (e2, o2, w2) ∧
          if differs e2 && accepts (hd "" (answers s))
          then ∃ e3 o3 w3, run (show_cmd base) w2 = (e3, o3, w3) ∧
                 match e3 with
                 | NoErr =>
                     merges base s r s' w3
                            [Exec (fetch_cmd base); Exec (diff_cmd base);
                             Exec (show_cmd base)]
                 | _ =>
                     r = Fatal (Error e3) ∧ world s' = w3 ∧
                     trace s' = (trace s ++ [Exec (fetch_cmd base); Exec (diff_cmd base);
                                             Exec (show_cmd base)])%list
                 end
          else merges base s r s' w2 [Exec (fetch_cmd base); Exec (diff_cmd base)]
    | _ =>
        r = Fatal (Error e1) ∧ world s' = w1 ∧ answers s' = answers s ∧
        trace s' = (trace s ++ [Exec (fetch_cmd base)])%list
    end.
Proof.
  intros H. unfold update_unit in H.
  fold (fetch_cmd base) (diff_cmd base) (show_cmd base) (merge_cmd base) in H.
  unfold bind at 1, print in H. rewrite bind_cmd_Run in H. simpl in H.
  destruct (run (fetch_cmd base) (world s)) as [[e1 o1] w1] eqn:H1.
  exists e1, o1, w1. split; [done|]. rewrite bind_check_err in H.
  destruct e1; [|by injection H as <- <-..].
  rewrite bind_cmd_Run in H. simpl in H.
  destruct (run (diff_cmd base) w1) as [[e2 o2] w2] eqn:H2.
  exists e2, o2, w2. split; [done|].
  destruct e2 as [|code|msg]; simpl.
  - unfold bind at 1 in H. simpl in H.
    apply (merge_step base s _ _ _ [Exec (fetch_cmd base); Exec (diff_cmd base)]) in H; [done|]. simpl. by rewrite <- app_assoc.
  - rewrite bind_assoc in H. destruct (code =? 1) eqn:Hcode; simpl.
    + unfold bind at 1 in H. rewrite prompt_run in H. simpl in H.
      fold (accepts (hd "" (answers s))) in H.
      destruct (accepts (hd "" (answers s))).
      * rewrite bind_assoc, bind_cmd_Run in H. simpl in H.
        destruct (run (show_cmd base) w2) as [[e3 o3] w3] eqn:H3.
        exists e3, o3, w3. split; [done|]. rewrite bind_check_err in H.
        destruct e3.
        -- apply (merge_step base s _ _ _ [Exec (fetch_cmd base); Exec (diff_cmd base); Exec (show_cmd base)]) in H; [done|].
           simpl. by rewrite <- !app_assoc.
        -- injection H as <- <-. simpl. by rewrite <- !app_assoc.
        -- injection H as <- <-. simpl. by rewrite <- !app_assoc.
      * unfold bind at 1 in H. simpl in H.
        apply (merge_step base s _ _ _ [Exec (fetch_cmd base); Exec (diff_cmd base)]) in H; [done|]. simpl. by rewrite <- !app_assoc.
    + unfold bind at 1 2 in H. simpl in H.
      apply (merge_step base s _ _ _ [Exec (fetch_cmd base); Exec (diff_cmd base)]) in H; [done|]. simpl. by rewrite <- !app_assoc.
  - unfold bind at 1 in H. simpl in H.
    apply (merge_step base s _ _ _ [Exec (fetch_cmd base); Exec (diff_cmd base)]) in H; [done|]. simpl. by rewrite <- app_assoc.
Qed.

End UnitSteps.

Section Table.
Context `{E : Externals}.

Lemma ltb_irrefl x : GoString.ltb x x = false.
Proof.
  unfold GoString.ltb.
  pose proof (proj2 (OrderedTypeEx.String_as_OT.cmp_eq x x) eq_refl) as H.
  unfold OrderedTypeEx.String_as_OT.cmp in H. by rewrite H.
Qed.

Lemma ltb_lt x y : GoString.ltb x y = true ↔ OrderedTypeEx.String_as_OT.lt x y.
Proof.
  rewrite <- OrderedTypeEx.String_as_OT.cmp_lt. unfold GoString.ltb.
  unfold OrderedTypeEx.String_as_OT.cmp. by destruct (String.compare x y).
Qed.

Lemma ltb_trans x y z :
  GoString.ltb x y = true → GoString.ltb y z = true → GoString.ltb x z = true.
Proof.
  rewrite !ltb_lt. apply OrderedTypeEx.String_as_OT.lt_trans.
Qed.

Lemma ltb_total x y : GoString.ltb x y = false → x = y ∨ GoString.ltb y x = true.
Proof.
  unfold GoString.ltb. rewrite (String.compare_antisym y x).
  destruct (String.compare x y) eqn:Hc; try done.
  - left. by apply String.compare_eq_iff.
  - by right.
Qed.

Lemma name_less_StrictWeak : StrictWeak name_less.
Proof.
  unfold name_less. split.
  - intros x. apply ltb_irrefl.
  - intros x y z. apply ltb_trans.
  - intros x y z Hxy Hyz. destruct (GoString.ltb (Name x) (Name z)) eqn:Hxz; [|done].
    apply ltb_total in Hxy as [Hxy|Hxy], Hyz as [Hyz|Hyz].
    + rewrite Hxy, Hyz in Hxz. by rewrite ltb_irrefl in Hxz.
    + rewrite Hxy in Hxz. pose proof (ltb_trans _ _ _ Hxz Hyz) as H.
      by rewrite ltb_irrefl in H.
    + rewrite <- Hyz in Hxz. pose proof (ltb_trans _ _ _ Hxz Hxy) as H.
      by rewrite ltb_irrefl in H.
    + pose proof (ltb_trans _ _ _ (ltb_trans _ _ _ Hxz Hyz) Hxy) as H.
      by rewrite ltb_irrefl in H.
Qed.

Lemma ltb_leb x y : GoString.ltb y x = false → String.leb x y = true.
Proof.
  unfold GoString.ltb, String.leb. rewrite (String.compare_antisym y x).
  by destruct (String.compare x y).
Qed.

Lemma rows_print (f : Package → string) l s :
  for_range l (λ p, print (f p)) s
  = (Ok tt, set_stdout (stdout s ++ map f l)%list s).
Proof.
  revert s. induction l as [|p l IH]; intros s; simpl.
  - rewrite app_nil_r. by destruct s.
  - unfold bind, print at 1. rewrite IH. unfold set_stdout. simpl.
    by rewrite <- app_assoc.
Qed.

Lemma fold_max_le {A} (f : A → nat) l a :
  (a ≤ foldl (λ n p, Nat.max n (f p)) a l)%nat ∧
  Forall (λ p, (f p ≤ foldl (λ n p, Nat.max n (f p)) a l)%nat) l.
Proof.
  revert a. induction l as [|p l IH]; intros a; simpl; [by split|].
  destruct (IH (Nat.max a (f p))) as [H1 H2]. split; [lia|].
  constructor; [lia | done].
Qed.

Lemma fold_max_zero {A} (f : A → nat) l :
  foldl (λ n p, Nat.max n (f p)) 0%nat l = 0%nat ↔ Forall (λ p, f p = 0%nat) l.
Proof.
  split.
  - intros H. pose proof (fold_max_le f l 0%nat) as [_ Hall]. rewrite H in Hall.
    eapply Forall_impl; [exact Hall|]. simpl. lia.
  - induction 1 as [|p l Hp _ IH]; [done|]. simpl. by rewrite Hp.
Qed.

(** X18: The table of [prepare].  The packages are returned and listed in
    ascending byte order of their names, one row each, after four
    pieces of heading and before an empty line; the column of
    installed versions is there exactly when some package of the table
    is installed with a non-empty version; no name and no installed
    version is wider than its column. *)
Theorem prepare_table_rows outdated s out s' :
  prepare_table outdated s = (Ok out, s') →
  out ≡ₚ outdated ∧
  StronglySorted (λ a b, String.leb (Name a) (Name b) = true) out ∧
  (∃ head, length head = 4%nat ∧
     stdout s' = (stdout s ++ head
                  ++ map (table_row (name_width outdated) (old_width outdated)) out
                  ++ [NL])%list) ∧
  (old_width outdated = 0%nat ↔ Forall (λ p, OldVersion p = "") outdated) ∧
  Forall (λ p, (GoString.len (Name p) ≤ name_width outdated)%nat ∧
               (GoString.len (OldVersion p) ≤ old_width outdated)%nat) out.
Proof.
  intros H. unfold prepare_table in H.
  destruct (decide (0 < length outdated)%nat) as [Hlen|]; [|done].
  fold (name_width outdated) in H.
  change (if decide (foldl (λ n p, Nat.max n (GoString.len (OldVersion p))) 0%nat outdated ≠ 0%nat)
          then Nat.max (foldl (λ n p, Nat.max n (GoString.len (OldVersion p))) 0%nat outdated) 11
          else foldl (λ n p, Nat.max n (GoString.len (OldVersion p))) 0%nat outdated)
    with (old_width outdated) in H.
  assert (Hrows : ∀ l s0,
    for_range l (λ p,
      if decide (old_width outdated ≠ 0%nat)
      then print (GoString.pad_right (name_width outdated) (Name p) +:+ "  "
                  +:+ GoString.pad_right (old_width outdated) (OldVersion p) +:+ "  "
                  +:+ Version p +:+ NL)
      else print (GoString.pad_right (name_width outdated) (Name p) +:+ "  "
                  +:+ Version p +:+ NL)) s0
    = (Ok tt, set_stdout (stdout s0 ++ map (table_row (name_width outdated)
                                                      (old_width outdated)) l)%list s0)).
  { intros l s0. rewrite <- rows_print. f_equal. unfold table_row.
    by destruct (decide (old_width outdated ≠ 0%nat)). }
  unfold bind at 1, Println, print at 1 in H. unfold bind at 1, print at 1 in H.
  unfold bind at 1 in H.
  set (col := if decide (old_width outdated ≠ 0%nat) then _ else _) in H.
  assert (Hcol : ∃ str, ∀ s0, col s0 = (Ok tt, set_stdout (stdout s0 ++ [str])%list s0)).
  { subst col. destruct (decide _); eexists; intros s0; reflexivity. }
  destruct Hcol as [str Hcol]. rewrite Hcol in H. simpl in H.
  unfold bind at 1, print at 1 in H. unfold bind at 1 in H. rewrite Hrows in H.
  unfold bind, print in H. simpl in H. injection H as <- <-. simpl.
  split; [apply sort_Slice_perm|]. split.
  { eapply StronglySorted_weaken; [|apply sort_Slice_sorted, name_less_StrictWeak].
    intros a b. apply ltb_leb. }
  split.
  { eexists [_; _; _; _]. split; [done|]. by rewrite <- !app_assoc. }
  pose proof (fold_max_le (λ p, GoString.len (Name p)) outdated 0%nat) as [_ Hn].
  pose proof (fold_max_le (λ p, GoString.len (OldVersion p)) outdated 0%nat) as [_ Hv].
  clear Hrows Hcol col str.
  pose proof (fold_max_zero (λ p, GoString.len (OldVersion p)) outdated) as Hzero.
  unfold name_width, old_width.
  set (v := foldl (λ n p, Nat.max n (GoString.len (OldVersion p))) 0%nat outdated) in *.
  set (n := foldl (λ n p, Nat.max n (GoString.len (Name p))) 0%nat outdated) in *.
  split.
  - destruct (decide (v ≠ 0%nat)) as [Hz|Hz].
    + split; [lia|]. intros Hall. destruct Hz. apply Hzero.
      eapply Forall_impl; [exact Hall|]. by intros p ->.
    + split; [|lia]. intros Hz'. apply Hzero in Hz'.
      eapply Forall_impl; [exact Hz'|]. simpl. intros p Hp. by destruct (OldVersion p).
  - rewrite sort_Slice_perm. apply Forall_forall. intros p Hp.
    rewrite Forall_forall in Hn, Hv. specialize (Hn p Hp). specialize (Hv p Hp).
    simpl in Hn, Hv. split; [lia|]. destruct (decide (v ≠ 0%nat)); lia.
Qed.

End Table.

Section Resolved.
Context `{E : Externals}.

(** X19: The check of the targets passes, silently, whenever every
    requested name has a record, also when a name is requested twice or
    the registry sends records nobody asked for. *)
Theorem targets_resolved names res s :
  (∀ n, n ∈ names → n ∈ Name <$> res) →
  prepare_targets names res s = (Ok tt, s).
Proof.
  intros Hall. unfold prepare_targets.
  destruct (decide (length names ≠ length res)) as [Hlen|Hlen]; [|done].
  rewrite targets_insert, targets_delete.
  assert (Hempty : (list_to_set names ∪ ∅) ∖ list_to_set (Name <$> res) = (∅ : gset string)).
  { apply set_eq. intros x. rewrite elem_of_difference, elem_of_union, !elem_of_list_to_set.
    split; [|by intros ?%elem_of_empty]. intros [[Hx|Hx%elem_of_empty] Hnot]; [|done].
    destruct Hnot. by apply Hall. }
  rewrite Hempty. by rewrite size_empty.
Qed.

End Resolved.

(** ** Runs of the double *)

Section CommandLineRuns.
#[local] Existing Instance Sim.sim.

Lemma parser_flags_witness :
  parser ("aur" :: ["sync"; "--force"; "libbar"; "--noedit"]) (Sim.state0 [] false false false)
  = (match operands ["sync"; "--force"; "libbar"; "--noedit"] with
     | [] => Fatal "no operation specified"
     | op :: rest => Ok (op, rest)
     end, flagged ["sync"; "--force"; "libbar"; "--noedit"] (Sim.state0 [] false false false)).
Proof.
  apply (parser_flags "aur" ["sync"; "--force"; "libbar"; "--noedit"] (Sim.state0 [] false false false)).
  unfold only_flags. repeat (constructor; [by vm_compute|]). constructor.
Defined.

Lemma parser_first_other_option_witness :
  parser ("aur" :: ["--force"] ++ "--help" :: ["--bogus"]) (Sim.state0 [] false false false)
  = if String.eqb "help" "help"
    then (Exit 0, set_stdout (stdout (Sim.state0 [] false false false) ++ [usage_text +:+ NL])%list
                             (flagged ["--force"] (Sim.state0 [] false false false)))
    else (Fatal ("invalid option: " +:+ "--help"), flagged ["--force"] (Sim.state0 [] false false false)).
Proof.
  apply (parser_first_other_option "aur" ["--force"] "--help" "help" ["--bogus"] (Sim.state0 [] false false false)).
  - unfold only_flags. repeat (constructor; [by vm_compute|]). constructor.
  - reflexivity.
  - reflexivity.
  - compute_done.
Defined.

Lemma main_dispatch_witness :
  main ("aur" :: ["sync"; "--force"; "libbar"; "--noedit"]) (Sim.state0 [] false false false) = operation "sync" ["libbar"] (flagged ["sync"; "--force"; "libbar"; "--noedit"] (Sim.state0 [] false false false)).
Proof.
  apply (main_dispatch "aur" ["sync"; "--force"; "libbar"; "--noedit"] "sync" ["libbar"] (Sim.state0 [] false false false)).
  - unfold only_flags. repeat (constructor; [by vm_compute|]). constructor.
  - reflexivity.
Defined.

End CommandLineRuns.

Section InspectionRuns.
#[local] Existing Instance Sim.sim.

Lemma VCSVersion_steps_witness :
  ∃ e1 o1 w1, run (inspect_build "foo-git") (world (Sim.state0 [] false true false)) = (e1, o1, w1) ∧
    match e1 with
    | NoErr =>
        ∃ e2 output w2, run (list_cmd "foo-git") w1 = (e2, output, w2) ∧
          trace (snd (VCSVersion "foo-git" (Sim.state0 [] false true false)))
            = (trace (Sim.state0 [] false true false) ++ inspect_list "foo-git")%list ∧
          world (snd (VCSVersion "foo-git" (Sim.state0 [] false true false))) = w2 ∧
          match e2 with
          | NoErr =>
              fst (VCSVersion "foo-git" (Sim.state0 [] false true false))
              = if forallb matches (GoString.Split output " ")
                then Ok (vcs_map (GoString.Split output " "))
                else Panic "index out of range [1] with length 0"
          | _ => fst (VCSVersion "foo-git" (Sim.state0 [] false true false)) = Fatal (Error e2)
          end
    | _ =>
        trace (snd (VCSVersion "foo-git" (Sim.state0 [] false true false)))
          = (trace (Sim.state0 [] false true false) ++ [Exec (inspect_build "foo-git")])%list ∧
        world (snd (VCSVersion "foo-git" (Sim.state0 [] false true false))) = w1 ∧
        fst (VCSVersion "foo-git" (Sim.state0 [] false true false)) = Fatal (Error e1)
    end.
Proof.
  apply (VCSVersion_steps "foo-git" (Sim.state0 [] false true false)). vm_compute. reflexivity.
Defined.

Lemma devel_version_lookup_witness :
  ∃ o1 w1 output,
    run (inspect_build (PackageBase Sim.foo_git)) (world (Sim.state0 [] false true false)) = (NoErr, o1, w1) ∧
    run (list_cmd (PackageBase Sim.foo_git)) w1
      = (NoErr, output, world (snd (prepare_local Sim.db0 Sim.foo_git (Sim.state0 [] false true false)))) ∧
    (Forall (λ o, ¬ names_pkg (Name Sim.foo_git) o) (GoString.Split output " ") →
     Version (set_OldVersion "r1.abc-1" (set_Version "r2.abc-1" Sim.foo_git)) = "") ∧
    (∀ pre o post v,
       GoString.Split output " " = (pre ++ o :: post)%list →
       FindStringSubmatch o = Some (Name Sim.foo_git, v) →
       Forall (λ o', ¬ names_pkg (Name Sim.foo_git) o') post →
       Version (set_OldVersion "r1.abc-1" (set_Version "r2.abc-1" Sim.foo_git)) = v).
Proof.
  apply (devel_version_lookup Sim.db0 Sim.foo_git (Sim.state0 [] false true false)
           (set_OldVersion "r1.abc-1" (set_Version "r2.abc-1" Sim.foo_git))
           (snd (prepare_local Sim.db0 Sim.foo_git (Sim.state0 [] false true false)))
           (mkAlpmPkg "foo-git" "r1.abc-1" "foo-git" "foo-git-r1.abc-1-any.pkg.tar.zst")).
  - reflexivity.
  - reflexivity.
  - vm_compute. reflexivity.
Defined.

End InspectionRuns.

Section TableRuns.
#[local] Existing Instance Sim.sim.

Lemma prepare_table_rows_witness :
  [Sim.baz; Sim.libbar] ≡ₚ [Sim.libbar; Sim.baz] ∧
  StronglySorted (λ a b, String.leb (Name a) (Name b) = true) [Sim.baz; Sim.libbar] ∧
  (∃ head, length head = 4%nat ∧
     stdout (snd (prepare_table [Sim.libbar; Sim.baz] (Sim.state0 [] false false false)))
     = (stdout (Sim.state0 [] false false false) ++ head
        ++ map (table_row (name_width [Sim.libbar; Sim.baz]) (old_width [Sim.libbar; Sim.baz])) [Sim.baz; Sim.libbar]
        ++ [NL])%list) ∧
  (old_width [Sim.libbar; Sim.baz] = 0%nat ↔ Forall (λ p, OldVersion p = "") [Sim.libbar; Sim.baz]) ∧
  Forall (λ p, (GoString.len (Name p) ≤ name_width [Sim.libbar; Sim.baz])%nat ∧
               (GoString.len (OldVersion p) ≤ old_width [Sim.libbar; Sim.baz])%nat)
         [Sim.baz; Sim.libbar].
Proof.
  apply (prepare_table_rows [Sim.libbar; Sim.baz] (Sim.state0 [] false false false) [Sim.baz; Sim.libbar]
           (snd (prepare_table [Sim.libbar; Sim.baz] (Sim.state0 [] false false false)))).
  vm_compute. reflexivity.
Defined.

Lemma targets_resolved_witness :
  prepare_targets ["baz"; "libbar"; "baz"] [Sim.libbar; Sim.baz] (Sim.state0 [] false false false) = (Ok tt, (Sim.state0 [] false false false)).
Proof.
  apply (targets_resolved ["baz"; "libbar"; "baz"] [Sim.libbar; Sim.baz] (Sim.state0 [] false false false)).
  intros n Hn.
  repeat (apply elem_of_cons in Hn as [->|Hn]; [apply list_elem_of_In; vm_compute; tauto|]).
  by apply elem_of_nil in Hn.
Defined.

End TableRuns.

Section StepRuns.
#[local] Existing Instance Sim.sim.

Lemma build_steps_witness :
  ∃ e1 o1 w1, run (build_cmd "bar") (world (Sim.state0 [] false false false)) = (e1, o1, w1) ∧
    match e1 with
    | NoErr =>
        ∃ e2 output w2, run (list_cmd "bar") w1 = (e2, output, w2) ∧
          match e2 with
          | NoErr =>
              ∃ e3 o3 w3, run (repo_add_cmd (artifacts output)) w2 = (e3, o3, w3) ∧
                trace (snd (build "bar" (Sim.state0 [] false false false)))
                  = (trace (Sim.state0 [] false false false) ++ build_list "bar" output)%list ∧
                world (snd (build "bar" (Sim.state0 [] false false false))) = w3 ∧
                fst (build "bar" (Sim.state0 [] false false false))
                  = match e3 with NoErr => Ok tt | _ => Fatal (Error e3) end
          | _ =>
              trace (snd (build "bar" (Sim.state0 [] false false false)))
                = (trace (Sim.state0 [] false false false) ++ [Exec (build_cmd "bar"); Exec (list_cmd "bar")])%list ∧
              world (snd (build "bar" (Sim.state0 [] false false false))) = w2 ∧
              fst (build "bar" (Sim.state0 [] false false false)) = Fatal (Error e2)
          end
    | _ =>
        trace (snd (build "bar" (Sim.state0 [] false false false))) = (trace (Sim.state0 [] false false false) ++ [Exec (build_cmd "bar")])%list ∧
        world (snd (build "bar" (Sim.state0 [] false false false))) = w1 ∧
        fst (build "bar" (Sim.state0 [] false false false)) = Fatal (Error e1)
    end.
Proof.
  apply (build_steps "bar" (Sim.state0 [] false false false)). vm_compute. reflexivity.
Defined.

Lemma sync_unit_clone_witness :
  if os_Stat (world (Sim.state0 ["n"] false false false)) "bar"
  then ∃ t, trace (snd (sync_unit "bar" (Sim.state0 ["n"] false false false))) = (trace (Sim.state0 ["n"] false false false) ++ t)%list ∧
            Forall no_clone t
  else ∃ e o w, run (clone_cmd "bar") (world (Sim.state0 ["n"] false false false)) = (e, o, w) ∧
       ∃ t, trace (snd (sync_unit "bar" (Sim.state0 ["n"] false false false)))
              = (trace (Sim.state0 ["n"] false false false) ++ Exec (clone_cmd "bar") :: t)%list ∧
            Forall no_clone t ∧
            (e ≠ NoErr →
             t = [] ∧ fst (sync_unit "bar" (Sim.state0 ["n"] false false false)) = Fatal (Error e) ∧
             answers (snd (sync_unit "bar" (Sim.state0 ["n"] false false false))) = answers (Sim.state0 ["n"] false false false) ∧
             world (snd (sync_unit "bar" (Sim.state0 ["n"] false false false))) = w).
Proof.
  apply (sync_unit_clone "bar" (Sim.state0 ["n"] false false false)). vm_compute. reflexivity.
Defined.

Lemma update_unit_steps_witness :
  ∃ e1 o1 w1, run (fetch_cmd "foo-git") (world (Sim.state0 ["y"; "n"] false false false)) = (e1, o1, w1) ∧
    match e1 with
    | NoErr =>
        ∃ e2 o2 w2, run (diff_cmd "foo-git") w1 = (e2, o2, w2) ∧
          if differs e2 && accepts (hd "" (answers (Sim.state0 ["y"; "n"] false false false)))
          then ∃ e3 o3 w3, run (show_cmd "foo-git") w2 = (e3, o3, w3) ∧
                 match e3 with
                 | NoErr =>
                     merges "foo-git" (Sim.state0 ["y"; "n"] false false false) (fst (update_unit "foo-git" (Sim.state0 ["y"; "n"] false false false)))
                            (snd (update_unit "foo-git" (Sim.state0 ["y"; "n"] false false false))) w3
                            [Exec (fetch_cmd "foo-git"); Exec (diff_cmd "foo-git");
                             Exec (show_cmd "foo-git")]
                 | _ =>
                     fst (update_unit "foo-git" (Sim.state0 ["y"; "n"] false false false)) = Fatal (Error e3) ∧
                     world (snd (update_unit "foo-git" (Sim.state0 ["y"; "n"] false false false))) = w3 ∧
                     trace (snd (update_unit "foo-git" (Sim.state0 ["y"; "n"] false false false)))
                     = (trace (Sim.state0 ["y"; "n"] false false false) ++ [Exec (fetch_cmd "foo-git"); Exec (diff_cmd "foo-git");
                                       Exec (show_cmd "foo-git")])%list
                 end
          else merges "foo-git" (Sim.state0 ["y"; "n"] false false false) (fst (update_unit "foo-git" (Sim.state0 ["y"; "n"] false false false)))
                      (snd (update_unit "foo-git" (Sim.state0 ["y"; "n"] false false false))) w2
                      [Exec (fetch_cmd "foo-git"); Exec (diff_cmd "foo-git")]
    | _ =>
        fst (update_unit "foo-git" (Sim.state0 ["y"; "n"] false false false)) = Fatal (Error e1) ∧
        world (snd (update_unit "foo-git" (Sim.state0 ["y"; "n"] false false false))) = w1 ∧
        answers (snd (update_unit "foo-git" (Sim.state0 ["y"; "n"] false false false))) = answers (Sim.state0 ["y"; "n"] false false false) ∧
        trace (snd (update_unit "foo-git" (Sim.state0 ["y"; "n"] false false false)))
          = (trace (Sim.state0 ["y"; "n"] false false false) ++ [Exec (fetch_cmd "foo-git")])%list
    end.
Proof.
  apply (update_unit_steps "foo-git" (Sim.state0 ["y"; "n"] false false false)). vm_compute. reflexivity.
Defined.

End StepRuns.

Section ChildrenRuns.
#[local] Existing Instance Sim.sim.

Lemma sync_children_witness :
  ∃ t, trace (snd (sync ["libbar"; "bar-utils"] (Sim.state0 ["y"; "n"] false false false))) = (trace (Sim.state0 ["y"; "n"] false false false) ++ t)%list ∧ Forall sync_event t.
Proof.
  apply (sync_children ["libbar"; "bar-utils"] (Sim.state0 ["y"; "n"] false false false) (fst (sync ["libbar"; "bar-utils"] (Sim.state0 ["y"; "n"] false false false)))).
  vm_compute. reflexivity.
Defined.

Lemma update_children_witness :
  ∃ t, trace (snd (update (Sim.state0 ["y"; "n"; "n"] false true false))) = (trace (Sim.state0 ["y"; "n"; "n"] false true false) ++ t)%list ∧
       Forall update_event t ∧ ∀ base, Exec (clone_cmd base) ∉ t.
Proof.
  apply (update_children (Sim.state0 ["y"; "n"; "n"] false true false) (fst (update (Sim.state0 ["y"; "n"; "n"] false true false)))). vm_compute. reflexivity.
Defined.

Lemma noedit_never_edits_witness :
  (∃ t, trace (snd (sync ["libbar"; "bar-utils"] (Sim.state0 ["y"] false false true))) = (trace (Sim.state0 ["y"] false false true) ++ t)%list ∧ Forall no_vim t) ∧
  (sync ["libbar"; "bar-utils"] (Sim.state0 ["y"] false false true) = (fst (sync ["libbar"; "bar-utils"] (Sim.state0 ["y"] false false true)), snd (sync ["libbar"; "bar-utils"] (Sim.state0 ["y"] false false true))) →
   answers (snd (sync ["libbar"; "bar-utils"] (Sim.state0 ["y"] false false true))) = answers (Sim.state0 ["y"] false false true) ∨
   answers (snd (sync ["libbar"; "bar-utils"] (Sim.state0 ["y"] false false true))) = tl (answers (Sim.state0 ["y"] false false true))).
Proof.
  apply (noedit_never_edits ["libbar"; "bar-utils"] (Sim.state0 ["y"] false false true) (fst (sync ["libbar"; "bar-utils"] (Sim.state0 ["y"] false false true))) (snd (sync ["libbar"; "bar-utils"] (Sim.state0 ["y"] false false true)))).
  - reflexivity.
  - left. vm_compute. reflexivity.
Defined.

Lemma units_stop_at_failure_witness :
  ∃ built rest,
    map_range (collect_bases [Sim.bar_utils; Sim.libbar]) = (built ++ rest)%list ∧
    (∀ x, x ∈ built → builds x (snd (sync ["libbar"; "bar-utils"] (Sim.state0 ["y"; "n"] false false false))) = S (builds x (Sim.state0 ["y"; "n"] false false false))) ∧
    (∀ x, x ∈ tl rest → builds x (snd (sync ["libbar"; "bar-utils"] (Sim.state0 ["y"; "n"] false false false))) = builds x (Sim.state0 ["y"; "n"] false false false)) ∧
    (fst (sync ["libbar"; "bar-utils"] (Sim.state0 ["y"; "n"] false false false)) = Ok tt ↔ rest = []).
Proof.
  apply (units_stop_at_failure ["libbar"; "bar-utils"] [Sim.bar_utils; Sim.libbar] (Sim.state0 ["y"; "n"] false false false)
           (snd (prepare ["libbar"; "bar-utils"] (Sim.state0 ["y"; "n"] false false false)))).
  - vm_compute. reflexivity.
  - vm_compute. reflexivity.
  - left. vm_compute. reflexivity.
Defined.

Lemma forced_sync_builds_all_witness :
  builds (PackageBase Sim.baz) (snd (sync ["baz"] (Sim.state0 ["y"; "n"] true false false)))
  = S (builds (PackageBase Sim.baz) (Sim.state0 ["y"; "n"] true false false)).
Proof.
  apply (forced_sync_builds_all ["baz"] [Sim.baz] (Sim.state0 ["y"; "n"] true false false) (snd (sync ["baz"] (Sim.state0 ["y"; "n"] true false false))) Sim.baz).
  - vm_compute. reflexivity.
  - reflexivity.
  - vm_compute. reflexivity.
  - apply list_elem_of_here.
Defined.

End ChildrenRuns.

Section SweepOrderRuns.
#[local] Existing Instance Sim.sim.


Lemma clean_keeps_exactly_witness :
  dir_names (world (snd (clean (Sim.state0 [] false false false))))
    = Some (List.filter (kept_name (pkgcache (world (Sim.state0 [] false false false)))) (map entry_name Sim.cache0)) ∧
  pkgcache (world (snd (clean (Sim.state0 [] false false false)))) = pkgcache (world (Sim.state0 [] false false false)).
Proof.
  apply (clean_keeps_exactly (Sim.state0 [] false false false) (snd (clean (Sim.state0 [] false false false))) Sim.cache0).
  - exact sim_clean_local.
  - reflexivity.
  - vm_compute. reflexivity.
Defined.

(** The sweep on the double: the mirrors and artifacts of the two
    installed packages and the archive stay; the mirror and the
    artifact of [old], which is not installed, go. *)
Example clean_example :
  map entry_name Sim.cache0
    = ["aur.db.tar.gz"; "baz"; "baz-1.0-1-any.pkg.tar.zst"; "foo-git";
       "foo-git-r1.abc-1-any.pkg.tar.zst"; "old"; "old-0.9-1-any.pkg.tar.zst"] ∧
  List.filter (kept_name Sim.db0) (map entry_name Sim.cache0)
    = ["aur.db.tar.gz"; "baz"; "baz-1.0-1-any.pkg.tar.zst"; "foo-git";
       "foo-git-r1.abc-1-any.pkg.tar.zst"] ∧
  dir_names (world (snd (clean (Sim.state0 [] false false false))))
    = Some ["aur.db.tar.gz"; "baz"; "baz-1.0-1-any.pkg.tar.zst"; "foo-git";
            "foo-git-r1.abc-1-any.pkg.tar.zst"].
Proof. vm_compute. done. Qed.

End SweepOrderRuns.
